(** * AmongUs web wrapper: session lifecycle and human synchronisation

    A shallow embedding of [server/game_manager.py] (class [GameManager])
    together with the parts of [server/app.py] it is driven by.

    - Python objects become records; attributes read with
      [getattr(obj, "x", None)] become [option] fields.
    - Dictionaries ([GameManager._records], the module-level
      [human_action_futures]) are [gmap]s; the [asyncio.Future] objects
      they point to live in a heap so that the table entry and the
      consumer holding the future share one object.
    - Exceptions are values of [PyExc]; code that mutates the manager and
      may raise runs in the state-and-exception monad [M].
    - Coroutines are cut at their [await]s: every segment between two
      suspension points is one function on the state, and the event loop
      is the labelled transition function [exec].
    - The simulation engine ([amongagents]) is an external collaborator:
      whatever it does (new game state, result of [run_game], result of
      a method call) is supplied by the label of the transition or stored
      in the game object as the outcome the call would have. *)

From Stdlib Require Import ZArith String Ascii DecimalString Bool Lia.
From stdpp Require Import gmap strings list fin_maps.

Open Scope Z_scope.
Open Scope string_scope.

(** ** Python values used by the manager *)

(** [str(n)] for a Python [int]. *)
Definition str_int (z : Z) : string := NilZero.string_of_int (Z.to_int z).

(** [str(x)] inside an f-string for a value that may be [None]. *)
Definition str_opt_int (o : option Z) : string :=
  match o with Some z => str_int z | None => "None" end.

(** Exception classes that occur in the manager.  [OtherException] stands
    for any subclass of [Exception] raised by the engine;
    [CancelledError] derives from [BaseException] (Python 3.8 and later),
    so [except Exception] does not catch it. *)
Inductive ExcClass :=
| KeyError | RuntimeError | ValueError | TimeoutError | AttributeError
| InvalidStateError | OtherException | CancelledError.

Inductive PyArg := ArgStr (s : string) | ArgInt (z : Z).

(** An exception object: class, constructor argument, and [__cause__]
    (set by [raise ... from exc]). *)
#[warnings="-register-all"]
Inductive PyExc := Exc (cls : ExcClass) (arg : PyArg) (cause : option PyExc).

Definition exc_class (e : PyExc) : ExcClass := let 'Exc c _ _ := e in c.
Definition exc_arg (e : PyExc) : PyArg := let 'Exc _ a _ := e in a.
Definition exc_cause (e : PyExc) : option PyExc := let 'Exc _ _ c := e in c.

(** [isinstance(e, Exception)]. *)
Definition is_Exception (e : PyExc) : bool :=
  match exc_class e with CancelledError => false | _ => true end.

(** [repr(s)] of a string without quotes, backslashes or control
    characters (all messages built below are of that kind). *)
Definition repr_str (s : string) : string := "'" ++ s ++ "'".

(** [str(exc)]: the argument, except that [KeyError] shows its [repr]. *)
Definition str_exc (e : PyExc) : string :=
  match exc_class e, exc_arg e with
  | KeyError, ArgStr s => repr_str s
  | _, ArgStr s => s
  | _, ArgInt z => str_int z
  end.

Inductive PyResult (A : Type) := Ok (a : A) | Raise (e : PyExc).
Arguments Ok {A} a.
Arguments Raise {A} e.

Definition is_Ok {A} (r : PyResult A) : bool :=
  match r with Ok _ => true | Raise _ => false end.

(** ** The simulation as seen by the manager *)

Record Player := {
  name : string;
  location : string;
  color : string;
  is_alive : bool;
  (** outcome of calling [player.all_info_prompt()] now *)
  all_info_prompt : PyResult string;
}.

(** An entry of an action list: a dict read with
    [action.get("name", "")] and [action.get("requires_message", False)]. *)
Record Action := {
  action_name : option string;
  requires_message : option bool;
}.

(** The dict returned by [HumanAgent.get_current_state_for_web()]. *)
Record HumanState := {
  hs_player_info : option string;
  hs_current_step : option Z;
  hs_available_actions : option (list Action);
}.

Record HumanAgentObj := {
  human_player : option Player;
  current_available_actions : option (list Action);
  (** outcome of calling [get_current_state_for_web()] now *)
  get_current_state_for_web : PyResult HumanState;
}.

(** [isinstance(agent, HumanAgent)] is the constructor test. *)
Inductive Agent :=
| HumanAgent (h : HumanAgentObj)
| LLMAgent (player : option Player).

Definition agent_player (a : Agent) : option Player :=
  match a with HumanAgent h => human_player h | LLMAgent p => p end.

(** An entry of [game.activity_log], a dict read with [entry.get]. *)
Record LogEntry := {
  entry_phase : option string;
  entry_player : option Player;
  (** [str(action)] when the key is present *)
  entry_action : option string;
  entry_round : option Z;
  entry_timestep : option Z;
}.

Record Summary := {
  summary_winner : option Z;
  summary_winner_reason : option string;
}.

Record GameConfig := { max_timesteps : option Z }.

(** The [AmongUs] object.  Attributes the manager reads with [getattr]
    and a default are optional. *)
Record AmongUs := {
  agents : option (list Agent);
  current_player : option string;
  current_phase : option string;
  timestep : option Z;
  game_config : option GameConfig;
  players : option (list Player);
  activity_log : option (list LogEntry);
  summary_json : gmap string Summary;
}.

(** ** asyncio objects *)

(** The payload handed to the suspended human agent. *)
Record Payload := { action_index : Z; message : string }.

Inductive FutureState :=
| FutPending
| FutResult (p : Payload)
| FutCancelled.

Inductive TaskState :=
| TaskPending                       (* created, body not started yet *)
| TaskSuspended                     (* inside [await record.game.run_game()] *)
| TaskFinished (exc : option PyExc) (* returned, or raised [exc] *)
| TaskCancelled.

Record Task := {
  task_state : TaskState;
  (** a cancellation was requested and not delivered yet *)
  must_cancel : bool;
}.

Definition task_done (t : Task) : bool :=
  match task_state t with
  | TaskFinished _ | TaskCancelled => true
  | _ => false
  end.

(** [task.cancel()]: a request; it does nothing on a finished task. *)
Definition task_cancel (t : Task) : Task :=
  if task_done t then t
  else {| task_state := task_state t; must_cancel := true |}.

(** ** The manager *)

Record GameRecord := {
  game_id : Z;
  game : AmongUs;
  status : string;
  task : option Task;
  error : option string;
  winner : option Z;
  winner_reason : option string;
}.

Definition set_status (v : string) (r : GameRecord) : GameRecord :=
  {| game_id := game_id r; game := game r; status := v; task := task r;
     error := error r; winner := winner r; winner_reason := winner_reason r |}.
Definition set_error (v : option string) (r : GameRecord) : GameRecord :=
  {| game_id := game_id r; game := game r; status := status r; task := task r;
     error := v; winner := winner r; winner_reason := winner_reason r |}.
Definition set_task (v : option Task) (r : GameRecord) : GameRecord :=
  {| game_id := game_id r; game := game r; status := status r; task := v;
     error := error r; winner := winner r; winner_reason := winner_reason r |}.
Definition set_game (v : AmongUs) (r : GameRecord) : GameRecord :=
  {| game_id := game_id r; game := v; status := status r; task := task r;
     error := error r; winner := winner r; winner_reason := winner_reason r |}.
Definition set_winner (w : option Z) (wr : option string) (r : GameRecord)
  : GameRecord :=
  {| game_id := game_id r; game := game r; status := status r; task := task r;
     error := error r; winner := w; winner_reason := wr |}.

(** The state of the process: the fields of the [GameManager] instance
    and the module-level table [human_action_futures] with the future
    objects it refers to. *)
Record State := {
  _records : gmap Z GameRecord;
  _next_game_id : Z;
  (** [asyncio.Lock.locked()] of [_init_lock] *)
  _init_lock : bool;
  human_action_futures : gmap Z nat;
  future_heap : list FutureState;
}.

(** [GameManager.__init__]. *)
Definition init_state : State :=
  {| _records := ∅; _next_game_id := 1; _init_lock := false;
     human_action_futures := ∅; future_heap := [] |}.

Definition with_records (f : gmap Z GameRecord → gmap Z GameRecord) (s : State)
  : State :=
  {| _records := f (_records s); _next_game_id := _next_game_id s;
     _init_lock := _init_lock s;
     human_action_futures := human_action_futures s;
     future_heap := future_heap s |}.
Definition with_next_game_id (v : Z) (s : State) : State :=
  {| _records := _records s; _next_game_id := v; _init_lock := _init_lock s;
     human_action_futures := human_action_futures s;
     future_heap := future_heap s |}.
Definition with_lock (v : bool) (s : State) : State :=
  {| _records := _records s; _next_game_id := _next_game_id s;
     _init_lock := v;
     human_action_futures := human_action_futures s;
     future_heap := future_heap s |}.
Definition with_futures (t : gmap Z nat) (h : list FutureState) (s : State)
  : State :=
  {| _records := _records s; _next_game_id := _next_game_id s;
     _init_lock := _init_lock s;
     human_action_futures := t; future_heap := h |}.

(** [future.done()] for the object at [addr]. *)
Definition future_done (h : list FutureState) (addr : nat) : bool :=
  match h !! addr with
  | Some FutPending => false
  | _ => true
  end.

(** ** State and exception monad *)

Definition M (A : Type) : Type := State → PyResult A * State.

Definition ret {A} (a : A) : M A := fun s => (Ok a, s).
Definition raise {A} (e : PyExc) : M A := fun s => (Raise e, s).
Definition bind {A B} (c : M A) (k : A → M B) : M B :=
  fun s => match c s with
           | (Ok a, s') => k a s'
           | (Raise e, s') => (Raise e, s')
           end.
Definition gets {A} (f : State → A) : M A := fun s => (Ok (f s), s).
Definition modify (f : State → State) : M unit := fun s => (Ok tt, f s).

Notation "'let!' x ':=' c 'in' k" := (bind c (fun x => k))
  (at level 10, x name, c at level 100, k at level 200).
Notation "c ';;;' k" := (bind c (fun _ => k))
  (at level 100, k at level 200, right associativity).

(** [try: c  finally: f] *)
Definition try_finally {A} (c : M A) (f : M unit) : M A :=
  fun s => match c s with
           | (r, s') => match f s' with
                        | (Ok _, s'') => (r, s'')
                        | (Raise e, s'') => (Raise e, s'')
                        end
           end.

Definition raise_exc {A} (c : ExcClass) (msg : string) : M A :=
  raise (Exc c (ArgStr msg) None).

(** ** Lookups in the simulation ([_find_human_agent],
    [_find_current_agent]) *)

(** [x or []] for an optional list. *)
Definition or_nil {A} (o : option (list A)) : list A :=
  match o with Some l => l | None => [] end.

Fixpoint first_human (l : list Agent) : option HumanAgentObj :=
  match l with
  | [] => None
  | HumanAgent h :: _ => Some h
  | LLMAgent _ :: rest => first_human rest
  end.

Definition _find_human_agent (g : AmongUs) : option HumanAgentObj :=
  first_human (or_nil (agents g)).

Fixpoint first_named (n : string) (l : list Agent) : option Agent :=
  match l with
  | [] => None
  | a :: rest =>
      match agent_player a with
      | Some p => if String.eqb (name p) n then Some a else first_named n rest
      | None => first_named n rest
      end
  end.

Definition _find_current_agent (g : AmongUs) : option Agent :=
  match current_player g with
  | None => None
  | Some "" => None
  | Some n => first_named n (or_nil (agents g))
  end.

(** ** Human action submission ([submit_human_action]) *)

(** [status in {"completed", "error"}]. *)
Definition is_terminal (st : string) : bool :=
  String.eqb st "completed" || String.eqb st "error".

(** [speech_text or ""]. *)
Definition or_empty (o : option string) : string :=
  match o with Some t => t | None => "" end.

(** [future.set_result(payload)]. *)
Definition future_set_result (addr : nat) (p : Payload) : M unit :=
  fun s =>
    if future_done (future_heap s) addr
    then (Raise (Exc InvalidStateError (ArgStr "invalid state") None), s)
    else (Ok tt, with_futures (human_action_futures s)
                   (<[addr := FutResult p]> (future_heap s)) s).

Definition not_waiting_msg : string :=
  "Game is not currently waiting for a human action.".

Definition submit_human_action (gid : Z) (idx : Z) (speech_text : option string)
  : M unit :=
  let! r := gets (fun s => _records s !! gid) in
  match r with
  | None => raise_exc KeyError ("Unknown game_id=" ++ str_int gid)
  | Some record =>
      if is_terminal (status record) then
        raise_exc RuntimeError
          ("Game " ++ str_int gid ++ " is already " ++ status record ++ ".")
      else
        match _find_human_agent (game record) with
        | None =>
            raise_exc RuntimeError
              ("Game " ++ str_int gid ++ " has no human agent.")
        | Some human_agent =>
            let! fut := gets (fun s => human_action_futures s !! gid) in
            let! h := gets future_heap in
            match fut with
            | None => raise_exc RuntimeError not_waiting_msg
            | Some future =>
                if future_done h future then
                  raise_exc RuntimeError not_waiting_msg
                else
                  let current_actions :=
                    or_nil (current_available_actions human_agent) in
                  if (idx <? 0)%Z || (idx >=? Z.of_nat (length current_actions))%Z
                  then
                    raise_exc ValueError
                      ("action_index out of range: " ++ str_int idx)
                  else
                    future_set_result future
                      {| action_index := idx;
                         message := or_empty speech_text |}
            end
        end
  end.

(** ** The session task ([_run_game]) *)

(** [record.<field> = v] on the record object registered under [gid]. *)
Definition update_record (gid : Z) (f : GameRecord → GameRecord) : M unit :=
  modify (with_records (alter f gid)).

(** [try: c  except Exception as exc: h exc].  An exception that is not
    an instance of [Exception] passes through. *)
Definition try_except_Exception {A} (c : M A) (h : PyExc → M A) : M A :=
  fun s => match c s with
           | (Ok a, s') => (Ok a, s')
           | (Raise e, s') => if is_Exception e then h e s' else (Raise e, s')
           end.

(** [future.cancel()] followed by the removal of the table entry: the
    [finally] block of [_run_game]. *)
Definition cancel_future (h : list FutureState) (addr : nat)
  : list FutureState :=
  if future_done h addr then h else <[addr := FutCancelled]> h.

Definition cleanup_future (gid : Z) : M unit :=
  modify (fun s =>
    let h := match human_action_futures s !! gid with
             | Some future => cancel_future (future_heap s) future
             | None => future_heap s
             end in
    with_futures (delete gid (human_action_futures s)) h s).

Definition empty_summary : Summary :=
  {| summary_winner := None; summary_winner_reason := None |}.

(** [record.game.summary_json.get(f"Game {game_id}", {})]. *)
Definition game_summary (gid : Z) (g : AmongUs) : Summary :=
  default empty_summary (summary_json g !! ("Game " ++ str_int gid)).

(** First segment of the task, up to [await record.game.run_game()]. *)
Definition _run_game_start (gid : Z) : M unit :=
  let! r := gets (fun s => _records s !! gid) in
  match r with
  | None => raise (Exc KeyError (ArgInt gid) None)
  | Some _ => update_record gid (set_status "running")
  end.

(** Second segment: the [await] yields [outcome] (it returns, or an
    exception comes out of it, [CancelledError] included). *)
Definition _run_game_resume (gid : Z) (outcome : PyResult unit) : M unit :=
  try_finally
    (try_except_Exception
       (match outcome with
        | Raise e => raise e
        | Ok _ =>
            update_record gid (set_status "completed") ;;;
            update_record gid (fun r =>
              let summary := game_summary gid (game r) in
              set_winner (summary_winner summary)
                         (summary_winner_reason summary) r)
        end)
       (fun exc =>
          update_record gid (set_status "error") ;;;
          update_record gid (set_error (Some (str_exc exc)))))
    (cleanup_future gid).

(** How the task object ends, given what came out of the coroutine. *)
Definition task_outcome (r : PyResult unit) : TaskState :=
  match r with
  | Ok _ => TaskFinished None
  | Raise e =>
      match exc_class e with
      | CancelledError => TaskCancelled
      | _ => TaskFinished (Some e)
      end
  end.

(** ** The readiness gate ([_wait_for_human_agent_ready]) *)

(** Times are readings of [loop.time()] in milliseconds. *)
Definition timeout_ms : Z := 10000.
Definition poll_interval_ms : Z := 50.

Inductive GateStep :=
| GateReturn
| GateSleep
| GateRaise (e : PyExc).

Definition cancelled_error : PyExc := Exc CancelledError (ArgStr "") None.

(** [record.task.exception()] on a finished task. *)
Definition task_exception (t : Task) : PyResult (option PyExc) :=
  match task_state t with
  | TaskFinished exc => Ok exc
  | TaskCancelled => Raise cancelled_error
  | _ => Raise (Exc InvalidStateError (ArgStr "Exception is not set.") None)
  end.

(** One turn of the [while] loop: the test of the deadline and the body
    up to [await asyncio.sleep(0.05)]. *)
Definition gate_iteration (now deadline : Z) (gid : Z) (s : State) : GateStep :=
  if (now <? deadline)%Z then
    match _records s !! gid with
    | None => GateRaise (Exc KeyError (ArgInt gid) None)
    | Some record =>
        let look :=
          match _find_human_agent (game record) with
          | Some _ => GateReturn
          | None => GateSleep
          end in
        match task record with
        | Some t =>
            if task_done t then
              match task_exception t with
              | Raise e => GateRaise e
              | Ok (Some exc) =>
                  GateRaise
                    (Exc RuntimeError
                       (ArgStr ("Game task failed during initialization: "
                                ++ str_exc exc))
                       (Some exc))
              | Ok None =>
                  GateRaise
                    (Exc RuntimeError
                       (ArgStr "Game finished before human initialization completed.")
                       None)
              end
            else look
        | None => look
        end
    end
  else
    GateRaise
      (Exc TimeoutError
         (ArgStr "Timed out waiting for HumanAgent initialization.") None).

(** ** Session creation ([create_game]) *)

(** [if not os.getenv("OPENROUTER_API_KEY"): raise ...]. *)
Definition check_api_key (key : option string) : PyResult unit :=
  match key with
  | None | Some "" =>
      Raise (Exc RuntimeError (ArgStr "OPENROUTER_API_KEY is required.") None)
  | Some _ => Ok tt
  end.

(** [model or "openrouter/free"]. *)
Definition model_or_default (m : option string) : string :=
  match m with
  | None | Some "" => "openrouter/free"
  | Some v => v
  end.

(** Lines 117-119: the lock is taken and the identifier allocated. *)
Definition create_game_enter : M Z :=
  modify (with_lock true) ;;;
  let! gid := gets _next_game_id in
  modify (with_next_game_id (gid + 1)) ;;;
  ret gid.

(** [async with self._init_lock] left, normally or by an exception. *)
Definition release_lock : M unit := modify (with_lock false).

Definition new_record (gid : Z) (g : AmongUs) : GameRecord :=
  {| game_id := gid; game := g; status := "initializing";
     task := Some {| task_state := TaskPending; must_cancel := false |};
     error := None; winner := None; winner_reason := None |}.

(** Lines 157-169: what [create_game] does with the outcome of the gate,
    inside the [async with]. *)
Definition create_game_finish (gid : Z) (gate : PyResult unit) : M Z :=
  try_finally
    (try_except_Exception
       (match gate with Raise e => raise e | Ok _ => ret tt end)
       (fun exc =>
          update_record gid (set_status "error") ;;;
          update_record gid (set_error (Some (str_exc exc))) ;;;
          update_record gid (fun r => set_task (task_cancel <$> task r) r) ;;;
          raise exc) ;;;
     update_record gid (fun r =>
       if is_terminal (status r) then r else set_status "running" r) ;;;
     ret gid)
    release_lock.

(** Lines 121-158 up to the first suspension of the gate.  [built] is
    the outcome of [setup_experiment] and of the [AmongUs] constructor;
    [t0] and [now] are the two readings of the clock.  The result is
    [None] when the coroutine is suspended in the gate's sleep. *)
Definition create_game_setup (gid : Z) (built : PyResult AmongUs) (t0 now : Z)
  : M (option Z) :=
  match built with
  | Raise e => try_finally (raise e) release_lock
  | Ok g =>
      modify (with_records (<[gid := new_record gid g]>)) ;;;
      let! step := gets (gate_iteration now (t0 + timeout_ms) gid) in
      match step with
      | GateSleep => ret None
      | GateReturn => let! r := create_game_finish gid (Ok tt) in ret (Some r)
      | GateRaise e => let! r := create_game_finish gid (Raise e) in ret (Some r)
      end
  end.

(** A later turn of the gate's loop, after the sleep. *)
Definition create_game_poll (gid : Z) (deadline now : Z) : M (option Z) :=
  let! step := gets (gate_iteration now deadline gid) in
  match step with
  | GateSleep => ret None
  | GateReturn => let! r := create_game_finish gid (Ok tt) in ret (Some r)
  | GateRaise e => let! r := create_game_finish gid (Raise e) in ret (Some r)
  end.

(** ** The state projector ([get_state]) *)

Record PositionView := {
  pos_name : string;
  pos_room : string;
  pos_color : string;
  pos_is_alive : bool;
}.

Definition _serialize_player_positions (g : AmongUs) : list PositionView :=
  map (fun p => {| pos_name := name p; pos_room := location p;
                   pos_color := color p; pos_is_alive := is_alive p |})
      (or_nil (players g)).

(** Whitespace for [\s] and [str.strip()].  A Python [str] is modelled
    by its UTF-8 encoding, one [ascii] per byte.  The characters for which
    [str.isspace()] holds, which are also the [\s] of a [str] pattern,
    are U+0009 to U+000D, U+001C to U+0020, U+0085, U+00A0, U+1680,
    U+2000 to U+200A, U+2028, U+2029, U+202F, U+205F and U+3000: those of
    one byte are told by [is_space], those of two bytes (lead byte C2) by
    [two_byte_space], those of three bytes (lead bytes E1, E2, E3) by
    [three_byte_space]. *)
Definition is_space (c : ascii) : bool :=
  let n := nat_of_ascii c in
  ((9 <=? n) && (n <=? 13) || (28 <=? n) && (n <=? 32))%nat.

Definition two_byte_space (x y : nat) : bool :=
  ((x =? 194) && ((y =? 133) || (y =? 160)))%nat.

Definition three_byte_space (x y z : nat) : bool :=
  ((x =? 225) && (y =? 154) && (z =? 128)
   || (x =? 226) && (y =? 128)
      && ((128 <=? z) && (z <=? 138) || (z =? 168) || (z =? 169) || (z =? 175))
   || (x =? 226) && (y =? 129) && (z =? 159)
   || (x =? 227) && (y =? 128) && (z =? 128))%nat.

(** Number of bytes of the whitespace character at the head of the text,
    0 when the text does not start with one. *)
Definition space_len (l : list ascii) : nat :=
  match l with
  | a :: rest =>
      if is_space a then 1%nat
      else match rest with
           | b :: rest2 =>
               if two_byte_space (nat_of_ascii a) (nat_of_ascii b) then 2%nat
               else match rest2 with
                    | c :: _ =>
                        if three_byte_space (nat_of_ascii a) (nat_of_ascii b)
                                            (nat_of_ascii c)
                        then 3%nat else 0%nat
                    | [] => 0%nat
                    end
           | [] => 0%nat
           end
  | [] => 0%nat
  end.

(** The same for the whitespace character at the end of a text, read on
    the reversed bytes. *)
Definition space_len_rev (l : list ascii) : nat :=
  match l with
  | a :: rest =>
      if is_space a then 1%nat
      else match rest with
           | b :: rest2 =>
               if two_byte_space (nat_of_ascii b) (nat_of_ascii a) then 2%nat
               else match rest2 with
                    | c :: _ =>
                        if three_byte_space (nat_of_ascii c) (nat_of_ascii b)
                                            (nat_of_ascii a)
                        then 3%nat else 0%nat
                    | [] => 0%nat
                    end
           | [] => 0%nat
           end
  | [] => 0%nat
  end.

(** Whitespace characters dropped from the head for as long as [len]
    finds one; [fuel] bounds the number of characters dropped. *)
Fixpoint drop_spaces (len : list ascii → nat) (fuel : nat) (l : list ascii)
  : list ascii :=
  match fuel with
  | O => l
  | S fuel' =>
      match len l with
      | O => l
      | S n => drop_spaces len fuel' (drop (S n) l)
      end
  end.

Definition lstrip (s : string) : string :=
  let l := list_ascii_of_string s in
  string_of_list_ascii (drop_spaces space_len (length l) l).

Definition rstrip (s : string) : string :=
  let l := list_ascii_of_string s in
  string_of_list_ascii
    (List.rev (drop_spaces space_len_rev (length l) (List.rev l))).

Definition strip (s : string) : string := rstrip (lstrip s).

(** [text.startswith(p)]; returns the rest of [text] after [p]. *)
Fixpoint strip_prefix (p text : string) : option string :=
  match p, text with
  | EmptyString, _ => Some text
  | String a p', String b t' =>
      if Ascii.eqb a b then strip_prefix p' t' else None
  | String _ _, EmptyString => None
  end.

(** Group 1 of the regular expression of [_serialize_meeting_messages]
    (keyword, optional whitespace, optional colon, optional whitespace,
    then the captured rest; flags [IGNORECASE | DOTALL]) on a text that
    starts with [SPEAK]: [rest] is what follows the keyword.  Each
    quantifier is greedy and the first attempt matches. *)
Definition speak_group (rest : string) : string :=
  match lstrip rest with
  | String ":" more => lstrip more
  | other => other
  end.

Record MessageView := {
  msg_id : string;
  msg_timestep : option Z;
  msg_round : option Z;
  msg_player : string;
  msg_text : string;
}.

Definition serialize_entry (e : LogEntry) : option MessageView :=
  match entry_phase e with
  | Some ph =>
      if String.eqb ph "meeting" then
        match entry_player e, entry_action e with
        | Some player_obj, Some action_text =>
            match strip_prefix "SPEAK" action_text with
            | None => None
            | Some rest =>
                let stripped := strip (speak_group rest) in
                let message_text :=
                  if String.eqb stripped "" then "..." else stripped in
                Some {| msg_id :=
                          str_opt_int (entry_timestep e) ++ ":" ++
                          str_opt_int (entry_round e) ++ ":" ++
                          name player_obj ++ ":" ++ message_text;
                        msg_timestep := entry_timestep e;
                        msg_round := entry_round e;
                        msg_player := name player_obj;
                        msg_text := message_text |}
            end
        | _, _ => None
        end
      else None
  | None => None
  end.

Definition _serialize_meeting_messages (g : AmongUs) : list MessageView :=
  omap serialize_entry (or_nil (activity_log g)).

Record ActionView := {
  av_index : Z;
  av_name : string;
  av_requires_message : bool;
}.

(** The [enumerate] loop over [raw_actions]. *)
Fixpoint enumerate_actions (idx : Z) (l : list Action) : list ActionView :=
  match l with
  | [] => []
  | a :: rest =>
      {| av_index := idx;
         av_name := default "" (action_name a);
         av_requires_message := default false (requires_message a) |}
      :: enumerate_actions (idx + 1) rest
  end.

Record Snapshot := {
  snap_game_id : Z;
  snap_status : string;
  snap_error : option string;
  snap_winner : option Z;
  snap_winner_reason : option string;
  snap_initialized : bool;
  snap_has_human : bool;
  snap_timestep : option Z;
  snap_max_timesteps : option Z;
  snap_current_phase : option string;
  snap_current_player : option string;
  snap_is_human_turn : bool;
  snap_human_player_name : option string;
  snap_current_step : option Z;
  snap_player_info : option string;
  snap_available_actions : list ActionView;
  snap_player_positions : list PositionView;
  snap_meeting_messages : list MessageView;
}.

Definition is_human (a : option Agent) : bool :=
  match a with Some (HumanAgent _) => true | _ => false end.

(** The three values computed by the [if]/[elif] of [get_state]:
    [(available_actions, player_info, current_step)]. *)
Definition turn_view (current_agent : option Agent)
    (human_agent : option HumanAgentObj)
  : PyResult (list ActionView * option string * option Z) :=
  match is_human current_agent, human_agent with
  | true, Some h =>
      match get_current_state_for_web h with
      | Raise e => Raise e
      | Ok human_state =>
          Ok (enumerate_actions 0 (or_nil (hs_available_actions human_state)),
              hs_player_info human_state,
              hs_current_step human_state)
      end
  | _, _ =>
      match current_agent with
      | Some a =>
          match agent_player a with
          | Some p =>
              match all_info_prompt p with
              | Ok info => Ok ([], Some info, None)
              | Raise e =>
                  if is_Exception e then Ok ([], None, None) else Raise e
              end
          | None => Ok ([], None, None)
          end
      | None => Ok ([], None, None)
      end
  end.

(** [human_agent.player.name if human_agent else None]. *)
Definition human_name (human_agent : option HumanAgentObj)
  : PyResult (option string) :=
  match human_agent with
  | None => Ok None
  | Some h =>
      match human_player h with
      | Some p => Ok (Some (name p))
      | None =>
          Raise (Exc AttributeError
                   (ArgStr "'NoneType' object has no attribute 'name'") None)
      end
  end.

Definition nonempty {A} (o : option (list A)) : bool :=
  match o with Some (_ :: _) => true | _ => false end.

Definition get_state (gid : Z) (s : State) : PyResult Snapshot :=
  match _records s !! gid with
  | None =>
      Raise (Exc KeyError (ArgStr ("Unknown game_id=" ++ str_int gid)) None)
  | Some record =>
      let g := game record in
      let current_agent := _find_current_agent g in
      let human_agent := _find_human_agent g in
      match turn_view current_agent human_agent with
      | Raise e => Raise e
      | Ok (available_actions, player_info, current_step) =>
          let player_positions := _serialize_player_positions g in
          let meeting_messages := _serialize_meeting_messages g in
          match human_name human_agent with
          | Raise e => Raise e
          | Ok hname =>
              Ok {| snap_game_id := gid;
                    snap_status := status record;
                    snap_error := error record;
                    snap_winner := winner record;
                    snap_winner_reason := winner_reason record;
                    snap_initialized := nonempty (agents g);
                    snap_has_human := bool_decide (is_Some human_agent);
                    snap_timestep := timestep g;
                    snap_max_timesteps := game_config g ≫= max_timesteps;
                    snap_current_phase := current_phase g;
                    snap_current_player := current_player g;
                    snap_is_human_turn := is_human current_agent;
                    snap_human_player_name := hname;
                    snap_current_step := current_step;
                    snap_player_info := player_info;
                    snap_available_actions := available_actions;
                    snap_player_positions := player_positions;
                    snap_meeting_messages := meeting_messages |}
          end
      end
  end.

(** ** The event loop

    All coroutines run on one loop and are interleaved at their
    suspension points only.  A transition of the system is one segment
    of one coroutine; its label carries what the environment decides
    (readings of the clock, what the engine does).  The model is more
    liberal than asyncio in one respect: it lets other coroutines run
    between the allocation of an identifier and the insertion of its
    record, where the code has no suspension point. *)

(** Where a [create_game] call stands. *)
Inductive CreatePc :=
| PcAcquire (crewmate_model impostor_model : string) (* at [async with] *)
| PcAllocated (gid : Z)        (* lock held, identifier allocated *)
| PcGate (gid deadline : Z)    (* lock held, asleep in the gate *)
| PcReturned (gid : Z)
| PcRaised (e : PyExc).

(** Inside [async with self._init_lock]. *)
Definition in_critical (pc : CreatePc) : bool :=
  match pc with PcAllocated _ | PcGate _ _ => true | _ => false end.

Record World := {
  st : State;
  (** the [create_game] calls made so far *)
  calls : gmap nat CreatePc;
  (** history: the calls that entered the critical section, in order,
      each with the identifier it was given *)
  entered : list (nat * Z);
}.

Definition init_world : World :=
  {| st := init_state; calls := ∅; entered := [] |}.

(** Modelled from the spec: the human agent of the engine
    ([amongagents.agent.agent], not among the sources) owns the way a
    request is created.  The specification says that a pending request is
    created by the session task right before it suspends and is removed
    once resolved: during a step of the engine the human agent may
    register a fresh pending future under the id of its session, or take
    the entry of its session out of the table. *)
Inductive FutOp := FutKeep | FutCreate | FutDrop.

Definition apply_fut_op (op : FutOp) (gid : Z) (s : State) : State :=
  match op with
  | FutKeep => s
  | FutCreate =>
      with_futures (<[gid := length (future_heap s)]> (human_action_futures s))
                   (future_heap s ++ [FutPending]) s
  | FutDrop =>
      with_futures (delete gid (human_action_futures s)) (future_heap s) s
  end.

Inductive Event :=
| EvCall (c : nat) (key crewmate_model impostor_model : option string)
| EvEnter (c : nat)
| EvSetup (c : nat) (built : PyResult AmongUs) (t0 now : Z)
| EvPoll (c : nat) (now : Z)
| EvTaskStart (gid : Z)
| EvTaskDrop (gid : Z)
| EvEngine (gid : Z) (g : AmongUs) (op : FutOp)
| EvTaskResume (gid : Z) (outcome : PyResult unit)
| EvSubmit (gid idx : Z) (speech_text : option string)
| EvGetState (gid : Z).

(** Modelled from the spec: [AmongUs.run_game] is not among the
    sources.  The specification says that on forced cancellation the
    task stops at its next suspension point, so what comes out of the
    await of a task that was asked to cancel is [CancelledError]. *)
Definition is_cancellation (outcome : PyResult unit) : bool :=
  match outcome with
  | Raise e => match exc_class e with CancelledError => true | _ => false end
  | Ok _ => false
  end.

Definition task_of (s : State) (gid : Z) : option Task :=
  _records s !! gid ≫= task.

Definition set_task_state (gid : Z) (ts : TaskState) (s : State) : State :=
  with_records
    (alter (set_task (Some {| task_state := ts; must_cancel := false |})) gid) s.

(** The program counter a call reaches after a segment of the critical
    section. *)
Definition next_pc (gid deadline : Z) (r : PyResult (option Z)) : CreatePc :=
  match r with
  | Ok None => PcGate gid deadline
  | Ok (Some v) => PcReturned v
  | Raise e => PcRaised e
  end.

Definition exec (ev : Event) (w : World) : option World :=
  match ev with
  | EvCall c key cm im =>
      match calls w !! c with
      | Some _ => None
      | None =>
          let pc := match check_api_key key with
                    | Raise e => PcRaised e
                    | Ok _ => PcAcquire (model_or_default cm)
                                        (model_or_default im)
                    end in
          Some {| st := st w; calls := <[c := pc]> (calls w);
                  entered := entered w |}
      end
  | EvEnter c =>
      match calls w !! c with
      | Some (PcAcquire _ _) =>
          if _init_lock (st w) then None
          else
            match create_game_enter (st w) with
            | (Ok gid, s') =>
                Some {| st := s'; calls := <[c := PcAllocated gid]> (calls w);
                        entered := entered w ++ [(c, gid)] |}
            | (Raise _, _) => None
            end
      | _ => None
      end
  | EvSetup c built t0 now =>
      match calls w !! c with
      | Some (PcAllocated gid) =>
          let '(r, s') := create_game_setup gid built t0 now (st w) in
          Some {| st := s';
                  calls := <[c := next_pc gid (t0 + timeout_ms) r]> (calls w);
                  entered := entered w |}
      | _ => None
      end
  | EvPoll c now =>
      match calls w !! c with
      | Some (PcGate gid deadline) =>
          let '(r, s') := create_game_poll gid deadline now (st w) in
          Some {| st := s';
                  calls := <[c := next_pc gid deadline r]> (calls w);
                  entered := entered w |}
      | _ => None
      end
  | EvTaskStart gid =>
      match task_of (st w) gid with
      | Some {| task_state := TaskPending; must_cancel := false |} =>
          match _run_game_start gid (st w) with
          | (Ok _, s') =>
              Some {| st := set_task_state gid TaskSuspended s';
                      calls := calls w; entered := entered w |}
          | (Raise _, _) => None
          end
      | _ => None
      end
  | EvTaskDrop gid =>
      (* a task cancelled before its first step never runs its body *)
      match task_of (st w) gid with
      | Some {| task_state := TaskPending; must_cancel := true |} =>
          Some {| st := set_task_state gid TaskCancelled (st w);
                  calls := calls w; entered := entered w |}
      | _ => None
      end
  | EvEngine gid g op =>
      match task_of (st w) gid with
      | Some {| task_state := TaskSuspended; must_cancel := _ |} =>
          Some {| st := apply_fut_op op gid
                          (with_records (alter (set_game g) gid) (st w));
                  calls := calls w; entered := entered w |}
      | _ => None
      end
  | EvTaskResume gid outcome =>
      match task_of (st w) gid with
      | Some {| task_state := TaskSuspended; must_cancel := mc |} =>
          (* a requested cancellation is what comes out of the await *)
          if mc && negb (is_cancellation outcome)
          then None
          else
            let '(r, s') := _run_game_resume gid outcome (st w) in
            Some {| st := set_task_state gid (task_outcome r) s';
                    calls := calls w; entered := entered w |}
      | _ => None
      end
  | EvSubmit gid idx text =>
      let '(_, s') := submit_human_action gid idx text (st w) in
      Some {| st := s'; calls := calls w; entered := entered w |}
  | EvGetState gid =>
      match get_state gid (st w) with
      | _ => Some w
      end
  end.

Fixpoint run (evs : list Event) (w : World) : option World :=
  match evs with
  | [] => Some w
  | ev :: rest =>
      match exec ev w with
      | Some w' => run rest w'
      | None => None
      end
  end.

Definition reachable (w : World) : Prop :=
  ∃ evs, run evs init_world = Some w.

(** ** The gate as a loop

    [obs k] is what the [k]-th turn of the loop sees: the reading of the
    clock at the test of the deadline and the state of the process. *)
Fixpoint gate_loop (fuel : nat) (deadline gid : Z) (obs : nat → Z * State)
    (k : nat) : option (PyResult unit) :=
  match fuel with
  | O => None
  | S fuel' =>
      match gate_iteration (fst (obs k)) deadline gid (snd (obs k)) with
      | GateReturn => Some (Ok tt)
      | GateRaise e => Some (Raise e)
      | GateSleep => gate_loop fuel' deadline gid obs (S k)
      end
  end.

(** [t0] is the reading of the clock from which the deadline is taken. *)
Definition _wait_for_human_agent_ready (fuel : nat) (gid timeout t0 : Z)
    (obs : nat → Z * State) : option (PyResult unit) :=
  gate_loop fuel (t0 + timeout) gid obs 0.

(** ** The submission path as the specification words it *)

Inductive SubmitError :=
| NotFound | InvalidState | NoHumanActor | NotWaiting | OutOfRange.

(** A pending, unresolved request exists for [gid]. *)
Definition pending_request (s : State) (gid : Z) : bool :=
  match human_action_futures s !! gid with
  | Some addr =>
      match future_heap s !! addr with
      | Some FutPending => true
      | _ => false
      end
  | None => false
  end.

(** [idx] indexes into the actions the human agent offered last. *)
Definition index_in_range (h : HumanAgentObj) (idx : Z) : bool :=
  bool_decide (0 ≤ idx < Z.of_nat (length (or_nil (current_available_actions h)))).

(** The six steps of the submission path, in the order of the
    specification; [None] is acceptance. *)
Definition spec_submit_check (s : State) (gid idx : Z) : option SubmitError :=
  match _records s !! gid with
  | None => Some NotFound
  | Some record =>
      if is_terminal (status record) then Some InvalidState
      else
        match _find_human_agent (game record) with
        | None => Some NoHumanActor
        | Some h =>
            if negb (pending_request s gid) then Some NotWaiting
            else if negb (index_in_range h idx) then Some OutOfRange
            else None
        end
  end.

(** The exception by which the code reports each failure. *)
Definition submit_error_exc (err : SubmitError) (s : State) (gid idx : Z)
  : PyExc :=
  match err with
  | NotFound => Exc KeyError (ArgStr ("Unknown game_id=" ++ str_int gid)) None
  | InvalidState =>
      Exc RuntimeError
        (ArgStr ("Game " ++ str_int gid ++ " is already "
                 ++ default "" (status <$> _records s !! gid) ++ "."))
        None
  | NoHumanActor =>
      Exc RuntimeError (ArgStr ("Game " ++ str_int gid ++ " has no human agent."))
        None
  | NotWaiting => Exc RuntimeError (ArgStr not_waiting_msg) None
  | OutOfRange =>
      Exc ValueError (ArgStr ("action_index out of range: " ++ str_int idx)) None
  end.

(** The state after the pending future of [gid] received the payload. *)
Definition fulfilled (s : State) (gid idx : Z) (speech_text : option string)
  : State :=
  match human_action_futures s !! gid with
  | Some addr =>
      with_futures (human_action_futures s)
        (<[addr := FutResult {| action_index := idx;
                                message := or_empty speech_text |}]>
           (future_heap s)) s
  | None => s
  end.

(** The actions of every human agent rewritten by [f] (names and
    [requires_message] flags may change, the number of actions may not). *)
Definition retag_human (f : Action → Action) (h : HumanAgentObj) : HumanAgentObj :=
  {| human_player := human_player h;
     current_available_actions := map f <$> current_available_actions h;
     get_current_state_for_web := get_current_state_for_web h |}.

Definition retag_agent (f : Action → Action) (a : Agent) : Agent :=
  match a with
  | HumanAgent h => HumanAgent (retag_human f h)
  | LLMAgent p => LLMAgent p
  end.

Definition retag_game (f : Action → Action) (g : AmongUs) : AmongUs :=
  {| agents := map (retag_agent f) <$> agents g;
     current_player := current_player g;
     current_phase := current_phase g;
     timestep := timestep g;
     game_config := game_config g;
     players := players g;
     activity_log := activity_log g;
     summary_json := summary_json g |}.

Definition retag_state (f : Action → Action) (s : State) : State :=
  with_records (fmap (fun r => set_game (retag_game f (game r)) r)) s.

(** ** Example states *)

Definition demo_player : Player :=
  {| name := "Player 1: red"; location := "Cafeteria"; color := "red";
     is_alive := true; all_info_prompt := Ok "You are in Cafeteria." |}.

Definition demo_actions : list Action :=
  [ {| action_name := Some "MOVE"; requires_message := Some false |};
    {| action_name := Some "SPEAK"; requires_message := Some true |} ].

Definition demo_human : HumanAgentObj :=
  {| human_player := Some demo_player;
     current_available_actions := Some demo_actions;
     get_current_state_for_web :=
       Ok {| hs_player_info := Some "You are in Cafeteria.";
             hs_current_step := Some 0;
             hs_available_actions := Some demo_actions |} |}.

Definition demo_game : AmongUs :=
  {| agents := Some [LLMAgent None; HumanAgent demo_human];
     current_player := Some "Player 1: red";
     current_phase := Some "task";
     timestep := Some 0;
     game_config := Some {| max_timesteps := Some 50 |};
     players := Some [demo_player];
     activity_log := Some [];
     summary_json := ∅ |}.

(** A freshly constructed game: the agents are not assigned yet. *)
Definition blank_game : AmongUs :=
  {| agents := None; current_player := None; current_phase := None;
     timestep := None; game_config := None; players := None;
     activity_log := None; summary_json := ∅ |}.

Definition demo_record (st : string) (ts : TaskState) : GameRecord :=
  {| game_id := 1; game := demo_game; status := st;
     task := Some {| task_state := ts; must_cancel := false |};
     error := None; winner := None; winner_reason := None |}.

(** Session 1 is running and its human agent waits for an action. *)
Definition waiting_state : State :=
  {| _records := {[ 1 := demo_record "running" TaskSuspended ]};
     _next_game_id := 2; _init_lock := false;
     human_action_futures := {[ 1 := 0%nat ]};
     future_heap := [FutPending] |}.

(** The same session after the request was served and before the engine
    took the future out of the table. *)
Definition resolved_state : State :=
  with_futures {[ 1 := 0%nat ]}
    [FutResult {| action_index := 0; message := "" |}] waiting_state.

(** The same session with no request at all. *)
Definition no_request_state : State :=
  with_futures ∅ [FutResult {| action_index := 0; message := "" |}]
    waiting_state.

(** The claim that a resolved request and a missing request are told
    apart by the error of [submit_human_action]. *)
Definition resolved_told_apart : Prop :=
  ∀ s s' gid idx text addr e e',
    human_action_futures s !! gid = Some addr →
    future_done (future_heap s) addr = true →
    human_action_futures s' !! gid = None →
    fst (submit_human_action gid idx text s) = Raise e →
    fst (submit_human_action gid idx text s') = Raise e' →
    e ≠ e'.

(** Session 1 at the human's turn, with a human agent whose
    [get_current_state_for_web()] raises. *)
Definition broken_human : HumanAgentObj :=
  {| human_player := Some demo_player;
     current_available_actions := Some demo_actions;
     get_current_state_for_web :=
       Raise (Exc OtherException (ArgStr "player state unavailable") None) |}.

Definition broken_view_state : State :=
  {| _records :=
       {[ 1 := set_game
                 {| agents := Some [HumanAgent broken_human];
                    current_player := Some "Player 1: red";
                    current_phase := Some "task";
                    timestep := Some 3;
                    game_config := None;
                    players := Some [demo_player];
                    activity_log := Some [];
                    summary_json := ∅ |}
                 (demo_record "running" TaskSuspended) ]};
     _next_game_id := 2; _init_lock := false;
     human_action_futures := ∅; future_heap := [] |}.

(** The claim that [get_state] succeeds for every known id. *)
Definition get_state_total : Prop :=
  ∀ s gid, is_Some (_records s !! gid) → is_Ok (get_state gid s) = true.

(** ** Effects of the segments, in closed form *)

(** What [_run_game] writes into its record once the await is over. *)
Definition resume_update (gid : Z) (outcome : PyResult unit) (r : GameRecord)
  : GameRecord :=
  match outcome with
  | Ok _ =>
      let r1 := set_status "completed" r in
      set_winner (summary_winner (game_summary gid (game r1)))
                 (summary_winner_reason (game_summary gid (game r1))) r1
  | Raise e =>
      if is_Exception e
      then set_error (Some (str_exc e)) (set_status "error" r)
      else r
  end.

(** What comes out of the coroutine of the task. *)
Definition resume_result (outcome : PyResult unit) : PyResult unit :=
  match outcome with
  | Ok _ => Ok tt
  | Raise e => if is_Exception e then Ok tt else Raise e
  end.

Definition cleanup_state (gid : Z) (s : State) : State :=
  snd (cleanup_future gid s).

(** What [create_game] writes into the record when the gate is over. *)
Definition finish_update (gate : PyResult unit) (r : GameRecord) : GameRecord :=
  match gate with
  | Ok _ => if is_terminal (status r) then r else set_status "running" r
  | Raise e =>
      if is_Exception e
      then set_task (task_cancel <$> task r)
             (set_error (Some (str_exc e)) (set_status "error" r))
      else r
  end.

Definition finish_result (gid : Z) (gate : PyResult unit) : PyResult Z :=
  match gate with Ok _ => Ok gid | Raise e => Raise e end.

Definition gate_result (step : GateStep) : option (PyResult unit) :=
  match step with
  | GateSleep => None
  | GateReturn => Some (Ok tt)
  | GateRaise e => Some (Raise e)
  end.

(** ** What a turn of the gate observes *)

Definition turn_task_done (s : State) (gid : Z) : bool :=
  match task_of s gid with Some t => task_done t | None => false end.

Definition turn_task_exc (s : State) (gid : Z) : option PyExc :=
  match task_of s gid with
  | Some {| task_state := TaskFinished exc |} => exc
  | _ => None
  end.

Definition turn_task_cancelled (s : State) (gid : Z) : bool :=
  match task_of s gid with
  | Some {| task_state := TaskCancelled |} => true
  | _ => false
  end.

Definition turn_human (s : State) (gid : Z) : bool :=
  match _records s !! gid with
  | Some r => bool_decide (is_Some (_find_human_agent (game r)))
  | None => false
  end.

(** The failure "the task finished before a human agent was seen",
    carrying the exception of the task if it has one. *)
Definition premature_completion (exc : option PyExc) : PyExc :=
  match exc with
  | Some e =>
      Exc RuntimeError
        (ArgStr ("Game task failed during initialization: " ++ str_exc e))
        (Some e)
  | None =>
      Exc RuntimeError
        (ArgStr "Game finished before human initialization completed.") None
  end.

Definition gate_timeout : PyExc :=
  Exc TimeoutError (ArgStr "Timed out waiting for HumanAgent initialization.")
    None.

(** The rest of [create_game] once a turn of the gate is over. *)
Definition after_gate (gid : Z) (step : GateStep) (s : State)
  : PyResult (option Z) * State :=
  match gate_result step with
  | None => (Ok None, s)
  | Some g =>
      (match finish_result gid g with
       | Ok v => Ok (Some v)
       | Raise e => Raise e
       end,
       with_lock false (with_records (alter (finish_update g) gid) s))
  end.

(** The state with the new record, and the outcome of the segment that
    inserts it and runs the first turn of the gate. *)
Definition setup_state (gid : Z) (g : AmongUs) (s : State) : State :=
  with_records (<[gid := new_record gid g]>) s.

Definition setup_out (gid : Z) (g : AmongUs) (t0 now : Z) (s : State)
  : PyResult (option Z) * State :=
  after_gate gid
    (gate_iteration now (t0 + timeout_ms) gid (setup_state gid g s))
    (setup_state gid g s).

(** The outcome of a later turn of the gate. *)
Definition poll_out (gid deadline now : Z) (s : State)
  : PyResult (option Z) * State :=
  after_gate gid (gate_iteration now deadline gid s) s.

(** ** The transitions in closed form *)

Inductive step (w : World) : Event → World → Prop :=
| step_call c key cm im :
    calls w !! c = None →
    step w (EvCall c key cm im)
      {| st := st w;
         calls := <[c := match check_api_key key with
                         | Raise e => PcRaised e
                         | Ok _ => PcAcquire (model_or_default cm)
                                             (model_or_default im)
                         end]> (calls w);
         entered := entered w |}
| step_enter c cm im :
    calls w !! c = Some (PcAcquire cm im) →
    _init_lock (st w) = false →
    step w (EvEnter c)
      {| st := with_next_game_id (_next_game_id (st w) + 1)
                 (with_lock true (st w));
         calls := <[c := PcAllocated (_next_game_id (st w))]> (calls w);
         entered := entered w ++ [(c, _next_game_id (st w))] |}
| step_setup_raise c gid e t0 now :
    calls w !! c = Some (PcAllocated gid) →
    step w (EvSetup c (Raise e) t0 now)
      {| st := with_lock false (st w);
         calls := <[c := PcRaised e]> (calls w);
         entered := entered w |}
| step_setup c gid g t0 now :
    calls w !! c = Some (PcAllocated gid) →
    step w (EvSetup c (Ok g) t0 now)
      {| st := snd (setup_out gid g t0 now (st w));
         calls := <[c := next_pc gid (t0 + timeout_ms)
                           (fst (setup_out gid g t0 now (st w)))]> (calls w);
         entered := entered w |}
| step_poll c gid deadline now :
    calls w !! c = Some (PcGate gid deadline) →
    step w (EvPoll c now)
      {| st := snd (poll_out gid deadline now (st w));
         calls := <[c := next_pc gid deadline
                           (fst (poll_out gid deadline now (st w)))]> (calls w);
         entered := entered w |}
| step_task_start gid r :
    _records (st w) !! gid = Some r →
    task r = Some {| task_state := TaskPending; must_cancel := false |} →
    step w (EvTaskStart gid)
      {| st := set_task_state gid TaskSuspended
                 (with_records (alter (set_status "running") gid) (st w));
         calls := calls w; entered := entered w |}
| step_task_drop gid r :
    _records (st w) !! gid = Some r →
    task r = Some {| task_state := TaskPending; must_cancel := true |} →
    step w (EvTaskDrop gid)
      {| st := set_task_state gid TaskCancelled (st w);
         calls := calls w; entered := entered w |}
| step_engine gid r mc g op :
    _records (st w) !! gid = Some r →
    task r = Some {| task_state := TaskSuspended; must_cancel := mc |} →
    step w (EvEngine gid g op)
      {| st := apply_fut_op op gid
                 (with_records (alter (set_game g) gid) (st w));
         calls := calls w; entered := entered w |}
| step_task_resume gid r mc outcome :
    _records (st w) !! gid = Some r →
    task r = Some {| task_state := TaskSuspended; must_cancel := mc |} →
    (mc = true → is_cancellation outcome = true) →
    step w (EvTaskResume gid outcome)
      {| st := set_task_state gid (task_outcome (resume_result outcome))
                 (cleanup_state gid
                    (with_records (alter (resume_update gid outcome) gid)
                       (st w)));
         calls := calls w; entered := entered w |}
| step_submit gid idx text :
    step w (EvSubmit gid idx text)
      {| st := snd (submit_human_action gid idx text (st w));
         calls := calls w; entered := entered w |}
| step_get_state gid :
    step w (EvGetState gid) w.

(** ** Invariants of the system *)

(** The identifier a call holds. *)
Definition pc_gid (pc : CreatePc) : option Z :=
  match pc with
  | PcAllocated g | PcGate g _ | PcReturned g => Some g
  | _ => None
  end.

Definition is_acquire (pc : CreatePc) : bool :=
  match pc with PcAcquire _ _ => true | _ => false end.

(** Calls, lock and identifiers. *)
Record call_inv (w : World) : Prop := {
  ci_next : _next_game_id (st w) = 1 + Z.of_nat (length (entered w));
  ci_ids : ∀ i c gid, entered w !! i = Some (c, gid) → gid = 1 + Z.of_nat i;
  ci_past : ∀ c gid, (c, gid) ∈ entered w →
            ∃ pc, calls w !! c = Some pc ∧ is_acquire pc = false;
  ci_once : ∀ i j c g1 g2, entered w !! i = Some (c, g1) →
                           entered w !! j = Some (c, g2) → i = j;
  ci_pc : ∀ c pc gid, calls w !! c = Some pc → pc_gid pc = Some gid →
          (c, gid) ∈ entered w;
  ci_mutex : ∀ c1 c2 pc1 pc2,
      calls w !! c1 = Some pc1 → calls w !! c2 = Some pc2 →
      in_critical pc1 = true → in_critical pc2 = true → c1 = c2;
  ci_lock : ∀ c pc, calls w !! c = Some pc → in_critical pc = true →
            _init_lock (st w) = true;
  ci_unlock : _init_lock (st w) = true →
              ∃ c pc, calls w !! c = Some pc ∧ in_critical pc = true;
}.

(** Every record has its task; a record with a final status belongs to
    a task that is over or that has been asked to stop; and the result
    fields are unset as long as the task is not over. *)
Definition rec_ok (r : GameRecord) : Prop :=
  ∃ t, task r = Some t
       ∧ (is_terminal (status r) = true →
          task_done t = true ∨ must_cancel t = true)
       ∧ (task_done t = false →
          winner r = None ∧ winner_reason r = None).

(** Records, tasks and futures. *)
Record rec_inv (w : World) : Prop := {
  ri_dom : ∀ g r, _records (st w) !! g = Some r →
           1 ≤ g < _next_game_id (st w);
  ri_fresh : ∀ c gid, calls w !! c = Some (PcAllocated gid) →
             _records (st w) !! gid = None;
  ri_gate : ∀ c gid d, calls w !! c = Some (PcGate gid d) →
            is_Some (_records (st w) !! gid);
  ri_ok : ∀ g r, _records (st w) !! g = Some r → rec_ok r;
  ri_table : ∀ g addr, human_action_futures (st w) !! g = Some addr →
      ∃ r mc, _records (st w) !! g = Some r
              ∧ task r = Some {| task_state := TaskSuspended;
                                 must_cancel := mc |};
}.

(** ** Example runs *)

(** One call creates session 1; the game runs to its end before any
    human agent shows up. *)
Definition premature_run : list Event :=
  [ EvCall 0 (Some "sk-or-key") None None;
    EvEnter 0;
    EvSetup 0 (Ok blank_game) 0 0;
    EvTaskStart 1;
    EvTaskResume 1 (Ok tt) ].

Definition completed_world : World :=
  default init_world (run premature_run init_world).

Definition completed_record : GameRecord :=
  {| game_id := 1; game := blank_game; status := "completed";
     task := Some {| task_state := TaskFinished None; must_cancel := false |};
     error := None; winner := None; winner_reason := None |}.

(** The next turn of the gate finds the task finished. *)
Definition failed_world : World :=
  default init_world (exec (EvPoll 0 50) completed_world).

Definition failed_record : GameRecord :=
  {| game_id := 1; game := blank_game; status := "error";
     task := Some {| task_state := TaskFinished None; must_cancel := false |};
     error := Some "Game finished before human initialization completed.";
     winner := None; winner_reason := None |}.

(** Two calls; the second one made enters the critical section first. *)
Definition two_calls_run : list Event :=
  [ EvCall 0 (Some "sk-or-key") None None;
    EvCall 1 (Some "sk-or-key") (Some "model-a") None;
    EvEnter 1;
    EvSetup 1 (Ok blank_game) 0 0;
    EvTaskStart 1;
    EvEngine 1 demo_game FutCreate;
    EvPoll 1 50;
    EvEnter 0;
    EvSetup 0 (Ok blank_game) 60 60 ].

Definition two_calls_world : World :=
  default init_world (run two_calls_run init_world).



(** The claim that a final status is never assigned over. *)
Definition terminal_status_frozen : Prop :=
  ∀ w ev w' gid r r',
    reachable w → exec ev w = Some w' →
    _records (st w) !! gid = Some r →
    is_terminal (status r) = true →
    _records (st w') !! gid = Some r' →
    status r' = status r.

(** The reads of [get_state] that may raise go through. *)
Definition view_readable (g : AmongUs) : Prop :=
  is_Ok (turn_view (_find_current_agent g) (_find_human_agent g)) = true
  ∧ is_Ok (human_name (_find_human_agent g)) = true.


(** Session 1 while an LLM agent acts whose [all_info_prompt()] raises. *)
Definition failing_prompt_player : Player :=
  {| name := "Player 2: blue"; location := "Admin"; color := "blue";
     is_alive := true;
     all_info_prompt :=
       Raise (Exc OtherException (ArgStr "no observation yet") None) |}.

Definition failing_prompt_state : State :=
  {| _records :=
       {[ 1 := set_game
                 {| agents := Some [LLMAgent (Some failing_prompt_player);
                                    HumanAgent demo_human];
                    current_player := Some "Player 2: blue";
                    current_phase := Some "task";
                    timestep := Some 1;
                    game_config := None;
                    players := None;
                    activity_log := None;
                    summary_json := ∅ |}
                 (demo_record "running" TaskSuspended) ]};
     _next_game_id := 2; _init_lock := false;
     human_action_futures := ∅; future_heap := [] |}.

(** What the gate sees from turn to turn in an example: the clock moves
    by 50 ms per turn and the human agent is there from the third turn
    on. *)
Definition demo_obs (k : nat) : Z * State :=
  (50 * Z.of_nat k,
   if (k <? 2)%nat
   then with_records (alter (set_game blank_game) 1) waiting_state
   else waiting_state).

(** Transitions of tasks, of the engine and of the polling surface, as
    opposed to those of [create_game]. *)
Definition quiet (ev : Event) : bool :=
  match ev with
  | EvCall _ _ _ _ | EvEnter _ | EvSetup _ _ _ _ | EvPoll _ _ => false
  | _ => true
  end.

(** Session 1 with its task inside [run_game], the creating call
    asleep in the gate; then the engine fails. *)
Definition running_run : list Event :=
  [ EvCall 0 (Some "sk-or-key") None None;
    EvEnter 0;
    EvSetup 0 (Ok blank_game) 0 0;
    EvTaskStart 1 ].

Definition running_world : World :=
  default init_world (run running_run init_world).

Definition engine_failure : PyExc :=
  Exc OtherException (ArgStr "model call failed") None.


(** Session 1 waiting with four actions on offer. *)
Definition four_actions_state : State :=
  with_records
    (alter (set_game
              {| agents :=
                   Some [HumanAgent
                           {| human_player := Some demo_player;
                              current_available_actions :=
                                Some (demo_actions ++ demo_actions)%list;
                              get_current_state_for_web :=
                                get_current_state_for_web demo_human |}];
                 current_player := None; current_phase := None;
                 timestep := None; game_config := None;
                 players := None; activity_log := None;
                 summary_json := ∅ |}) 1)
    waiting_state.

(** ** The transport layer ([server/app.py]) *)

(** The JSON body of a response. *)
Inductive HttpBody :=
| BodyDetail (detail : string)          (* [{"detail": ...}] of an HTTPException *)
| BodyValidation                        (* the error list of a rejected request *)
| BodyAccepted                          (* [{"status": "accepted"}] *)
| BodyCreated (game_id : Z) (status : string)
| BodySnapshot (snap : Snapshot).

Record HttpResponse := { status_code : Z; body : HttpBody }.

(** [raise HTTPException(status_code=code, detail=str(exc))]: the
    framework turns it into the response. *)
Definition http_exception (code : Z) (exc : PyExc) : HttpResponse :=
  {| status_code := code; body := BodyDetail (str_exc exc) |}.

(** [class HumanActionRequest(BaseModel)]. *)
Record HumanActionRequest := {
  req_game_id : Z;
  req_action_index : Z;
  req_speech_text : option string;
}.

(** [action_index: int = Field(ge=0)]. *)
Definition valid_human_action_request (request : HumanActionRequest) : bool :=
  (0 <=? req_action_index request)%Z.

(** The [except] clauses of the endpoints, in their order. *)
Definition human_action_except (e : PyExc) : PyResult HttpResponse :=
  match exc_class e with
  | KeyError => Ok (http_exception 404 e)
  | ValueError => Ok (http_exception 422 e)
  | _ => if is_Exception e then Ok (http_exception 400 e) else Raise e
  end.

Definition game_state_except (e : PyExc) : PyResult HttpResponse :=
  match exc_class e with
  | KeyError => Ok (http_exception 404 e)
  | _ => if is_Exception e then Ok (http_exception 400 e) else Raise e
  end.

(** [POST /human_action]: a request that fails validation is answered
    with 422 before the handler runs. *)
Definition human_action (request : HumanActionRequest) : M HttpResponse :=
  fun s =>
    if valid_human_action_request request then
      match submit_human_action (req_game_id request)
              (req_action_index request) (req_speech_text request) s with
      | (Ok _, s') => (Ok {| status_code := 200; body := BodyAccepted |}, s')
      | (Raise e, s') => (human_action_except e, s')
      end
    else (Ok {| status_code := 422; body := BodyValidation |}, s).

(** The handler of [GET /game_state], which the framework calls once it
    has read the query parameter [game_id] as an integer. *)
Definition game_state (gid : Z) (s : State) : PyResult HttpResponse :=
  match get_state gid s with
  | Ok snap => Ok {| status_code := 200; body := BodySnapshot snap |}
  | Raise e => game_state_except e
  end.

(** The query parameter [game_id: int] as it arrives with a request. *)
Inductive QueryParam :=
| ParamMissing
| ParamInvalid (raw : string)           (* present, not an integer *)
| ParamInt (value : Z).

(** [GET /game_state] as it is served: a request whose [game_id] is
    missing or is not an integer is answered with 422 before the handler
    runs. *)
Definition game_state_endpoint (game_id : QueryParam) (s : State)
  : PyResult HttpResponse :=
  match game_id with
  | ParamInt gid => game_state gid s
  | ParamMissing | ParamInvalid _ =>
      Ok {| status_code := 422; body := BodyValidation |}
  end.

(** [POST /create_game]: what the endpoint answers once the call to
    [manager.create_game] is over; [None] while it is not. *)
Definition create_game_response (pc : CreatePc) : option (PyResult HttpResponse) :=
  match pc with
  | PcReturned gid =>
      Some (Ok {| status_code := 200; body := BodyCreated gid "running" |})
  | PcRaised e =>
      Some (if is_Exception e then Ok (http_exception 400 e) else Raise e)
  | _ => None
  end.

(** ** The command-line runner ([run_human_vs_llms.py]) *)

(** A step of the script ends normally or in [sys.exit(code)] after a
    line on stderr. *)
Inductive ScriptResult (A : Type) :=
| Done (a : A)
| Exit (code : Z) (stderr : string).
Arguments Done {A} a.
Arguments Exit {A} code stderr.

(** [die(message)]. *)
Definition die {A} (message : string) : ScriptResult A :=
  Exit 1 ("ERROR: " ++ message).

(** [validate_env()]; [key] is [os.getenv("OPENROUTER_API_KEY")]. *)
Definition validate_env (key : option string) : ScriptResult string :=
  let api_key := strip (default "" key) in
  if String.eqb api_key "" then
    die "OPENROUTER_API_KEY is not set. Add it to .env or your environment."
  else Done api_key.

(** What [requests.get] comes back with: a response, or a
    [requests.RequestException] with its text. *)
Inductive HttpOutcome :=
| Responded (code : Z)
| RequestFailed (text : string).

(** [validate_openrouter(api_key)], given the outcome of the request. *)
Definition validate_openrouter (outcome : HttpOutcome) : ScriptResult unit :=
  match outcome with
  | RequestFailed text => die ("OpenRouter unreachable: " ++ text)
  | Responded code =>
      if (code =? 401)%Z || (code =? 403)%Z then
        die ("OpenRouter rejected the API key (status " ++ str_int code ++ ").")
      else if (code >=? 500)%Z then
        die ("OpenRouter server error (status " ++ str_int code ++ ").")
      else if (code >=? 400)%Z then
        die ("OpenRouter request failed (status " ++ str_int code ++ ").")
      else Done tt
  end.

(** [os.getenv(var, "openrouter/free").strip()] followed by the test
    for the empty string, as [run_game] does for both model variables. *)
Definition script_model (var : string) (value : option string)
  : ScriptResult string :=
  let model := strip (default "openrouter/free" value) in
  if String.eqb model "" then
    die (var ++ " is empty. Set it or remove it to use the default.")
  else Done model.

(** The checks of [run_game] before the game is built, in their order. *)
Definition script_preflight (key : option string) (outcome : HttpOutcome)
    (crewmate impostor : option string)
  : ScriptResult (string * string * string) :=
  match validate_env key with
  | Exit c m => Exit c m
  | Done api_key =>
      match validate_openrouter outcome with
      | Exit c m => Exit c m
      | Done _ =>
          match script_model "OPENROUTER_CREWMATE_MODEL" crewmate with
          | Exit c m => Exit c m
          | Done crewmate_model =>
              match script_model "OPENROUTER_IMPOSTOR_MODEL" impostor with
              | Exit c m => Exit c m
              | Done impostor_model =>
                  Done (api_key, crewmate_model, impostor_model)
              end
          end
      end
  end.

(** ** Auxiliary notions for the properties *)

(** The text starts, or ends, with a whitespace character. *)
Definition starts_with_space (s : string) : bool :=
  negb (space_len (list_ascii_of_string s) =? 0)%nat.

Definition ends_with_space (s : string) : bool :=
  negb (space_len_rev (List.rev (list_ascii_of_string s)) =? 0)%nat.

(** The entry is a speech made during a meeting. *)
Definition is_meeting_speech (e : LogEntry) : Prop :=
  entry_phase e = Some "meeting"
  ∧ is_Some (entry_player e)
  ∧ ∃ action rest, entry_action e = Some action
                   ∧ strip_prefix "SPEAK" action = Some rest.

(** Further invariants: a call asleep in the gate has not asked its
    task to cancel, and a record is registered under its own id. *)
Record gate_inv (w : World) : Prop := {
  gi_cancel : ∀ c gid d r t,
      calls w !! c = Some (PcGate gid d) →
      _records (st w) !! gid = Some r → task r = Some t →
      must_cancel t = false;
  gi_key : ∀ g r, _records (st w) !! g = Some r → game_id r = g;
}.

(** The id of a call whose game could not be built. *)
Definition id_abandoned (w : World) (c : nat) (gid : Z) : Prop :=
  (c, gid) ∈ entered w
  ∧ (∃ e, calls w !! c = Some (PcRaised e))
  ∧ _records (st w) !! gid = None.

(** A game with a given activity log, and three entries for examples. *)
Definition log_game (l : list LogEntry) : AmongUs :=
  {| agents := None; current_player := None; current_phase := None;
     timestep := None; game_config := None; players := None;
     activity_log := Some l; summary_json := ∅ |}.

Definition first_speech : LogEntry :=
  {| entry_phase := Some "meeting"; entry_player := Some demo_player;
     entry_action := Some "SPEAK: one";
     entry_round := Some 0; entry_timestep := Some 4 |}.

Definition move_entry : LogEntry :=
  {| entry_phase := Some "task"; entry_player := Some demo_player;
     entry_action := Some "MOVE";
     entry_round := None; entry_timestep := Some 5 |}.

Definition second_speech : LogEntry :=
  {| entry_phase := Some "meeting"; entry_player := Some demo_player;
     entry_action := Some "SPEAK two";
     entry_round := Some 1; entry_timestep := Some 6 |}.

(** The record of session 1 over the freshly built game. *)
Definition demo_blank_record (st : string) (ts : TaskState) : GameRecord :=
  {| game_id := 1; game := blank_game; status := st;
     task := Some {| task_state := ts; must_cancel := false |};
     error := None; winner := None; winner_reason := None |}.

(** The four values a status takes. *)
Definition known_status (st : string) : Prop :=
  st = "initializing" ∨ st = "running" ∨ st = "completed" ∨ st = "error".

(** Statuses of the records: one of the four values, and
    ["initializing"] only before the task has taken its first step. *)
Record status_inv (w : World) : Prop := {
  si_values : ∀ g r, _records (st w) !! g = Some r → known_status (status r);
  si_init : ∀ g r t, _records (st w) !! g = Some r → task r = Some t →
            status r = "initializing" →
            task_state t = TaskPending ∧ must_cancel t = false;
}.

(** ** Further example runs *)

(** Session 1 completes before a human agent is seen, and the next turn
    of the gate comes only when the deadline has passed. *)
Definition overdue_world : World :=
  default init_world (exec (EvPoll 0 10000) completed_world).

Definition overdue_record : GameRecord :=
  {| game_id := 1; game := blank_game; status := "error";
     task := Some {| task_state := TaskFinished None; must_cancel := false |};
     error := Some "Timed out waiting for HumanAgent initialization.";
     winner := None; winner_reason := None |}.

(** The task of session 1 is cancelled inside [run_game] while the
    creating call is asleep in the gate. *)
Definition cancelled_world : World :=
  default init_world
    (exec (EvTaskResume 1 (Raise cancelled_error)) running_world).

(** What the gate sees from then on: the clock moves by 50 ms per turn
    and the task stays cancelled. *)
Definition cancelled_obs (k : nat) : Z * State :=
  (50 * Z.of_nat k, st cancelled_world).

(** The [KeyError] of [self._records[game_id]] in the gate. *)
Definition unregistered (gid : Z) : PyExc := Exc KeyError (ArgInt gid) None.

(** The claim that the gate of a registered session, whenever it ends,
    ends in one of three ways: success, the failure of a premature
    completion, or the timeout. *)
Definition gate_three_ways : Prop :=
  ∀ (gid timeout t0 : Z) (obs : nat → Z * State),
    (t0 ≤ fst (obs 0%nat))%Z →
    (∀ k, (fst (obs k) + poll_interval_ms ≤ fst (obs (S k)))%Z) →
    (∀ k, is_Some (_records (snd (obs k)) !! gid)) →
    ∀ fuel r,
      _wait_for_human_agent_ready fuel gid timeout t0 obs = Some r →
      r = Ok tt
      ∨ (∃ exc, r = Raise (premature_completion exc))
      ∨ r = Raise gate_timeout.

(** A no-break space (U+00A0) and an ideographic space (U+3000), which
    [str.strip()] removes as it does the blank. *)
Definition nbsp : string :=
  String (ascii_of_nat 194) (String (ascii_of_nat 160) "").

Definition ideographic_space : string :=
  String (ascii_of_nat 227)
    (String (ascii_of_nat 128) (String (ascii_of_nat 128) "")).

(** * Properties *)

Open Scope Z_scope.

(** ** Submission *)

Lemma future_done_pending s gid addr :
  human_action_futures s !! gid = Some addr →
  future_done (future_heap s) addr = negb (pending_request s gid).
Proof.
  intros H. unfold future_done, pending_request. rewrite H.
  by destruct (future_heap s !! addr) as [[]|].
Qed.

Lemma index_in_range_code h idx :
  (idx <? 0)%Z || (idx >=? Z.of_nat (length (or_nil (current_available_actions h))))%Z
  = negb (index_in_range h idx).
Proof.
  unfold index_in_range. case_bool_decide as H.
  - destruct (Z.ltb_spec idx 0); [lia|].
    destruct (Z.geb_spec idx (Z.of_nat (length (or_nil (current_available_actions h)))));
      [lia|done].
  - destruct (Z.ltb_spec idx 0); [done|].
    destruct (Z.geb_spec idx (Z.of_nat (length (or_nil (current_available_actions h)))));
      [done|lia].
Qed.

(** The code follows the six steps of the specification. *)
Lemma submit_refines_spec gid idx text s :
  submit_human_action gid idx text s =
  match spec_submit_check s gid idx with
  | Some err => (Raise (submit_error_exc err s gid idx), s)
  | None => (Ok tt, fulfilled s gid idx text)
  end.
Proof.
  unfold submit_human_action, spec_submit_check, bind, gets, raise_exc, raise.
  destruct (_records s !! gid) as [record|] eqn:Hrec; simpl; [|done].
  destruct (is_terminal (status record)) eqn:Hterm; simpl.
  { by rewrite Hrec. }
  destruct (_find_human_agent (game record)) as [h|]; simpl; [|done].
  destruct (human_action_futures s !! gid) as [addr|] eqn:Hfut; simpl.
  - rewrite (future_done_pending s gid addr Hfut).
    destruct (pending_request s gid) eqn:Hpend; simpl; [|done].
    rewrite index_in_range_code.
    destruct (index_in_range h idx); simpl; [|done].
    unfold future_set_result, fulfilled.
    rewrite (future_done_pending s gid addr Hfut), Hpend, Hfut. done.
  - unfold pending_request. rewrite Hfut. done.
Qed.

Lemma str_int_head z rest :
  ∃ c tl, str_int z ++ rest = String c tl ∧ c ≠ "i"%char.
Proof.
  unfold str_int. destruct (Z.to_int z) as [u|u]; destruct u; simpl;
    eexists _, _; (split; [reflexivity|discriminate]).
Qed.

Lemma string_app_inv_head (p a b : string) : p ++ a = p ++ b → a = b.
Proof. induction p; simpl; intros H; [done|]. injection H. auto. Qed.

(** No two kinds of failure are reported by the same exception. *)
Lemma submit_error_exc_inj e1 e2 s gid idx :
  submit_error_exc e1 s gid idx = submit_error_exc e2 s gid idx → e1 = e2.
Proof.
  assert (Hni : ∀ rest1, str_int gid ++ rest1 ≠
                         "is not currently waiting for a human action.").
  { intros rest1 H. destruct (str_int_head gid rest1) as (c & tl & Heq & Hc).
    rewrite Heq in H. injection H. intros _ Hci. done. }
  destruct e1, e2; simpl; intros H; try done; try discriminate H;
    injection H; clear H; intros H; simpl in H; exfalso.
  - apply (string_app_inv_head (str_int gid)) in H. discriminate H.
  - by apply Hni in H.
  - apply (string_app_inv_head (str_int gid)) in H. discriminate H.
  - by apply Hni in H.
  - symmetry in H. by apply Hni in H.
  - symmetry in H. by apply Hni in H.
Qed.

Lemma spec_submit_accepts s gid idx record h :
  _records s !! gid = Some record →
  is_terminal (status record) = false →
  _find_human_agent (game record) = Some h →
  spec_submit_check s gid idx = None ↔
  pending_request s gid = true ∧ index_in_range h idx = true.
Proof.
  intros Hrec Hterm Hh. unfold spec_submit_check. rewrite Hrec, Hterm, Hh.
  destruct (pending_request s gid), (index_in_range h idx); simpl;
    split; (done || by intros []).
Qed.

(** C1.  [submit_human_action] runs the six steps of the submission path
    in the stated order and reports each failure by its own exception:
    [KeyError] for an unknown id, then [RuntimeError "... is already
    ..."] for a finished session, then [RuntimeError "... has no human
    agent."], then [RuntimeError "Game is not currently waiting ..."] when
    no pending unresolved future exists, then [ValueError] for an index
    outside the offered actions; otherwise the pending future receives
    the payload.  For a known, unfinished id with a human agent the call
    succeeds exactly when a request is pending and the index is in
    range.  Two different kinds of failure never yield the same
    exception, a failure leaves the state as it was, and the call is one
    transition that is enabled in every state of the system (it never
    waits for the lock or for a task). *)
Theorem submit_human_action_resolution (gid idx : Z) (text : option string)
    (s : State) :
  submit_human_action gid idx text s =
    match spec_submit_check s gid idx with
    | Some err => (Raise (submit_error_exc err s gid idx), s)
    | None => (Ok tt, fulfilled s gid idx text)
    end
  ∧ (∀ record h,
       _records s !! gid = Some record →
       is_terminal (status record) = false →
       _find_human_agent (game record) = Some h →
       fst (submit_human_action gid idx text s) = Ok tt ↔
       pending_request s gid = true ∧ index_in_range h idx = true)
  ∧ (∀ e, fst (submit_human_action gid idx text s) = Raise e →
          snd (submit_human_action gid idx text s) = s
          ∧ ∃ err, spec_submit_check s gid idx = Some err
                   ∧ e = submit_error_exc err s gid idx)
  ∧ (∀ err1 err2,
       submit_error_exc err1 s gid idx = submit_error_exc err2 s gid idx →
       err1 = err2)
  ∧ (∀ w, is_Some (exec (EvSubmit gid idx text) w)).
Proof.
  split; [apply submit_refines_spec|].
  split.
  { intros record h Hrec Hterm Hh.
    rewrite <- (spec_submit_accepts s gid idx record h Hrec Hterm Hh).
    rewrite submit_refines_spec.
    destruct (spec_submit_check s gid idx); simpl; split; done. }
  split.
  { intros e. rewrite submit_refines_spec.
    destruct (spec_submit_check s gid idx) as [err|]; simpl; [|done].
    intros [= <-]. eauto. }
  split.
  { intros err1 err2. apply submit_error_exc_inj. }
  intros w. simpl. destruct (submit_human_action gid idx text (st w)). eauto.
Qed.

Lemma pending_request_heap s gid addr :
  human_action_futures s !! gid = Some addr →
  pending_request s gid = true ↔ future_heap s !! addr = Some FutPending.
Proof.
  intros H. unfold pending_request. rewrite H.
  destruct (future_heap s !! addr) as [[]|]; split; done.
Qed.

(** What an accepted submission did. *)
Lemma submit_accepted gid idx text s s1 :
  submit_human_action gid idx text s = (Ok tt, s1) →
  ∃ record h addr,
    _records s !! gid = Some record
    ∧ is_terminal (status record) = false
    ∧ _find_human_agent (game record) = Some h
    ∧ human_action_futures s !! gid = Some addr
    ∧ future_heap s !! addr = Some FutPending
    ∧ index_in_range h idx = true
    ∧ s1 = with_futures (human_action_futures s)
             (<[addr := FutResult {| action_index := idx;
                                     message := or_empty text |}]>
                (future_heap s)) s.
Proof.
  rewrite submit_refines_spec. unfold spec_submit_check, fulfilled.
  destruct (_records s !! gid) as [record|] eqn:Hrec; [|done].
  destruct (is_terminal (status record)) eqn:Hterm; [done|].
  destruct (_find_human_agent (game record)) as [h|] eqn:Hh; [|done].
  destruct (pending_request s gid) eqn:Hp; simpl; [|done].
  destruct (index_in_range h idx) eqn:Hi; simpl; [|done].
  unfold pending_request in Hp.
  destruct (human_action_futures s !! gid) as [addr|] eqn:Hf; [|done].
  destruct (future_heap s !! addr) as [[]|] eqn:Hheap; try done.
  intros [= <-]. exists record, h, addr. done.
Qed.

(** The claim of C5 fails: a second submission against a request that
    was already served is reported by the very exception that reports a
    missing request. *)
Lemma resolved_not_told_apart : ¬ resolved_told_apart.
Proof.
  intros H.
  apply (H resolved_state no_request_state 1 0 None 0%nat
           (Exc RuntimeError (ArgStr not_waiting_msg) None)
           (Exc RuntimeError (ArgStr not_waiting_msg) None));
    reflexivity.
Qed.

(** C5, amended.  A submission against a request that is registered but
    already resolved (served or cancelled), for a known unfinished
    session with a human agent, is rejected (the state does not change)
    with [RuntimeError "Game is not currently waiting for a human
    action."], the same exception that reports a missing request; in
    particular this is what a second submission gets right after an
    accepted one. *)
Theorem resolved_request_rejected (s : State) (gid idx : Z)
    (text : option string) (record : GameRecord) (h : HumanAgentObj)
    (addr : nat) :
  _records s !! gid = Some record →
  is_terminal (status record) = false →
  _find_human_agent (game record) = Some h →
  human_action_futures s !! gid = Some addr →
  future_heap s !! addr ≠ Some FutPending →
  submit_human_action gid idx text s
    = (Raise (Exc RuntimeError (ArgStr not_waiting_msg) None), s)
  ∧ submit_human_action gid idx text
      (with_futures (delete gid (human_action_futures s)) (future_heap s) s)
    = (Raise (Exc RuntimeError (ArgStr not_waiting_msg) None),
       with_futures (delete gid (human_action_futures s)) (future_heap s) s)
  ∧ (∀ s0 idx0 text0 idx1 text1 s1,
       submit_human_action gid idx0 text0 s0 = (Ok tt, s1) →
       submit_human_action gid idx1 text1 s1
       = (Raise (Exc RuntimeError (ArgStr not_waiting_msg) None), s1)).
Proof.
  intros Hrec Hterm Hh Hfut Hres.
  split; [|split].
  - rewrite submit_refines_spec. unfold spec_submit_check.
    rewrite Hrec, Hterm, Hh.
    destruct (pending_request s gid) eqn:Hp; [|done].
    by apply (pending_request_heap s gid addr Hfut) in Hp.
  - rewrite submit_refines_spec. unfold spec_submit_check. simpl.
    rewrite Hrec, Hterm, Hh. unfold pending_request. simpl.
    by rewrite lookup_delete_eq.
  - intros s0 idx0 text0 idx1 text1 s1 Hok.
    apply submit_accepted in Hok
      as (record0 & h0 & addr0 & Hrec0 & Hterm0 & Hh0 & Hfut0 & Hheap0 & _ & ->).
    rewrite submit_refines_spec. unfold spec_submit_check. simpl.
    rewrite Hrec0, Hterm0, Hh0. unfold pending_request. simpl. rewrite Hfut0.
    rewrite list_lookup_insert_eq; [done|].
    by apply lookup_lt_Some in Hheap0.
Qed.

Lemma resolved_request_rejected_witness :
  submit_human_action 1 1 (Some "hello") resolved_state
  = (Raise (Exc RuntimeError (ArgStr not_waiting_msg) None), resolved_state).
Proof.
  apply (resolved_request_rejected resolved_state 1 1 (Some "hello")
           (demo_record "running" TaskSuspended) demo_human 0%nat);
    [reflexivity | reflexivity | reflexivity | reflexivity | discriminate].
Defined.

Lemma first_human_retag f l :
  first_human (map (retag_agent f) l) = retag_human f <$> first_human l.
Proof. induction l as [|[h|p] l IH]; simpl; auto. Qed.

Lemma find_human_retag f g :
  _find_human_agent (retag_game f g) = retag_human f <$> _find_human_agent g.
Proof.
  unfold _find_human_agent. simpl. destruct (agents g) as [l|]; simpl; [|done].
  apply first_human_retag.
Qed.

Lemma spec_submit_check_retag f s gid idx :
  spec_submit_check (retag_state f s) gid idx = spec_submit_check s gid idx.
Proof.
  unfold spec_submit_check, retag_state. simpl. rewrite lookup_fmap.
  destruct (_records s !! gid) as [record|]; simpl; [|done].
  destruct (is_terminal (status record)); [done|].
  rewrite find_human_retag.
  destruct (_find_human_agent (game record)) as [h|]; simpl; [|done].
  replace (index_in_range (retag_human f h) idx) with (index_in_range h idx);
    [done|].
  unfold index_in_range. simpl.
  destruct (current_available_actions h); simpl; [|done].
  by rewrite length_map.
Qed.

(** C10.  An accepted submission puts into the pending future exactly
    the payload [{action_index := idx; message := speech_text or ""}] and
    changes nothing else; the message is a string in every case ([None]
    becomes the empty string); whether the call is accepted depends
    neither on the text nor on the names and [requires_message] flags of
    the offered actions. *)
Theorem submit_payload (gid idx : Z) (text : option string) (s : State) :
  (∀ s1, submit_human_action gid idx text s = (Ok tt, s1) →
     ∃ addr,
       human_action_futures s !! gid = Some addr
       ∧ future_heap s !! addr = Some FutPending
       ∧ future_heap s1 !! addr
         = Some (FutResult {| action_index := idx;
                              message := match text with
                                         | Some t => t
                                         | None => ""
                                         end |})
       ∧ s1 = with_futures (human_action_futures s)
                (<[addr := FutResult {| action_index := idx;
                                        message := or_empty text |}]>
                   (future_heap s)) s)
  ∧ (∀ text', fst (submit_human_action gid idx text' s)
              = fst (submit_human_action gid idx text s))
  ∧ (∀ f, fst (submit_human_action gid idx text (retag_state f s))
          = fst (submit_human_action gid idx text s)).
Proof.
  split; [|split].
  - intros s1 Hok.
    apply submit_accepted in Hok
      as (record & h & addr & _ & _ & _ & Hfut & Hheap & _ & ->).
    exists addr. repeat split; try done. simpl.
    rewrite list_lookup_insert_eq; [done|].
    by apply lookup_lt_Some in Hheap.
  - intros text'. rewrite !submit_refines_spec.
    by destruct (spec_submit_check s gid idx).
  - intros f. rewrite !submit_refines_spec, spec_submit_check_retag.
    destruct (spec_submit_check s gid idx) as [err|]; simpl; [|done].
    f_equal. destruct err; simpl; try done.
    unfold retag_state. simpl. rewrite lookup_fmap.
    by destruct (_records s !! gid).
Qed.

(** An empty message is accepted for an action that asks for one. *)
Example submit_speak_without_text :
  fst (submit_human_action 1 1 None waiting_state) = Ok tt.
Proof. reflexivity. Qed.

(** ** The state projector *)

(** The claim of C9 fails: with the human agent at turn and its
    [get_current_state_for_web()] raising, [get_state] raises too. *)
Lemma get_state_not_total : ¬ get_state_total.
Proof.
  intros H. specialize (H broken_view_state 1).
  assert (Hk : is_Some (_records broken_view_state !! 1)) by (by eexists).
  apply H in Hk. vm_compute in Hk. discriminate Hk.
Qed.

Lemma get_state_Ok gid s snap :
  get_state gid s = Ok snap →
  ∃ record, _records s !! gid = Some record
            ∧ snap_game_id snap = gid
            ∧ snap_status snap = status record
            ∧ snap_error snap = error record
            ∧ snap_winner snap = winner record
            ∧ snap_winner_reason snap = winner_reason record
            ∧ snap_player_positions snap
              = _serialize_player_positions (game record)
            ∧ snap_meeting_messages snap
              = _serialize_meeting_messages (game record)
            ∧ snap_max_timesteps snap
              = game_config (game record) ≫= max_timesteps.
Proof.
  unfold get_state. destruct (_records s !! gid) as [record|]; [|done].
  destruct (turn_view _ _) as [[[aa pi] cs]|]; [|done].
  destruct (human_name _); [|done].
  intros [= <-]. exists record. simpl. done.
Qed.

Lemma get_state_unknown gid s :
  _records s !! gid = None →
  get_state gid s
  = Raise (Exc KeyError (ArgStr ("Unknown game_id=" ++ str_int gid)) None).
Proof. intros H. unfold get_state. by rewrite H. Qed.

(** C9, amended.  For a known id, an [Exception] raised while the
    situation of the acting agent is derived outside the human's turn is
    swallowed and shows as [player_info = None] with no actions; missing
    [players], [activity_log] and [game_config] show as empty lists and
    [None], and with no agents at all the snapshot is produced with no
    human and no actions.  The other reads are not guarded.  On the
    human's turn an exception raised by the human agent's
    [get_current_state_for_web()] comes out of [get_state] unchanged;
    outside the human's turn so does what [all_info_prompt()] raises when
    it is not an [Exception]; and a human agent without a player makes
    [get_state] raise [AttributeError] whenever the reads before it went
    through. *)
Theorem get_state_degrades (gid : Z) (s : State) (record : GameRecord) :
  _records s !! gid = Some record →
  (∀ a p e hname,
     _find_current_agent (game record) = Some a →
     is_human (Some a) = false →
     agent_player a = Some p →
     all_info_prompt p = Raise e →
     is_Exception e = true →
     human_name (_find_human_agent (game record)) = Ok hname →
     ∃ snap, get_state gid s = Ok snap
             ∧ snap_player_info snap = None
             ∧ snap_available_actions snap = []
             ∧ snap_is_human_turn snap = false)
  ∧ (agents (game record) = None →
     ∃ snap, get_state gid s = Ok snap
             ∧ snap_has_human snap = false
             ∧ snap_initialized snap = false
             ∧ snap_is_human_turn snap = false
             ∧ snap_player_info snap = None
             ∧ snap_available_actions snap = [])
  ∧ (∀ snap, get_state gid s = Ok snap →
       (players (game record) = None → snap_player_positions snap = [])
       ∧ (activity_log (game record) = None → snap_meeting_messages snap = [])
       ∧ (game_config (game record) = None → snap_max_timesteps snap = None))
  ∧ (∀ h e,
       is_human (_find_current_agent (game record)) = true →
       _find_human_agent (game record) = Some h →
       get_current_state_for_web h = Raise e →
       get_state gid s = Raise e)
  ∧ (∀ a p e,
       _find_current_agent (game record) = Some a →
       is_human (Some a) = false →
       agent_player a = Some p →
       all_info_prompt p = Raise e →
       is_Exception e = false →
       get_state gid s = Raise e)
  ∧ (∀ h,
       _find_human_agent (game record) = Some h →
       human_player h = None →
       is_Ok (turn_view (_find_current_agent (game record))
                        (_find_human_agent (game record))) = true →
       get_state gid s
       = Raise (Exc AttributeError
                  (ArgStr "'NoneType' object has no attribute 'name'") None)).
Proof.
  intros Hrec. split; [|split; [|split; [|split; [|split]]]].
  - intros a p e hname Hca Hnh Hp Hi Hex Hn.
    unfold get_state. rewrite Hrec, Hn. unfold turn_view.
    rewrite Hca, Hnh, Hp, Hi, Hex. eexists. split; [reflexivity|]. done.
  - intros Hag. unfold get_state. rewrite Hrec.
    unfold _find_current_agent, _find_human_agent. rewrite Hag. simpl.
    assert (Hfn : ∀ n, first_named n [] = None) by done.
    destruct (current_player (game record)) as [[|c n]|]; simpl;
      eexists; (split; [reflexivity|]); done.
  - intros snap Hok. apply get_state_Ok in Hok as (record' & Hrec' & Hsnap).
    rewrite Hrec in Hrec'. injection Hrec' as <-.
    destruct Hsnap as (_ & _ & _ & _ & _ & Hpos & Hmsg & Hmax).
    rewrite Hpos, Hmsg, Hmax.
    unfold _serialize_player_positions, _serialize_meeting_messages.
    split; [|split]; by intros ->.
  - intros h e Hih Hh He. unfold get_state. rewrite Hrec. unfold turn_view.
    by rewrite Hih, Hh, He.
  - intros a p e Hca Hnh Hp Hi Hex. unfold get_state. rewrite Hrec.
    unfold turn_view. by rewrite Hca, Hnh, Hp, Hi, Hex.
  - intros h Hh Hp Hok. unfold get_state. rewrite Hrec.
    destruct (turn_view _ _) as [[[aa pi] cs]|e0]; [|done].
    unfold human_name. by rewrite Hh, Hp.
Qed.

(** ** The session task *)

Lemma run_game_start_eq gid s :
  _run_game_start gid s =
  match _records s !! gid with
  | Some _ => (Ok tt, with_records (alter (set_status "running") gid) s)
  | None => (Raise (Exc KeyError (ArgInt gid) None), s)
  end.
Proof.
  unfold _run_game_start, bind, gets. simpl.
  by destruct (_records s !! gid).
Qed.

Lemma alter_twice {A} (f g : A → A) (k : Z) (m : gmap Z A) :
  alter f k (alter g k m) = alter (f ∘ g) k m.
Proof. by rewrite alter_alter_eq. Qed.

Lemma run_game_resume_eq gid outcome s :
  _run_game_resume gid outcome s =
  (resume_result outcome,
   cleanup_state gid (with_records (alter (resume_update gid outcome) gid) s)).
Proof.
  unfold _run_game_resume, try_finally, try_except_Exception, cleanup_state.
  destruct outcome as [[]|e]; simpl.
  - unfold bind, update_record, modify, cleanup_future. simpl.
    unfold with_records at 1 2. simpl. rewrite alter_twice. reflexivity.
  - unfold raise. destruct (is_Exception e) eqn:Hex; simpl.
    + unfold bind, update_record, modify, cleanup_future. simpl.
      unfold with_records at 1 2. simpl. rewrite alter_twice.
      unfold resume_update. rewrite Hex. reflexivity.
    + unfold cleanup_future, modify. simpl.
      unfold resume_update. rewrite Hex.
      unfold with_records. simpl. rewrite alter_id; [|done].
      by destruct s.
Qed.

Lemma cleanup_state_records gid s :
  _records (cleanup_state gid s) = _records s
  ∧ _next_game_id (cleanup_state gid s) = _next_game_id s
  ∧ _init_lock (cleanup_state gid s) = _init_lock s
  ∧ human_action_futures (cleanup_state gid s)
    = delete gid (human_action_futures s).
Proof. done. Qed.

Lemma cleanup_state_cancels gid s addr :
  human_action_futures s !! gid = Some addr →
  future_heap s !! addr = Some FutPending →
  future_heap (cleanup_state gid s) !! addr = Some FutCancelled.
Proof.
  intros Hf Hh. unfold cleanup_state, cleanup_future, modify. simpl.
  rewrite Hf. unfold cancel_future, future_done. rewrite Hh.
  rewrite list_lookup_insert_eq; [done|]. by apply lookup_lt_Some in Hh.
Qed.

Lemma cleanup_state_keeps gid s addr :
  ¬ (human_action_futures s !! gid = Some addr
     ∧ future_heap s !! addr = Some FutPending) →
  future_heap (cleanup_state gid s) !! addr = future_heap s !! addr.
Proof.
  intros Hn. unfold cleanup_state, cleanup_future, modify. simpl.
  destruct (human_action_futures s !! gid) as [a|] eqn:Hf; [|done].
  unfold cancel_future, future_done.
  destruct (future_heap s !! a) as [[]|] eqn:Hh; try done.
  destruct (decide (a = addr)) as [->|Hne]; [by destruct Hn|].
  by rewrite list_lookup_insert_ne.
Qed.

(** The [finally] block of the task, whatever came out of the await. *)
Lemma cleanup_after_await (gid : Z) (outcome : PyResult unit) (s : State) :
  let s' := snd (_run_game_resume gid outcome s) in
  human_action_futures s' !! gid = None
  ∧ (∀ addr, human_action_futures s !! gid = Some addr →
             future_heap s !! addr = Some FutPending →
             future_heap s' !! addr = Some FutCancelled)
  ∧ (∀ addr, ¬ (human_action_futures s !! gid = Some addr
                ∧ future_heap s !! addr = Some FutPending) →
             future_heap s' !! addr = future_heap s !! addr)
  ∧ (∀ g, g ≠ gid →
          human_action_futures s' !! g = human_action_futures s !! g)
  ∧ (∀ idx text, fst (submit_human_action gid idx text s') ≠ Ok tt).
Proof.
  intros s'. subst s'. rewrite run_game_resume_eq. cbn [snd].
  set (s1 := with_records _ s).
  destruct (cleanup_state_records gid s1) as (Hr & Hn & Hl & Ht).
  assert (Hnone : human_action_futures (cleanup_state gid s1) !! gid = None).
  { rewrite Ht. apply lookup_delete_eq. }
  split; [done|]. split; [|split; [|split]].
  - intros addr Hf Hp. by apply cleanup_state_cancels.
  - intros addr Hn'. by apply (cleanup_state_keeps gid s1).
  - intros g Hg. rewrite Ht. by rewrite lookup_delete_ne.
  - intros idx text. rewrite submit_refines_spec.
    unfold spec_submit_check, pending_request. rewrite Hnone.
    destruct (_records (cleanup_state gid s1) !! gid) as [record|]; [|done].
    destruct (is_terminal (status record)); [done|].
    by destruct (_find_human_agent (game record)).
Qed.


(** ** The readiness gate *)

(** A turn of the gate in terms of what it observes. *)
Lemma gate_iteration_cases now deadline gid s :
  gate_iteration now deadline gid s =
  if (now <? deadline)%Z then
    match _records s !! gid with
    | None => GateRaise (unregistered gid)
    | Some _ =>
        if turn_task_done s gid then
          if turn_task_cancelled s gid then GateRaise cancelled_error
          else GateRaise (premature_completion (turn_task_exc s gid))
        else if turn_human s gid then GateReturn else GateSleep
    end
  else GateRaise gate_timeout.
Proof.
  unfold gate_iteration, turn_task_cancelled, turn_task_done, turn_task_exc,
    turn_human, task_of.
  destruct (now <? deadline)%Z; [|done].
  destruct (_records s !! gid) as [record|] eqn:Hrec; [|done]. simpl.
  assert (Hlook :
    match _find_human_agent (game record) with
    | Some _ => GateReturn
    | None => GateSleep
    end =
    if bool_decide (is_Some (_find_human_agent (game record)))
    then GateReturn else GateSleep).
  { destruct (_find_human_agent (game record)) as [h|].
    - by rewrite bool_decide_eq_true_2.
    - rewrite bool_decide_eq_false_2; [done|]. by intros [? ?]. }
  destruct (task record) as [[ts mc]|]; simpl; [|done].
  unfold task_done, task_exception. simpl.
  destruct ts as [| |[exc|]|]; simpl; done.
Qed.

(** An [Exception] out of a turn of the gate of a registered session is
    the timeout, or the failure of a premature completion. *)
Lemma gate_raise_cases now deadline gid s e :
  gate_iteration now deadline gid s = GateRaise e →
  is_Some (_records s !! gid) →
  is_Exception e = true →
  (deadline ≤ now ∧ e = gate_timeout)
  ∨ (now < deadline
     ∧ turn_task_done s gid = true
     ∧ turn_task_cancelled s gid = false
     ∧ e = premature_completion (turn_task_exc s gid)).
Proof.
  rewrite gate_iteration_cases. intros Hit [r Hr] Hex. rewrite Hr in Hit.
  destruct (Z.ltb_spec now deadline) as [Hlt|Hge].
  - right. split; [done|].
    destruct (turn_task_done s gid); [|by destruct (turn_human s gid)].
    destruct (turn_task_cancelled s gid).
    + injection Hit as <-. done.
    + injection Hit as <-. done.
  - left. injection Hit as <-. done.
Qed.

Section GateLoop.
Variables (gid deadline : Z) (obs : nat → Z * State).

Hypothesis clock_advances :
  ∀ k, fst (obs k) + poll_interval_ms ≤ fst (obs (S k)).

(** The first turn at or after [k] that does not end in the sleep. *)
Lemma gate_first_decision (n k : nat) :
  deadline - fst (obs k) ≤ poll_interval_ms * Z.of_nat n →
  ∃ k', (k ≤ k' ≤ k + n)%nat
        ∧ (∀ j, (k ≤ j < k')%nat →
                gate_iteration (fst (obs j)) deadline gid (snd (obs j))
                = GateSleep)
        ∧ gate_iteration (fst (obs k')) deadline gid (snd (obs k'))
          ≠ GateSleep.
Proof.
  revert k. induction n as [|n IH]; intros k Hd.
  - exists k. split; [lia|]. split; [intros j Hj; lia|].
    unfold gate_iteration.
    destruct (Z.ltb_spec (fst (obs k)) deadline); [lia|done].
  - destruct (gate_iteration (fst (obs k)) deadline gid (snd (obs k)))
      eqn:Hit.
    + exists k. split; [lia|]. split; [intros j Hj; lia|]. by rewrite Hit.
    + destruct (IH (S k)) as (k' & Hk' & Hsleep & Hdec).
      { specialize (clock_advances k). unfold poll_interval_ms in *. lia. }
      exists k'. split; [lia|]. split; [|done].
      intros j Hj. destruct (decide (j = k)) as [->|Hne]; [done|].
      apply Hsleep. lia.
    + exists k. split; [lia|]. split; [intros j Hj; lia|]. by rewrite Hit.
Qed.

Lemma gate_loop_sleeps (d k fuel : nat) :
  (∀ j, (k ≤ j < k + d)%nat →
        gate_iteration (fst (obs j)) deadline gid (snd (obs j)) = GateSleep) →
  gate_loop fuel deadline gid obs k =
  if decide (fuel ≤ d)%nat then None
  else gate_loop (fuel - d) deadline gid obs (k + d).
Proof.
  revert k fuel. induction d as [|d IH]; intros k fuel Hs.
  - destruct fuel; simpl.
    + done.
    + rewrite Nat.add_0_r. done.
  - destruct fuel as [|fuel]; [done|].
    simpl gate_loop at 1. rewrite (Hs k) by lia.
    rewrite (IH (S k) fuel) by (intros j Hj; apply Hs; lia).
    replace (S k + d)%nat with (k + S d)%nat by lia.
    replace (S fuel - S d)%nat with (fuel - d)%nat by lia.
    destruct (decide (fuel ≤ d)%nat), (decide (S fuel ≤ S d)%nat);
      (done || lia).
Qed.
End GateLoop.

(** The claim of C6 fails: the task of session 1 has been cancelled
    while the creating call is asleep in the gate, and the gate ends in
    the [CancelledError] that [record.task.exception()] raises, which is
    none of the three outcomes. *)
Lemma gate_not_three_ways : ¬ gate_three_ways.
Proof.
  intros H.
  destruct (H 1 timeout_ms 0 cancelled_obs) with (fuel := 1%nat)
                                                 (r := @Raise unit cancelled_error)
    as [Hr|[[exc Hr]|Hr]].
  - simpl. lia.
  - intros k. unfold cancelled_obs, poll_interval_ms. simpl. lia.
  - intros k. by eexists.
  - vm_compute. reflexivity.
  - discriminate Hr.
  - destruct exc; discriminate Hr.
  - discriminate Hr.
Qed.

(** C6, amended.  The gate tests the deadline and the session once per
    turn, sleeping the fixed interval of 50 ms in between, and always
    comes to an end, after at most [timeout / 50 + 1] sleeps.  At the
    first turn [k] that does not sleep exactly one of five things holds.
    The deadline has not passed, the task is not finished and a human
    agent is exposed: the gate returns.  The deadline has not passed and
    the task has finished with a result or an exception: the gate fails
    with the [RuntimeError] of a premature completion, which carries the
    exception of the task when it has one.  The deadline has passed: the
    gate fails with [TimeoutError], whatever the task and the agents are.
    The deadline has not passed and the task was cancelled: the
    [CancelledError] of [record.task.exception()] comes out of the gate.
    The deadline has not passed and no record is registered under the
    id: [KeyError].  At every earlier turn the deadline had not passed,
    the record was there, the task was running and no human agent was
    there. *)
Theorem gate_outcome (gid timeout t0 : Z) (obs : nat → Z * State) :
  t0 ≤ fst (obs 0%nat) →
  (∀ k, fst (obs k) + poll_interval_ms ≤ fst (obs (S k))) →
  ∃ (k : nat) (r : PyResult unit),
    (k ≤ Z.to_nat (timeout / poll_interval_ms) + 1)%nat
    ∧ (∀ fuel, (k < fuel)%nat →
         _wait_for_human_agent_ready fuel gid timeout t0 obs = Some r)
    ∧ (∀ fuel, (fuel ≤ k)%nat →
         _wait_for_human_agent_ready fuel gid timeout t0 obs = None)
    ∧ (∀ j, (j < k)%nat →
         fst (obs j) < t0 + timeout
         ∧ is_Some (_records (snd (obs j)) !! gid)
         ∧ turn_task_done (snd (obs j)) gid = false
         ∧ turn_human (snd (obs j)) gid = false)
    ∧ ((r = Ok tt
        ∧ fst (obs k) < t0 + timeout
        ∧ is_Some (_records (snd (obs k)) !! gid)
        ∧ turn_task_done (snd (obs k)) gid = false
        ∧ turn_human (snd (obs k)) gid = true)
       ∨ (r = Raise (premature_completion (turn_task_exc (snd (obs k)) gid))
          ∧ fst (obs k) < t0 + timeout
          ∧ turn_task_done (snd (obs k)) gid = true
          ∧ turn_task_cancelled (snd (obs k)) gid = false)
       ∨ (r = Raise gate_timeout
          ∧ t0 + timeout ≤ fst (obs k))
       ∨ (r = Raise cancelled_error
          ∧ fst (obs k) < t0 + timeout
          ∧ turn_task_done (snd (obs k)) gid = true
          ∧ turn_task_cancelled (snd (obs k)) gid = true)
       ∨ (r = Raise (unregistered gid)
          ∧ fst (obs k) < t0 + timeout
          ∧ _records (snd (obs k)) !! gid = None)).
Proof.
  intros Ht0 Hclock.
  set (deadline := t0 + timeout).
  set (n := (Z.to_nat (timeout / poll_interval_ms) + 1)%nat).
  pose proof (λ j, gate_iteration_cases (fst (obs j)) deadline gid
                     (snd (obs j))) as Hspec.
  assert (Hmono : ∀ j, t0 + poll_interval_ms * Z.of_nat j ≤ fst (obs j)).
  { induction j as [|j IH]; [lia|]. specialize (Hclock j). lia. }
  destruct (gate_first_decision gid deadline obs Hclock n 0%nat)
    as (k & Hk & Hsleep & Hdec).
  { subst deadline n. unfold poll_interval_ms in *.
    destruct (Z.le_gt_cases 0 timeout) as [Hpos|Hneg].
    - assert (Hdm : timeout = 50 * (timeout / 50) + timeout mod 50)
        by (apply Z.div_mod; lia).
      assert (Hmb : 0 ≤ timeout mod 50 < 50) by (apply Z.mod_pos_bound; lia).
      assert (0 ≤ timeout / 50) by (apply Z.div_pos; lia).
      lia.
    - lia. }
  assert (Hbefore : ∀ j, (j < k)%nat →
    fst (obs j) < deadline
    ∧ is_Some (_records (snd (obs j)) !! gid)
    ∧ turn_task_done (snd (obs j)) gid = false
    ∧ turn_human (snd (obs j)) gid = false).
  { intros j Hj. assert (Hs := Hsleep j). rewrite Hspec in Hs.
    specialize (Hs (conj (Nat.le_0_l j) Hj)).
    destruct (Z.ltb_spec (fst (obs j)) deadline); [|done].
    destruct (_records (snd (obs j)) !! gid); [|done].
    destruct (turn_task_done (snd (obs j)) gid).
    { by destruct (turn_task_cancelled (snd (obs j)) gid). }
    destruct (turn_human (snd (obs j)) gid); [done|]. eauto. }
  assert (Hrun : ∀ fuel,
    gate_loop fuel deadline gid obs 0 =
    if decide (fuel ≤ k)%nat then None
    else gate_result (gate_iteration (fst (obs k)) deadline gid (snd (obs k)))).
  { intros fuel. rewrite (gate_loop_sleeps gid deadline obs k 0 fuel).
    - destruct (decide (fuel ≤ k)%nat) as [|Hgt]; [done|]. simpl.
      destruct (fuel - k)%nat as [|f] eqn:Hf; [lia|]. simpl.
      destruct (gate_iteration _ _ _ _); done.
    - intros j Hj. apply Hsleep. lia. }
  assert (Hkn : (k ≤ n)%nat) by lia.
  assert (Hend : ∀ r,
    gate_result (gate_iteration (fst (obs k)) deadline gid (snd (obs k)))
    = Some r →
    (∀ fuel, (k < fuel)%nat →
       _wait_for_human_agent_ready fuel gid timeout t0 obs = Some r)
    ∧ (∀ fuel, (fuel ≤ k)%nat →
         _wait_for_human_agent_ready fuel gid timeout t0 obs = None)).
  { intros r Hr. split; intros fuel Hf;
      unfold _wait_for_human_agent_ready; fold deadline; rewrite Hrun.
    - by rewrite decide_False by lia.
    - by rewrite decide_True by lia. }
  rewrite Hspec in Hdec, Hend.
  exists k.
  destruct (Z.ltb_spec (fst (obs k)) deadline) as [Hlt|Hge].
  - destruct (_records (snd (obs k)) !! gid) as [rec0|] eqn:Hrec.
    + destruct (turn_task_done (snd (obs k)) gid) eqn:Hdone.
      * destruct (turn_task_cancelled (snd (obs k)) gid) eqn:Hcan.
        -- exists (Raise cancelled_error). split; [done|].
           destruct (Hend _ eq_refl) as [H1 H2].
           split; [done|]. split; [done|]. split; [done|].
           right. right. right. left. done.
        -- exists (Raise (premature_completion
                            (turn_task_exc (snd (obs k)) gid))).
           split; [done|]. destruct (Hend _ eq_refl) as [H1 H2].
           split; [done|]. split; [done|]. split; [done|].
           right. left. done.
      * destruct (turn_human (snd (obs k)) gid) eqn:Hhum; [|done].
        exists (Ok tt). split; [done|].
        destruct (Hend _ eq_refl) as [H1 H2].
        split; [done|]. split; [done|]. split; [done|].
        left. split; [done|]. split; [done|]. split; [by eexists|]. done.
    + exists (Raise (unregistered gid)). split; [done|].
      destruct (Hend _ eq_refl) as [H1 H2].
      split; [done|]. split; [done|]. split; [done|].
      right. right. right. right. done.
  - exists (Raise gate_timeout). split; [done|].
    destruct (Hend _ eq_refl) as [H1 H2].
    split; [done|]. split; [done|]. split; [done|].
    right. right. left. done.
Qed.

(** ** Session creation *)

Lemma create_game_enter_eq s :
  create_game_enter s =
  (Ok (_next_game_id s),
   with_next_game_id (_next_game_id s + 1) (with_lock true s)).
Proof. reflexivity. Qed.

Lemma create_game_finish_eq gid gate s :
  create_game_finish gid gate s =
  (finish_result gid gate,
   with_lock false (with_records (alter (finish_update gate) gid) s)).
Proof.
  unfold create_game_finish, try_finally, try_except_Exception, release_lock.
  destruct gate as [[]|e]; simpl.
  - reflexivity.
  - unfold raise, bind. destruct (is_Exception e) eqn:Hex; simpl.
    + unfold update_record, modify. simpl.
      unfold with_records at 1 2 3. simpl. rewrite !alter_twice.
      unfold finish_update. rewrite Hex. reflexivity.
    + unfold finish_update. rewrite Hex.
      unfold with_records, with_lock, modify. simpl.
      rewrite alter_id; [|done]. reflexivity.
Qed.

Lemma create_game_poll_eq gid deadline now s :
  create_game_poll gid deadline now s
  = after_gate gid (gate_iteration now deadline gid s) s.
Proof.
  unfold create_game_poll, after_gate. unfold bind at 1. unfold gets.
  cbv beta iota.
  destruct (gate_iteration now deadline gid s) as [| |e]; cbv beta iota.
  - unfold bind. rewrite create_game_finish_eq. reflexivity.
  - reflexivity.
  - unfold bind. rewrite create_game_finish_eq. reflexivity.
Qed.

Lemma create_game_setup_eq gid g t0 now s :
  create_game_setup gid (Ok g) t0 now s
  = after_gate gid
      (gate_iteration now (t0 + timeout_ms) gid
         (with_records (<[gid := new_record gid g]>) s))
      (with_records (<[gid := new_record gid g]>) s).
Proof.
  unfold create_game_setup, bind, modify, gets. simpl.
  rewrite <- create_game_poll_eq. reflexivity.
Qed.

Lemma task_of_Some s gid t :
  task_of s gid = Some t →
  ∃ r, _records s !! gid = Some r ∧ task r = Some t.
Proof.
  unfold task_of. destruct (_records s !! gid) as [r|]; [|done].
  simpl. eauto.
Qed.

(** Every transition of [exec] is one of the closed forms. *)
Lemma exec_step ev w w' : exec ev w = Some w' → step w ev w'.
Proof.
  destruct ev as [c key cm im|c|c built t0 now|c now|gid|gid|gid g op
                 |gid outcome|gid idx text|gid]; simpl.
  - destruct (calls w !! c) eqn:Hc; [done|]. intros [= <-]. by constructor.
  - destruct (calls w !! c) as [[cm im| | | |]|] eqn:Hc; try done.
    destruct (_init_lock (st w)) eqn:Hl; [done|].
    intros [= <-]. by econstructor.
  - destruct (calls w !! c) as [[|gid| | |]|] eqn:Hc; try done.
    destruct built as [g|e].
    + rewrite create_game_setup_eq. fold (setup_state gid g (st w)).
      fold (setup_out gid g t0 now (st w)).
      destruct (setup_out _ _ _ _ _) as [r s'] eqn:Hout. intros [= <-].
      pose proof (step_setup w c gid g t0 now Hc) as Hs.
      rewrite Hout in Hs. exact Hs.
    + simpl. intros [= <-]. by eapply step_setup_raise.
  - destruct (calls w !! c) as [[| |gid deadline| |]|] eqn:Hc; try done.
    rewrite create_game_poll_eq. fold (poll_out gid deadline now (st w)).
    destruct (poll_out _ _ _ _) as [r s'] eqn:Hout. intros [= <-].
    pose proof (step_poll w c gid deadline now Hc) as Hs.
    rewrite Hout in Hs. exact Hs.
  - destruct (task_of (st w) gid) as [[[] []]|] eqn:Ht; try done.
    apply task_of_Some in Ht as (r & Hr & Ht).
    rewrite run_game_start_eq, Hr. intros [= <-]. by econstructor.
  - destruct (task_of (st w) gid) as [[[] []]|] eqn:Ht; try done.
    apply task_of_Some in Ht as (r & Hr & Ht).
    intros [= <-]. by econstructor.
  - destruct (task_of (st w) gid) as [[[] mc]|] eqn:Ht; try done.
    apply task_of_Some in Ht as (r & Hr & Ht).
    intros [= <-]. by econstructor.
  - destruct (task_of (st w) gid) as [[[] mc]|] eqn:Ht; try done.
    apply task_of_Some in Ht as (r & Hr & Ht).
    destruct (mc && negb (is_cancellation outcome)) eqn:Hmc; [done|].
    rewrite run_game_resume_eq. intros [= <-].
    eapply step_task_resume; [done|done|].
    intros ->. simpl in Hmc. by destruct (is_cancellation outcome).
  - destruct (submit_human_action gid idx text (st w)) as [r s'] eqn:Hs.
    intros [= <-].
    pose proof (step_submit w gid idx text) as Hst. by rewrite Hs in Hst.
  - intros [= <-]. constructor.
Qed.

(** *** How the segments touch the state *)

Lemma after_gate_cases gid stp s :
  (after_gate gid stp s = (Ok None, s) ∧ stp = GateSleep)
  ∨ (∃ g, gate_result stp = Some g
          ∧ snd (after_gate gid stp s)
            = with_lock false (with_records (alter (finish_update g) gid) s)
          ∧ (fst (after_gate gid stp s) = Ok (Some gid)
             ∨ ∃ e, fst (after_gate gid stp s) = Raise e)).
Proof.
  unfold after_gate. destruct stp as [| |e]; simpl.
  - right. exists (Ok tt). eauto.
  - by left.
  - right. exists (Raise e). eauto.
Qed.

Lemma submit_frame gid idx text s :
  let s' := snd (submit_human_action gid idx text s) in
  _records s' = _records s
  ∧ _next_game_id s' = _next_game_id s
  ∧ _init_lock s' = _init_lock s
  ∧ human_action_futures s' = human_action_futures s.
Proof.
  simpl. rewrite submit_refines_spec.
  destruct (spec_submit_check s gid idx); simpl; [done|].
  unfold fulfilled. by destruct (human_action_futures s !! gid).
Qed.

Lemma apply_fut_op_frame op gid s :
  _records (apply_fut_op op gid s) = _records s
  ∧ _next_game_id (apply_fut_op op gid s) = _next_game_id s
  ∧ _init_lock (apply_fut_op op gid s) = _init_lock s.
Proof. by destruct op. Qed.

(** Quiet transitions leave the calls, the lock and the identifier
    counter alone. *)
Lemma step_quiet w ev w' :
  step w ev w' → quiet ev = true →
  calls w' = calls w ∧ entered w' = entered w
  ∧ _init_lock (st w') = _init_lock (st w)
  ∧ _next_game_id (st w') = _next_game_id (st w).
Proof.
  intros Hs Hq. destruct Hs; try done; simpl.
  - destruct (apply_fut_op_frame op gid
                (with_records (alter (set_game g) gid) (st w))) as (_ & -> & ->).
    done.
  - destruct (submit_frame gid idx text (st w)) as (_ & -> & -> & _). done.
Qed.

Lemma call_inv_init : call_inv init_world.
Proof.
  split; simpl; try done.
  - intros c gid H. by apply elem_of_nil in H.
Qed.

Lemma call_inv_step w ev w' : call_inv w → step w ev w' → call_inv w'.
Proof.
  intros Hi Hs.
  destruct (quiet ev) eqn:Hq.
  { destruct (step_quiet w ev w' Hs Hq) as (Hc & He & Hl & Hn).
    destruct Hi. split; rewrite ?Hc, ?He, ?Hl, ?Hn; done. }
  destruct Hi as [Hnext Hids Hpast Honce Hpc Hmutex Hlock Hunlock].
  destruct Hs as [c key cm im H|c cm im H H0|c gid e t0 now H|c gid g t0 now H
                 |c gid deadline now H| | | | | |]; try done; clear Hq.
  - (* a new call *)
    set (pc0 := match check_api_key key with
                | Ok _ => PcAcquire (model_or_default cm) (model_or_default im)
                | Raise e => PcRaised e
                end).
    assert (Hnc : in_critical pc0 = false ∧ pc_gid pc0 = None).
    { subst pc0. by destruct (check_api_key key). }
    destruct Hnc as [Hnc Hng].
    split; simpl; try done.
    + intros c' gid Hin. destruct (Hpast c' gid Hin) as (pc & Hc' & Hacq).
      exists pc. split; [|done]. rewrite lookup_insert_ne; [done|].
      intros ->. congruence.
    + intros c' pc gid Hc' Hg. destruct (decide (c = c')) as [<-|Hne].
      * rewrite lookup_insert_eq in Hc'. injection Hc' as <-. congruence.
      * rewrite lookup_insert_ne in Hc' by done. eauto.
    + intros c1 c2 pc1 pc2 H1 H2 Hc1 Hc2.
      destruct (decide (c = c1)) as [<-|Hn1].
      { rewrite lookup_insert_eq in H1. injection H1 as <-. congruence. }
      destruct (decide (c = c2)) as [<-|Hn2].
      { rewrite lookup_insert_eq in H2. injection H2 as <-. congruence. }
      rewrite lookup_insert_ne in H1, H2 by done. eauto.
    + intros c' pc Hc' Hcr. destruct (decide (c = c')) as [<-|Hne].
      * rewrite lookup_insert_eq in Hc'. injection Hc' as <-. congruence.
      * rewrite lookup_insert_ne in Hc' by done. eauto.
    + intros Hl. destruct (Hunlock Hl) as (c' & pc & Hc' & Hcr).
      exists c', pc. split; [|done]. rewrite lookup_insert_ne; [done|].
      intros ->. congruence.
  - (* entering the critical section *)
    assert (Hfree : ∀ c' pc, calls w !! c' = Some pc → in_critical pc = false).
    { intros c' pc Hc' . destruct (in_critical pc) eqn:Hcr; [|done].
      rewrite (Hlock c' pc Hc' Hcr) in H0. done. }
    assert (Hnew : ∀ i g, entered w !! i = Some (c, g) → False).
    { intros i g Hi. apply list_elem_of_lookup_2 in Hi.
      destruct (Hpast c g Hi) as (pc & Hc' & Hacq). rewrite H in Hc'.
      injection Hc' as <-. done. }
    split; simpl.
    + rewrite length_app. simpl. lia.
    + intros i c' gid Hi. apply lookup_app_Some in Hi as [Hi|[Hlen Hi]].
      * eauto.
      * destruct (i - length (entered w))%nat as [|n] eqn:Hd; [|done].
        simpl in Hi. injection Hi as <- <-. rewrite Hnext. lia.
    + intros c' gid Hin. apply elem_of_app in Hin as [Hin|Hin].
      * destruct (Hpast c' gid Hin) as (pc & Hc' & Hacq).
        destruct (decide (c = c')) as [<-|Hne].
        -- eexists. rewrite lookup_insert_eq. done.
        -- exists pc. by rewrite lookup_insert_ne.
      * apply list_elem_of_singleton in Hin. injection Hin as -> ->.
        eexists. rewrite lookup_insert_eq. done.
    + intros i j c' g1 g2 Hi Hj.
      apply lookup_app_Some in Hi as [Hi|[Hleni Hi]];
        apply lookup_app_Some in Hj as [Hj|[Hlenj Hj]].
      * eauto.
      * destruct (j - length (entered w))%nat as [|n] eqn:Hd; [|done].
        simpl in Hj. injection Hj as <- <-. by apply Hnew in Hi.
      * destruct (i - length (entered w))%nat as [|n] eqn:Hd; [|done].
        simpl in Hi. injection Hi as <- <-. by apply Hnew in Hj.
      * destruct (i - length (entered w))%nat as [|n] eqn:Hd; [|done].
        destruct (j - length (entered w))%nat as [|m] eqn:Hd'; [|done].
        lia.
    + intros c' pc gid Hc' Hg. destruct (decide (c = c')) as [<-|Hne].
      * rewrite lookup_insert_eq in Hc'. injection Hc' as <-.
        simpl in Hg. injection Hg as <-.
        apply elem_of_app. right. by apply list_elem_of_singleton.
      * rewrite lookup_insert_ne in Hc' by done.
        apply elem_of_app. left. eauto.
    + intros c1 c2 pc1 pc2 H1 H2 Hc1 Hc2.
      destruct (decide (c = c1)) as [<-|Hn1];
        destruct (decide (c = c2)) as [<-|Hn2]; [done| | |].
      * rewrite lookup_insert_ne in H2 by done.
        rewrite (Hfree c2 pc2 H2) in Hc2. done.
      * rewrite lookup_insert_ne in H1 by done.
        rewrite (Hfree c1 pc1 H1) in Hc1. done.
      * rewrite lookup_insert_ne in H1 by done.
        rewrite (Hfree c1 pc1 H1) in Hc1. done.
    + done.
    + intros _. exists c, (PcAllocated (_next_game_id (st w))).
      by rewrite lookup_insert_eq.
  - (* the construction of the game fails *)
    assert (Honly : ∀ c' pc, calls w !! c' = Some pc → in_critical pc = true →
                             c' = c).
    { intros c' pc Hc' Hcr. by eapply (Hmutex c' c). }
    split; simpl; try done.
    + intros c' gid' Hin. destruct (Hpast c' gid' Hin) as (pc & Hc' & Hacq).
      destruct (decide (c = c')) as [<-|Hne].
      * eexists. rewrite lookup_insert_eq. done.
      * exists pc. by rewrite lookup_insert_ne.
    + intros c' pc gid' Hc' Hg. destruct (decide (c = c')) as [<-|Hne].
      * rewrite lookup_insert_eq in Hc'. injection Hc' as <-. done.
      * rewrite lookup_insert_ne in Hc' by done. eauto.
    + intros c1 c2 pc1 pc2 H1 H2 Hc1 Hc2.
      destruct (decide (c = c1)) as [<-|Hn1].
      { rewrite lookup_insert_eq in H1. injection H1 as <-. done. }
      destruct (decide (c = c2)) as [<-|Hn2].
      { rewrite lookup_insert_eq in H2. injection H2 as <-. done. }
      rewrite lookup_insert_ne in H1, H2 by done. eauto.
    + intros c' pc Hc' Hcr. destruct (decide (c = c')) as [<-|Hne].
      * rewrite lookup_insert_eq in Hc'. injection Hc' as <-. done.
      * rewrite lookup_insert_ne in Hc' by done.
        destruct Hne. symmetry. eauto.
  - (* insertion of the record and first turn of the gate *)
    assert (Honly : ∀ c' pc, calls w !! c' = Some pc → in_critical pc = true →
                             c' = c).
    { intros c' pc Hc' Hcr. by eapply (Hmutex c' c). }
    unfold setup_out. set (s1 := setup_state gid g (st w)).
    destruct (after_gate_cases gid
                (gate_iteration now (t0 + timeout_ms) gid s1) s1)
      as [[Heq _]|(g0 & Hg0 & Hsnd & Hfst)].
    + rewrite Heq. simpl.
      split; simpl; try done.
      * intros c' gid' Hin. destruct (Hpast c' gid' Hin) as (pc & Hc' & Hacq).
        destruct (decide (c = c')) as [<-|Hne].
        -- eexists. rewrite lookup_insert_eq. done.
        -- exists pc. by rewrite lookup_insert_ne.
      * intros c' pc gid' Hc' Hg. destruct (decide (c = c')) as [<-|Hne].
        -- rewrite lookup_insert_eq in Hc'. injection Hc' as <-.
           simpl in Hg. injection Hg as <-. by eapply Hpc.
        -- rewrite lookup_insert_ne in Hc' by done. eauto.
      * intros c1 c2 pc1 pc2 H1 H2 Hc1 Hc2.
        destruct (decide (c = c1)) as [<-|Hn1];
          destruct (decide (c = c2)) as [<-|Hn2]; [done| | |].
        -- rewrite lookup_insert_ne in H2 by done. symmetry. eauto.
        -- rewrite lookup_insert_ne in H1 by done. eauto.
        -- rewrite lookup_insert_ne in H1, H2 by done. eauto.
      * intros c' pc Hc' Hcr. by eapply (Hlock c).
      * intros _. exists c. eexists. by rewrite lookup_insert_eq.
    + rewrite Hsnd.
      assert (Hpcn : in_critical (next_pc gid (t0 + timeout_ms)
                       (fst (after_gate gid
                          (gate_iteration now (t0 + timeout_ms) gid s1) s1)))
                     = false
                     ∧ ∀ g', pc_gid (next_pc gid (t0 + timeout_ms)
                       (fst (after_gate gid
                          (gate_iteration now (t0 + timeout_ms) gid s1) s1)))
                       = Some g' → g' = gid).
      { destruct Hfst as [->|[e ->]]; simpl; split; try done.
        by intros g' [= <-]. }
      destruct Hpcn as [Hncr Hgid].
      split; simpl; try done.
      * intros c' gid' Hin. destruct (Hpast c' gid' Hin) as (pc & Hc' & Hacq).
        destruct (decide (c = c')) as [<-|Hne].
        -- eexists. rewrite lookup_insert_eq. split; [done|].
           by destruct Hfst as [->|[e ->]].
        -- exists pc. by rewrite lookup_insert_ne.
      * intros c' pc gid' Hc' Hg. destruct (decide (c = c')) as [<-|Hne].
        -- rewrite lookup_insert_eq in Hc'. injection Hc' as <-.
           apply Hgid in Hg as ->. by eapply Hpc.
        -- rewrite lookup_insert_ne in Hc' by done. eauto.
      * intros c1 c2 pc1 pc2 H1 H2 Hc1 Hc2.
        destruct (decide (c = c1)) as [<-|Hn1].
        { rewrite lookup_insert_eq in H1. injection H1 as <-. congruence. }
        destruct (decide (c = c2)) as [<-|Hn2].
        { rewrite lookup_insert_eq in H2. injection H2 as <-. congruence. }
        rewrite lookup_insert_ne in H1, H2 by done. eauto.
      * intros c' pc Hc' Hcr. destruct (decide (c = c')) as [<-|Hne].
        -- rewrite lookup_insert_eq in Hc'. injection Hc' as <-. congruence.
        -- rewrite lookup_insert_ne in Hc' by done.
           destruct Hne. symmetry. eauto.
  - (* a later turn of the gate *)
    assert (Honly : ∀ c' pc, calls w !! c' = Some pc → in_critical pc = true →
                             c' = c).
    { intros c' pc Hc' Hcr. by eapply (Hmutex c' c). }
    unfold poll_out.
    destruct (after_gate_cases gid
                (gate_iteration now deadline gid (st w)) (st w))
      as [[Heq _]|(g0 & Hg0 & Hsnd & Hfst)].
    + rewrite Heq. simpl.
      split; simpl; try done.
      * intros c' gid' Hin. destruct (Hpast c' gid' Hin) as (pc & Hc' & Hacq).
        destruct (decide (c = c')) as [<-|Hne].
        -- eexists. rewrite lookup_insert_eq. done.
        -- exists pc. by rewrite lookup_insert_ne.
      * intros c' pc gid' Hc' Hg. destruct (decide (c = c')) as [<-|Hne].
        -- rewrite lookup_insert_eq in Hc'. injection Hc' as <-.
           simpl in Hg. injection Hg as <-. by eapply Hpc.
        -- rewrite lookup_insert_ne in Hc' by done. eauto.
      * intros c1 c2 pc1 pc2 H1 H2 Hc1 Hc2.
        destruct (decide (c = c1)) as [<-|Hn1];
          destruct (decide (c = c2)) as [<-|Hn2]; [done| | |].
        -- rewrite lookup_insert_ne in H2 by done. symmetry. eauto.
        -- rewrite lookup_insert_ne in H1 by done. eauto.
        -- rewrite lookup_insert_ne in H1, H2 by done. eauto.
      * intros c' pc Hc' Hcr. by eapply (Hlock c).
      * intros _. exists c. eexists. by rewrite lookup_insert_eq.
    + rewrite Hsnd.
      assert (Hpcn : in_critical (next_pc gid deadline
                       (fst (after_gate gid
                          (gate_iteration now deadline gid (st w)) (st w))))
                     = false
                     ∧ ∀ g', pc_gid (next_pc gid deadline
                       (fst (after_gate gid
                          (gate_iteration now deadline gid (st w)) (st w))))
                       = Some g' → g' = gid).
      { destruct Hfst as [->|[e ->]]; simpl; split; try done.
        by intros g' [= <-]. }
      destruct Hpcn as [Hncr Hgid].
      split; simpl; try done.
      * intros c' gid' Hin. destruct (Hpast c' gid' Hin) as (pc & Hc' & Hacq).
        destruct (decide (c = c')) as [<-|Hne].
        -- eexists. rewrite lookup_insert_eq. split; [done|].
           by destruct Hfst as [->|[e ->]].
        -- exists pc. by rewrite lookup_insert_ne.
      * intros c' pc gid' Hc' Hg. destruct (decide (c = c')) as [<-|Hne].
        -- rewrite lookup_insert_eq in Hc'. injection Hc' as <-.
           apply Hgid in Hg as ->. by eapply Hpc.
        -- rewrite lookup_insert_ne in Hc' by done. eauto.
      * intros c1 c2 pc1 pc2 H1 H2 Hc1 Hc2.
        destruct (decide (c = c1)) as [<-|Hn1].
        { rewrite lookup_insert_eq in H1. injection H1 as <-. congruence. }
        destruct (decide (c = c2)) as [<-|Hn2].
        { rewrite lookup_insert_eq in H2. injection H2 as <-. congruence. }
        rewrite lookup_insert_ne in H1, H2 by done. eauto.
      * intros c' pc Hc' Hcr. destruct (decide (c = c')) as [<-|Hne].
        -- rewrite lookup_insert_eq in Hc'. injection Hc' as <-. congruence.
        -- rewrite lookup_insert_ne in Hc' by done.
           destruct Hne. symmetry. eauto.
Qed.

Lemma rec_ok_finish_update g r : rec_ok r → rec_ok (finish_update g r).
Proof.
  intros (t & Ht & Hok & Hw). unfold finish_update.
  destruct g as [[]|e].
  - destruct (is_terminal (status r)) eqn:Hterm.
    + exists t. split; [done|]. by rewrite Hterm.
    + exists t. split; [done|]. simpl. done.
  - destruct (is_Exception e).
    + exists (task_cancel t). simpl. rewrite Ht. split; [done|].
      unfold task_cancel. destruct (task_done t) eqn:Hd.
      * split; [by left|]. by rewrite Hd.
      * split; [by right|]. unfold task_done. simpl.
        fold (task_done t). by rewrite Hd.
    + exists t. done.
Qed.

Lemma finish_update_task_state g r t :
  task r = Some t →
  ∃ t', task (finish_update g r) = Some t' ∧ task_state t' = task_state t.
Proof.
  intros Ht. unfold finish_update. destruct g as [[]|e].
  - destruct (is_terminal (status r)); simpl; eauto.
  - destruct (is_Exception e); simpl; [|eauto].
    rewrite Ht. simpl. eexists. split; [done|].
    unfold task_cancel. by destruct (task_done t).
Qed.

Lemma entered_bound w c gid :
  call_inv w → (c, gid) ∈ entered w → 1 ≤ gid < _next_game_id (st w).
Proof.
  intros Hi Hin. apply list_elem_of_lookup_1 in Hin as [i Hi'].
  rewrite (ci_next w Hi). rewrite (ci_ids w Hi i c gid Hi').
  apply lookup_lt_Some in Hi'. lia.
Qed.

Lemma rec_inv_init : rec_inv init_world.
Proof. split; simpl; intros; simplify_map_eq. Qed.

Lemma rec_inv_step w ev w' :
  call_inv w → rec_inv w → step w ev w' → rec_inv w'.
Proof.
  intros Hci [Hdom Hfresh Hgate Hok Htable] Hs.
  destruct Hs as [c key cm im H|c cm im H H0|c gid e t0 now H|c gid g t0 now H
                 |c gid deadline now H|gid r Hr Ht|gid r Hr Ht
                 |gid r mc g op Hr Ht|gid r mc outcome Hr Ht Hmc
                 |gid idx text|gid].
  - (* a new call *)
    split; simpl; try done.
    + intros c' gid Hc'. destruct (decide (c = c')) as [<-|Hne].
      * rewrite lookup_insert_eq in Hc'. by destruct (check_api_key key).
      * rewrite lookup_insert_ne in Hc' by done. eauto.
    + intros c' gid d Hc'. destruct (decide (c = c')) as [<-|Hne].
      * rewrite lookup_insert_eq in Hc'. by destruct (check_api_key key).
      * rewrite lookup_insert_ne in Hc' by done. eauto.
  - (* entering the critical section *)
    split; simpl; try done.
    + intros g r Hg. apply Hdom in Hg. lia.
    + intros c' gid Hc'. destruct (decide (c = c')) as [<-|Hne].
      * rewrite lookup_insert_eq in Hc'. injection Hc' as <-.
        destruct (_records (st w) !! _next_game_id (st w)) eqn:Hn; [|done].
        apply Hdom in Hn. lia.
      * rewrite lookup_insert_ne in Hc' by done. eauto.
    + intros c' gid d Hc'. destruct (decide (c = c')) as [<-|Hne].
      * by rewrite lookup_insert_eq in Hc'.
      * rewrite lookup_insert_ne in Hc' by done. eauto.
  - (* the construction of the game fails *)
    split; simpl; try done.
    + intros c' gid' Hc'. destruct (decide (c = c')) as [<-|Hne].
      * by rewrite lookup_insert_eq in Hc'.
      * rewrite lookup_insert_ne in Hc' by done. eauto.
    + intros c' gid' d Hc'. destruct (decide (c = c')) as [<-|Hne].
      * by rewrite lookup_insert_eq in Hc'.
      * rewrite lookup_insert_ne in Hc' by done. eauto.
  - (* insertion of the record and first turn of the gate *)
    assert (Hbound : 1 ≤ gid < _next_game_id (st w)).
    { eapply entered_bound; [done|]. by eapply (ci_pc w Hci c). }
    assert (Hnone : _records (st w) !! gid = None) by eauto.
    assert (Hrec' : ∃ f, (∀ r, rec_ok r → rec_ok (f r))
        ∧ (∀ r t, task r = Some t →
             ∃ t', task (f r) = Some t' ∧ task_state t' = task_state t)
        ∧ _records (snd (setup_out gid g t0 now (st w)))
          = alter f gid (<[gid := new_record gid g]> (_records (st w)))
        ∧ _next_game_id (snd (setup_out gid g t0 now (st w)))
          = _next_game_id (st w)
        ∧ human_action_futures (snd (setup_out gid g t0 now (st w)))
          = human_action_futures (st w)).
    { unfold setup_out. set (s1 := setup_state gid g (st w)).
      destruct (after_gate_cases gid
                  (gate_iteration now (t0 + timeout_ms) gid s1) s1)
        as [[Heq _]|(g0 & Hg0 & Hsnd & Hfst)].
      - exists id. rewrite Heq. simpl. rewrite alter_id by done.
        split; [done|]. split; [eauto|]. done.
      - exists (finish_update g0). rewrite Hsnd. simpl.
        split; [apply rec_ok_finish_update|].
        split; [apply finish_update_task_state|]. done. }
    destruct Hrec' as (f & Hf & Hft & Hrecs & Hnext & Htab).
    assert (Hnot : ∀ r, next_pc gid (t0 + timeout_ms) r ≠ PcAllocated gid
                        ∧ ∀ g' d, next_pc gid (t0 + timeout_ms) r = PcGate g' d
                                  → g' = gid).
    { intros [[v|]|e]; simpl; split; try done. by intros g' d [= <- _]. }
    split; simpl; rewrite ?Hrecs, ?Hnext, ?Htab.
    + intros g' r Hg. rewrite alter_insert_eq in Hg.
      destruct (decide (gid = g')) as [<-|Hne]; [done|].
      rewrite lookup_insert_ne in Hg by done. eauto.
    + intros c' gid' Hc'. destruct (decide (c = c')) as [<-|Hne].
      * rewrite lookup_insert_eq in Hc'.
        destruct (setup_out gid g t0 now (st w)) as [[[v|]|e] s']; done.
      * rewrite lookup_insert_ne in Hc' by done.
        destruct Hne. eapply (ci_mutex w Hci); eauto.
    + intros c' gid' d Hc'. rewrite alter_insert_eq.
      destruct (decide (c = c')) as [<-|Hne].
      * rewrite lookup_insert_eq in Hc'. injection Hc' as Hc'.
        apply (proj2 (Hnot _)) in Hc' as ->. by rewrite lookup_insert_eq.
      * rewrite lookup_insert_ne in Hc' by done.
        destruct Hne. eapply (ci_mutex w Hci); eauto.
    + intros g' r Hg. rewrite alter_insert_eq in Hg.
      destruct (decide (gid = g')) as [<-|Hne].
      * rewrite lookup_insert_eq in Hg. injection Hg as <-. apply Hf.
        eexists. split; [reflexivity|]. done.
      * rewrite lookup_insert_ne in Hg by done. eauto.
    + intros g' addr Hg. destruct (Htable g' addr Hg) as (r & mc & Hr & Ht).
      destruct (decide (gid = g')) as [<-|Hne]; [congruence|].
      exists r, mc. rewrite alter_insert_eq, lookup_insert_ne by done. done.
  - (* a later turn of the gate *)
    assert (Hrec' : ∃ f, (∀ r, rec_ok r → rec_ok (f r))
        ∧ (∀ r t, task r = Some t →
             ∃ t', task (f r) = Some t' ∧ task_state t' = task_state t)
        ∧ _records (snd (poll_out gid deadline now (st w)))
          = alter f gid (_records (st w))
        ∧ _next_game_id (snd (poll_out gid deadline now (st w)))
          = _next_game_id (st w)
        ∧ human_action_futures (snd (poll_out gid deadline now (st w)))
          = human_action_futures (st w)).
    { unfold poll_out.
      destruct (after_gate_cases gid
                  (gate_iteration now deadline gid (st w)) (st w))
        as [[Heq _]|(g0 & Hg0 & Hsnd & Hfst)].
      - exists id. rewrite Heq. simpl. rewrite alter_id by done.
        split; [done|]. split; [eauto|]. done.
      - exists (finish_update g0). rewrite Hsnd. simpl.
        split; [apply rec_ok_finish_update|].
        split; [apply finish_update_task_state|]. done. }
    destruct Hrec' as (f & Hf & Hft & Hrecs & Hnext & Htab).
    assert (Hnot : ∀ r, next_pc gid deadline r ≠ PcAllocated gid
                        ∧ ∀ g' d, next_pc gid deadline r = PcGate g' d
                                  → g' = gid).
    { intros [[v|]|e]; simpl; split; try done. by intros g' d [= <- _]. }
    split; simpl; rewrite ?Hrecs, ?Hnext, ?Htab.
    + intros g' r Hg. apply lookup_alter_Some in Hg
        as [(_ & x & Hx & _)|(_ & Hx)]; eauto.
    + intros c' gid' Hc'. rewrite lookup_alter_None.
      destruct (decide (c = c')) as [<-|Hne].
      * rewrite lookup_insert_eq in Hc'.
        destruct (poll_out gid deadline now (st w)) as [[[v|]|e] s']; done.
      * rewrite lookup_insert_ne in Hc' by done. eauto.
    + intros c' gid' d Hc'. rewrite lookup_alter_is_Some.
      destruct (decide (c = c')) as [<-|Hne].
      * rewrite lookup_insert_eq in Hc'. injection Hc' as Hc'.
        apply (proj2 (Hnot _)) in Hc' as ->. eauto.
      * rewrite lookup_insert_ne in Hc' by done. eauto.
    + intros g' r Hg. apply lookup_alter_Some in Hg
        as [(_ & x & Hx & ->)|(_ & Hx)]; eauto.
    + intros g' addr Hg. destruct (Htable g' addr Hg) as (r & mc & Hr & Ht).
      destruct (decide (gid = g')) as [<-|Hne].
      * destruct (Hft r _ Ht) as (t' & Ht' & Hts).
        exists (f r), (must_cancel t'). rewrite lookup_alter_eq, Hr.
        split; [done|]. rewrite Ht'. destruct t'. simpl in *. by subst.
      * exists r, mc. by rewrite lookup_alter_ne.
  - (* the task starts *)
    split; simpl; rewrite ?alter_twice.
    + intros g' r' Hg. apply lookup_alter_Some in Hg
        as [(_ & x & Hx & _)|(_ & Hx)]; eauto.
    + intros c' gid' Hc'. rewrite lookup_alter_None. eauto.
    + intros c' gid' d Hc'. rewrite lookup_alter_is_Some. eauto.
    + intros g' r' Hg. apply lookup_alter_Some in Hg
        as [(<- & x & Hx & ->)|(_ & Hx)]; [|eauto].
      rewrite Hr in Hx. injection Hx as <-.
      destruct (Hok gid r Hr) as (t & Ht' & _ & Hw).
      rewrite Ht in Ht'. injection Ht' as <-.
      eexists. split; [reflexivity|]. split; [done|].
      intros _. by apply Hw.
    + intros g' addr Hg. destruct (Htable g' addr Hg) as (r' & mc & Hr' & Ht').
      destruct (decide (gid = g')) as [<-|Hne]; [congruence|].
      exists r', mc. by rewrite lookup_alter_ne.
  - (* a task cancelled before its first step *)
    split; simpl.
    + intros g' r' Hg. apply lookup_alter_Some in Hg
        as [(_ & x & Hx & _)|(_ & Hx)]; eauto.
    + intros c' gid' Hc'. rewrite lookup_alter_None. eauto.
    + intros c' gid' d Hc'. rewrite lookup_alter_is_Some. eauto.
    + intros g' r' Hg. apply lookup_alter_Some in Hg
        as [(_ & x & Hx & ->)|(_ & Hx)]; [|eauto].
      eexists. split; [reflexivity|]. split; [intros _; by left|done].
    + intros g' addr Hg. destruct (Htable g' addr Hg) as (r' & mc & Hr' & Ht').
      destruct (decide (gid = g')) as [<-|Hne]; [congruence|].
      exists r', mc. by rewrite lookup_alter_ne.
  - (* a step of the engine *)
    destruct (apply_fut_op_frame op gid
                (with_records (alter (set_game g) gid) (st w)))
      as (Hrecs & Hnext & _).
    split; simpl; rewrite ?Hrecs, ?Hnext; simpl.
    + intros g' r' Hg. apply lookup_alter_Some in Hg
        as [(_ & x & Hx & _)|(_ & Hx)]; eauto.
    + intros c' gid' Hc'. rewrite lookup_alter_None. eauto.
    + intros c' gid' d Hc'. rewrite lookup_alter_is_Some. eauto.
    + intros g' r' Hg. apply lookup_alter_Some in Hg
        as [(_ & x & Hx & ->)|(_ & Hx)]; [|eauto].
      apply Hok in Hx. exact Hx.
    + intros g' addr Hg.
      destruct (decide (gid = g')) as [<-|Hne].
      * exists (set_game g r), mc. by rewrite lookup_alter_eq, Hr.
      * assert (Hg' : human_action_futures (st w) !! g' = Some addr).
        { destruct op; simpl in Hg; [done| |].
          - by rewrite lookup_insert_ne in Hg.
          - by rewrite lookup_delete_ne in Hg. }
        destruct (Htable g' addr Hg') as (r' & mc' & Hr' & Ht').
        exists r', mc'. by rewrite lookup_alter_ne.
  - (* the await of the task is over *)
    split; simpl; rewrite ?alter_twice.
    + intros g' r' Hg. apply lookup_alter_Some in Hg
        as [(_ & x & Hx & _)|(_ & Hx)]; eauto.
    + intros c' gid' Hc'. rewrite lookup_alter_None. eauto.
    + intros c' gid' d Hc'. rewrite lookup_alter_is_Some. eauto.
    + intros g' r' Hg. apply lookup_alter_Some in Hg
        as [(_ & x & Hx & ->)|(_ & Hx)]; [|eauto].
      assert (Hdone : task_done
                {| task_state := task_outcome (resume_result outcome);
                   must_cancel := false |} = true).
      { unfold task_done. simpl.
        destruct outcome as [[]|e]; simpl; [done|].
        destruct (is_Exception e); simpl; [done|].
        by destruct (exc_class e). }
      eexists. split; [reflexivity|]. split; [intros _; by left|].
      intros Hnd. simpl in Hnd. congruence.
    + intros g' addr Hg.
      destruct (decide (gid = g')) as [<-|Hne].
      * by rewrite lookup_delete_eq in Hg.
      * rewrite lookup_delete_ne in Hg by done.
        destruct (Htable g' addr Hg) as (r' & mc' & Hr' & Ht').
        exists r', mc'. by rewrite lookup_alter_ne.
  - (* a submission *)
    destruct (submit_frame gid idx text (st w)) as (Hrecs & Hnext & _ & Htab).
    split; simpl; rewrite ?Hrecs, ?Hnext, ?Htab; done.
  - done.
Qed.

Lemma run_inv evs w w' :
  call_inv w ∧ rec_inv w → run evs w = Some w' → call_inv w' ∧ rec_inv w'.
Proof.
  revert w. induction evs as [|ev evs IH]; intros w [Hc Hr]; simpl.
  - by intros [= <-].
  - destruct (exec ev w) as [w1|] eqn:Hex; [|done].
    apply exec_step in Hex. apply IH. split.
    + by eapply call_inv_step.
    + by eapply rec_inv_step.
Qed.

Lemma reachable_inv w : reachable w → call_inv w ∧ rec_inv w.
Proof.
  intros [evs Hrun]. eapply run_inv; [|done].
  split; [apply call_inv_init|apply rec_inv_init].
Qed.

Lemma run_app evs1 evs2 w w1 w2 :
  run evs1 w = Some w1 → run evs2 w1 = Some w2 → run (evs1 ++ evs2) w = Some w2.
Proof.
  revert w. induction evs1 as [|ev evs1 IH]; intros w; simpl.
  - by intros [= ->].
  - destruct (exec ev w); [|done]. apply IH.
Qed.

Lemma reachable_run evs w w' : reachable w → run evs w = Some w' → reachable w'.
Proof. intros [evs0 H0] H. exists (evs0 ++ evs)%list. by eapply run_app. Qed.

Lemma is_terminal_cases st :
  is_terminal st = true ↔ st = "completed" ∨ st = "error".
Proof.
  unfold is_terminal. rewrite orb_true_iff.
  split; (intros [H|H]; [left|right]); by apply String.eqb_eq.
Qed.

(** What one transition does to the status of a record: it leaves it as
    it is, or the status was not final, or [create_game] forces it to
    ["error"] because its gate failed. *)
Lemma step_status w ev w' g r :
  call_inv w → rec_inv w → step w ev w' →
  _records (st w) !! g = Some r →
  ∃ r', _records (st w') !! g = Some r'
        ∧ (status r' = status r
           ∨ is_terminal (status r) = false
           ∨ (status r' = "error"
              ∧ ∃ c now e, ev = EvPoll c now
                           ∧ calls w' !! c = Some (PcRaised e))).
Proof.
  intros Hci Hri Hs Hg.
  destruct Hs as [c key cm im H|c cm im H H0|c gid e t0 now H|c gid g0 t0 now H
                 |c gid deadline now H|gid r0 Hr Ht|gid r0 Hr Ht
                 |gid r0 mc g0 op Hr Ht|gid r0 mc outcome Hr Ht Hmc
                 |gid idx text|gid]; simpl.
  - eauto.
  - eauto.
  - eauto.
  - assert (Hnone : _records (st w) !! gid = None) by (by eapply ri_fresh).
    assert (Hne : gid ≠ g) by congruence.
    exists r. split; [|by left].
    unfold setup_out. set (s1 := setup_state gid g0 (st w)).
    destruct (after_gate_cases gid
                (gate_iteration now (t0 + timeout_ms) gid s1) s1)
      as [[Heq _]|(x & _ & Hsnd & _)].
    + rewrite Heq. simpl. by rewrite lookup_insert_ne.
    + rewrite Hsnd. simpl. rewrite lookup_alter_ne by done.
      by rewrite lookup_insert_ne.
  - unfold poll_out.
    destruct (after_gate_cases gid
                (gate_iteration now deadline gid (st w)) (st w))
      as [[Heq _]|(x & Hx & Hsnd & Hfst)].
    + rewrite Heq. simpl. eauto.
    + rewrite Hsnd. simpl.
      destruct (decide (gid = g)) as [<-|Hne].
      * rewrite lookup_alter_eq, Hg. simpl. eexists. split; [done|].
        unfold finish_update. destruct x as [[]|e].
        -- destruct (is_terminal (status r)) eqn:Hterm; [by left|by right; left].
        -- destruct (is_Exception e) eqn:Hex; [|by left].
           right. right. split; [done|]. exists c, now, e. split; [done|].
           rewrite lookup_insert_eq. unfold after_gate. rewrite Hx. done.
      * rewrite lookup_alter_ne by done. eauto.
  - rewrite alter_twice. destruct (decide (gid = g)) as [<-|Hne].
    + rewrite lookup_alter_eq, Hg. simpl. eexists. split; [done|].
      right. left. rewrite Hg in Hr. injection Hr as <-.
      destruct (ri_ok w Hri gid r Hg) as (t & Ht' & Hok & _).
      rewrite Ht in Ht'. injection Ht' as <-.
      destruct (is_terminal (status r)); [|done].
      destruct (Hok eq_refl) as [?|?]; done.
    + rewrite lookup_alter_ne by done. eauto.
  - destruct (decide (gid = g)) as [<-|Hne].
    + rewrite lookup_alter_eq, Hg. simpl. eauto.
    + rewrite lookup_alter_ne by done. eauto.
  - destruct (apply_fut_op_frame op gid
                (with_records (alter (set_game g0) gid) (st w))) as (-> & _).
    simpl. destruct (decide (gid = g)) as [<-|Hne].
    + rewrite lookup_alter_eq, Hg. simpl. eauto.
    + rewrite lookup_alter_ne by done. eauto.
  - rewrite alter_twice. destruct (decide (gid = g)) as [<-|Hne].
    + rewrite lookup_alter_eq, Hg. simpl. eexists. split; [done|].
      rewrite Hg in Hr. injection Hr as <-.
      destruct (ri_ok w Hri gid r Hg) as (t & Ht' & Hok & _).
      rewrite Ht in Ht'. injection Ht' as <-.
      destruct (is_terminal (status r)) eqn:Hterm; [|by right; left].
      left. destruct (Hok eq_refl) as [Hd|Hm]; [done|]. simpl in Hm.
      specialize (Hmc Hm). unfold is_cancellation in Hmc.
      destruct outcome as [[]|e]; [done|]. unfold resume_update, is_Exception.
      by destruct (exc_class e).
    + rewrite lookup_alter_ne by done. eauto.
  - destruct (submit_frame gid idx text (st w)) as (-> & _). eauto.
  - eauto.
Qed.

(** Along any run a record stays registered, a final status stays final
    and ["error"] stays ["error"]. *)
Lemma status_stable_run evs w w' g r :
  call_inv w ∧ rec_inv w → run evs w = Some w' →
  _records (st w) !! g = Some r →
  ∃ r', _records (st w') !! g = Some r'
        ∧ (is_terminal (status r) = true → is_terminal (status r') = true)
        ∧ (status r = "error" → status r' = "error").
Proof.
  revert w r. induction evs as [|ev evs IH]; intros w r [Hc Hr] Hrun Hg.
  - simpl in Hrun. injection Hrun as <-. eauto.
  - simpl in Hrun. destruct (exec ev w) as [w1|] eqn:Hex; [|done].
    apply exec_step in Hex.
    destruct (step_status w ev w1 g r Hc Hr Hex Hg) as (r1 & Hg1 & Hst).
    destruct (IH w1 r1) as (r' & Hg' & Hterm & Herr); [|done|done|].
    { split; [by eapply call_inv_step|by eapply rec_inv_step]. }
    exists r'. split; [done|]. split.
    + intros Ht. apply Hterm.
      destruct Hst as [->|[Hn|[-> _]]]; [done|congruence|done].
    + intros He. apply Herr.
      destruct Hst as [->|[Hn|[-> _]]]; [done| |done].
      rewrite He in Hn. done.
Qed.

(** C2.  In every state the system can reach by any interleaving of
    [create_game] calls, tasks, engine steps and requests: the
    identifiers given out, in the order in which the calls entered the
    critical section, are strictly increasing (they are 1, 2, 3, ...);
    a call returns the identifier it was given on entering, and two
    calls never return the same one; at most one call is inside the
    critical section, and the lock is held exactly while one is; and
    while a call sits between the allocation of its identifier and the
    insertion of its record, no other call can allocate or insert. *)
Theorem create_game_ids (w : World) :
  reachable w →
  (∀ i j c1 c2 g1 g2,
     entered w !! i = Some (c1, g1) → entered w !! j = Some (c2, g2) →
     (i < j)%nat → g1 < g2)
  ∧ (∀ i c gid, entered w !! i = Some (c, gid) → gid = 1 + Z.of_nat i)
  ∧ (∀ c gid, calls w !! c = Some (PcReturned gid) → (c, gid) ∈ entered w)
  ∧ (∀ c1 c2 gid,
       calls w !! c1 = Some (PcReturned gid) →
       calls w !! c2 = Some (PcReturned gid) → c1 = c2)
  ∧ (∀ c1 c2 pc1 pc2,
       calls w !! c1 = Some pc1 → calls w !! c2 = Some pc2 →
       in_critical pc1 = true → in_critical pc2 = true → c1 = c2)
  ∧ (_init_lock (st w) = true ↔
     ∃ c pc, calls w !! c = Some pc ∧ in_critical pc = true)
  ∧ (∀ c gid c',
       calls w !! c = Some (PcAllocated gid) → c' ≠ c →
       exec (EvEnter c') w = None
       ∧ ∀ built t0 now, exec (EvSetup c' built t0 now) w = None).
Proof.
  intros Hreach. destruct (reachable_inv w Hreach) as [Hci Hri].
  split; [|split; [|split; [|split; [|split; [|split]]]]].
  - intros i j c1 c2 g1 g2 Hi Hj Hlt.
    rewrite (ci_ids w Hci i c1 g1 Hi), (ci_ids w Hci j c2 g2 Hj). lia.
  - apply (ci_ids w Hci).
  - intros c gid Hc. by eapply (ci_pc w Hci).
  - intros c1 c2 gid H1 H2.
    assert (Hin1 : (c1, gid) ∈ entered w) by (by eapply (ci_pc w Hci)).
    assert (Hin2 : (c2, gid) ∈ entered w) by (by eapply (ci_pc w Hci)).
    apply list_elem_of_lookup_1 in Hin1 as [i Hi].
    apply list_elem_of_lookup_1 in Hin2 as [j Hj].
    pose proof (ci_ids w Hci i c1 gid Hi) as E1.
    pose proof (ci_ids w Hci j c2 gid Hj) as E2.
    assert (i = j) as -> by lia. congruence.
  - apply (ci_mutex w Hci).
  - split; [apply (ci_unlock w Hci)|].
    intros (c & pc & Hc & Hcr). by eapply (ci_lock w Hci).
  - intros c gid c' Hc Hne. split.
    + simpl. destruct (calls w !! c') as [[| | | |]|]; try done.
      by rewrite (ci_lock w Hci c _ Hc).
    + intros built t0 now. simpl.
      destruct (calls w !! c') as [[|gid'| | |]|] eqn:Hc'; try done.
      destruct Hne. by eapply (ci_mutex w Hci).
Qed.

Lemma two_calls_reachable : reachable two_calls_world.
Proof. exists two_calls_run. vm_compute. reflexivity. Qed.

Lemma create_game_ids_witness :
  reachable two_calls_world
  ∧ entered two_calls_world = [(1%nat, 1); (0%nat, 2)]
  ∧ 1 < 2.
Proof.
  split; [exact two_calls_reachable|].
  split; [vm_compute; reflexivity|].
  apply (proj1 (create_game_ids two_calls_world two_calls_reachable)
           0%nat 1%nat 1%nat 0%nat 1 2);
    [vm_compute; reflexivity | vm_compute; reflexivity | lia].
Defined.

(** The claim of C3 fails: session 1 completes before a human agent is
    seen, and the next turn of the gate makes [create_game] overwrite
    ["completed"] with ["error"]. *)
Lemma terminal_status_not_frozen : ¬ terminal_status_frozen.
Proof.
  intros H.
  assert (Hr : reachable completed_world).
  { exists premature_run. vm_compute. reflexivity. }
  specialize (H completed_world (EvPoll 0 50) failed_world 1
                completed_record failed_record Hr).
  assert (Hbad : status failed_record = status completed_record).
  { apply H; vm_compute; reflexivity. }
  discriminate Hbad.
Qed.

(** What a failed turn of the gate writes into the record of the
    session. *)
Lemma poll_failure w c now w' g deadline e r :
  step w (EvPoll c now) w' →
  calls w !! c = Some (PcGate g deadline) →
  gate_iteration now deadline g (st w) = GateRaise e →
  _records (st w) !! g = Some r →
  _records (st w') !! g = Some (finish_update (Raise e) r)
  ∧ calls w' !! c = Some (PcRaised e).
Proof.
  intros Hs Hc Hit Hg.
  inversion Hs as [| | | |c' gid d now' Hc'| | | | | |]; subst.
  rewrite Hc in Hc'. injection Hc' as <- <-.
  simpl. unfold poll_out, after_gate. rewrite Hit. simpl.
  rewrite lookup_alter_eq, Hg, lookup_insert_eq. done.
Qed.

(** A turn of the gate that changes a final status is a failed turn of
    the gate of that session. *)
Lemma poll_overwrite w c now w' g r r' :
  step w (EvPoll c now) w' →
  _records (st w) !! g = Some r →
  is_terminal (status r) = true →
  _records (st w') !! g = Some r' →
  status r' ≠ status r →
  ∃ deadline e,
    calls w !! c = Some (PcGate g deadline)
    ∧ gate_iteration now deadline g (st w) = GateRaise e
    ∧ is_Exception e = true
    ∧ r' = finish_update (Raise e) r.
Proof.
  intros Hs Hg Hterm Hg' Hne.
  inversion Hs as [| | | |c' gid d now' Hc| | | | | |]; subst.
  simpl in Hg'. unfold poll_out, after_gate in Hg'.
  destruct (gate_iteration now d gid (st w)) as [| |e] eqn:Hit;
    simpl in Hg'.
  - destruct (decide (gid = g)) as [->|Hgg].
    + rewrite lookup_alter_eq, Hg in Hg'. simpl in Hg'.
      rewrite Hterm in Hg'. congruence.
    + rewrite lookup_alter_ne in Hg' by done. congruence.
  - congruence.
  - destruct (decide (gid = g)) as [->|Hgg].
    + rewrite lookup_alter_eq, Hg in Hg'. simpl in Hg'.
      destruct (is_Exception e) eqn:Hex; [|congruence].
      exists d, e. split; [done|]. split; [done|]. split; [done|].
      simpl. rewrite Hex. congruence.
    + rewrite lookup_alter_ne in Hg' by done. congruence.
Qed.

(** C3, amended.  In a reachable state, a transition never takes a final
    status back to a status that is not final, and never changes
    ["error"].  The only change of a final status is from ["completed"]
    to ["error"]; it is made by [create_game], in the handler that runs
    when the readiness gate of that session fails, and the gate fails
    then in one of two ways: with [TimeoutError], because the deadline
    has passed (the gate tests the deadline before it looks at the task),
    or with the [RuntimeError] of a premature completion, because the
    task had finished before the gate saw a human agent; the text of the
    failure becomes the error of the record.  Conversely each of the two
    failures of the gate forces the status to ["error"].  The task and
    the submission path never change a final status.  Hence every later
    submission for the id fails with the [RuntimeError] of a finished
    session. *)
Theorem terminal_status_stable (w w' : World) (ev : Event) (gid : Z)
    (r : GameRecord) :
  reachable w →
  exec ev w = Some w' →
  _records (st w) !! gid = Some r →
  is_terminal (status r) = true →
  ∃ r', _records (st w') !! gid = Some r'
        ∧ is_terminal (status r') = true
        ∧ (status r = "error" → status r' = "error")
        ∧ (status r' ≠ status r →
           status r = "completed" ∧ status r' = "error"
           ∧ ∃ c now deadline e,
               ev = EvPoll c now
               ∧ calls w !! c = Some (PcGate gid deadline)
               ∧ calls w' !! c = Some (PcRaised e)
               ∧ error r' = Some (str_exc e)
               ∧ ((deadline ≤ now ∧ e = gate_timeout)
                  ∨ (now < deadline
                     ∧ turn_task_done (st w) gid = true
                     ∧ e = premature_completion
                             (turn_task_exc (st w) gid))))
        ∧ (∀ c now deadline,
             ev = EvPoll c now →
             calls w !! c = Some (PcGate gid deadline) →
             (deadline ≤ now →
              status r' = "error"
              ∧ error r' = Some (str_exc gate_timeout))
             ∧ (now < deadline →
                turn_task_done (st w) gid = true →
                turn_task_cancelled (st w) gid = false →
                status r' = "error"
                ∧ error r'
                  = Some (str_exc (premature_completion
                                     (turn_task_exc (st w) gid)))))
        ∧ (∀ evs w2 idx text,
             run evs w' = Some w2 →
             fst (submit_human_action gid idx text (st w2))
             = Raise (submit_error_exc InvalidState (st w2) gid idx)
             ∧ snd (submit_human_action gid idx text (st w2)) = st w2).
Proof.
  intros Hreach Hex Hg Hterm.
  destruct (reachable_inv w Hreach) as [Hci Hri].
  pose proof (exec_step ev w w' Hex) as Hs.
  destruct (step_status w ev w' gid r Hci Hri Hs Hg) as (r' & Hg' & Hst).
  assert (Hterm' : is_terminal (status r') = true).
  { destruct Hst as [->|[Hn|[-> _]]]; [done|congruence|done]. }
  exists r'. split; [done|]. split; [done|]. split; [|split; [|split]].
  - intros He. destruct Hst as [->|[Hn|[-> _]]]; [done|congruence|done].
  - intros Hne. destruct Hst as [Heq|[Hn|[He Hev]]]; [done|congruence|].
    split.
    { apply is_terminal_cases in Hterm as [Hc|Herr]; [done|]. congruence. }
    split; [done|].
    destruct Hev as (c & now & e0 & -> & Hpc).
    destruct (poll_overwrite w c now w' gid r r' Hs Hg Hterm Hg' Hne)
      as (deadline & e & Hc & Hit & Hexc & ->).
    destruct (poll_failure w c now w' gid deadline e r Hs Hc Hit Hg)
      as [_ Hpc'].
    exists c, now, deadline, e. split; [done|]. split; [done|].
    split; [done|]. split; [simpl; by rewrite Hexc|].
    destruct (gate_raise_cases now deadline gid (st w) e Hit) as [?|?];
      [by eexists|done|by left|right; intuition].
  - intros c now deadline -> Hc. split.
    + intros Hd.
      assert (Hit : gate_iteration now deadline gid (st w)
                    = GateRaise gate_timeout).
      { rewrite gate_iteration_cases.
        destruct (Z.ltb_spec now deadline); [lia|done]. }
      destruct (poll_failure w c now w' gid deadline _ r Hs Hc Hit Hg)
        as [Hr' _].
      rewrite Hg' in Hr'. injection Hr' as ->. done.
    + intros Hd Hdone Hcan.
      assert (Hit : gate_iteration now deadline gid (st w)
                    = GateRaise (premature_completion
                                   (turn_task_exc (st w) gid))).
      { rewrite gate_iteration_cases, Hg, Hdone, Hcan.
        destruct (Z.ltb_spec now deadline); [done|lia]. }
      destruct (poll_failure w c now w' gid deadline _ r Hs Hc Hit Hg)
        as [Hr' _].
      rewrite Hg' in Hr'. injection Hr' as ->.
      by destruct (turn_task_exc (st w) gid).
  - intros evs w2 idx text Hrun.
    destruct (status_stable_run evs w' w2 gid r') as (r2 & Hg2 & Ht2 & _);
      [|done|done|].
    { split; [by eapply call_inv_step|by eapply rec_inv_step]. }
    rewrite submit_refines_spec. unfold spec_submit_check.
    rewrite Hg2, (Ht2 Hterm'). done.
Qed.

Lemma terminal_status_stable_witness :
  ∃ r', _records (st failed_world) !! 1 = Some r'
        ∧ is_terminal (status r') = true.
Proof.
  assert (Hr : reachable completed_world).
  { exists premature_run. vm_compute. reflexivity. }
  destruct (terminal_status_stable completed_world failed_world (EvPoll 0 50)
              1 completed_record Hr)
    as (r' & Hg & Ht & _);
    [vm_compute; reflexivity | vm_compute; reflexivity | reflexivity |].
  exists r'. done.
Defined.

Lemma get_state_readable gid s r :
  _records s !! gid = Some r →
  view_readable (game r) →
  ∃ snap, get_state gid s = Ok snap ∧ snap_status snap = status r.
Proof.
  intros Hr [Hv Hn]. unfold get_state. rewrite Hr.
  destruct (turn_view _ _) as [[[aa pi] cs]|]; [|done].
  destruct (human_name _); [|done].
  eexists. split; [reflexivity|]. done.
Qed.



(** C4.  However the await of [run_game] ends (it returns, it raises an
    exception, or the cancellation of the task comes out of it), the
    [finally] block leaves no entry for the session in
    [human_action_futures]; the future that was registered, if still
    pending, is cancelled; every other future object and the entries of
    the other sessions are as before; no submission for that id is
    accepted in the state the task leaves.  In every reachable state a
    session whose task is over has no entry in the table, and no
    submission for it is accepted. *)
Theorem run_game_cleanup (gid : Z) (outcome : PyResult unit) (s : State) :
  let s' := snd (_run_game_resume gid outcome s) in
  human_action_futures s' !! gid = None
  ∧ (∀ addr, human_action_futures s !! gid = Some addr →
             future_heap s !! addr = Some FutPending →
             future_heap s' !! addr = Some FutCancelled)
  ∧ (∀ addr, ¬ (human_action_futures s !! gid = Some addr
                ∧ future_heap s !! addr = Some FutPending) →
             future_heap s' !! addr = future_heap s !! addr)
  ∧ (∀ g, g ≠ gid →
          human_action_futures s' !! g = human_action_futures s !! g)
  ∧ (∀ idx text, fst (submit_human_action gid idx text s') ≠ Ok tt)
  ∧ (∀ w r t,
       reachable w →
       _records (st w) !! gid = Some r →
       task r = Some t →
       task_done t = true →
       human_action_futures (st w) !! gid = None
       ∧ ∀ idx text, fst (submit_human_action gid idx text (st w)) ≠ Ok tt).
Proof.
  intros s'. subst s'.
  destruct (cleanup_after_await gid outcome s) as (H1 & H2 & H3 & H4 & H5).
  do 5 (split; [done|]).
  intros w r t Hreach Hr Ht Hd.
  destruct (reachable_inv w Hreach) as [_ Hri].
  assert (Hnone : human_action_futures (st w) !! gid = None).
  { destruct (human_action_futures (st w) !! gid) as [addr|] eqn:Hf; [|done].
    destruct (ri_table w Hri gid addr Hf) as (r' & mc & Hr' & Ht').
    rewrite Hr in Hr'. injection Hr' as <-. rewrite Ht in Ht'.
    injection Ht' as ->. done. }
  split; [done|].
  intros idx text. rewrite submit_refines_spec.
  unfold spec_submit_check, pending_request. rewrite Hr, Hnone.
  destruct (is_terminal (status r)); [done|].
  by destruct (_find_human_agent (game r)).
Qed.

Lemma get_state_degrades_witness :
  ∃ snap, get_state 1 failing_prompt_state = Ok snap
          ∧ snap_player_info snap = None
          ∧ snap_available_actions snap = [].
Proof.
  destruct (get_state_degrades 1 failing_prompt_state
              (set_game
                 {| agents := Some [LLMAgent (Some failing_prompt_player);
                                    HumanAgent demo_human];
                    current_player := Some "Player 2: blue";
                    current_phase := Some "task";
                    timestep := Some 1;
                    game_config := None;
                    players := None;
                    activity_log := None;
                    summary_json := ∅ |}
                 (demo_record "running" TaskSuspended)) eq_refl)
    as (H & _).
  destruct (H (LLMAgent (Some failing_prompt_player)) failing_prompt_player
           (Exc OtherException (ArgStr "no observation yet") None)
           (Some "Player 1: red"))
    as (snap & Hs & Hi & Ha & _); try reflexivity.
  exists snap. split; [exact Hs|]. split; [exact Hi|exact Ha].
Defined.

Lemma gate_outcome_witness :
  ∃ (k : nat) (r : PyResult unit),
    (k ≤ Z.to_nat (timeout_ms / poll_interval_ms) + 1)%nat
    ∧ (∀ fuel, (k < fuel)%nat →
         _wait_for_human_agent_ready fuel 1 timeout_ms 0 demo_obs = Some r).
Proof.
  destruct (gate_outcome 1 timeout_ms 0 demo_obs) as (k & r & Hk & Hrun & _).
  - simpl. lia.
  - intros k. unfold demo_obs, poll_interval_ms. simpl. lia.
  - exists k, r. split; [exact Hk|exact Hrun].
Defined.



(** ** Concrete checks *)

(** Four actions are offered and index 99 is submitted: [ValueError],
    state unchanged. *)
Example submit_index_99 :
  submit_human_action 1 99 (Some "hi") four_actions_state
  = (Raise (Exc ValueError (ArgStr "action_index out of range: 99") None),
     four_actions_state).
Proof. vm_compute. reflexivity. Qed.

Example submit_negative_index :
  fst (submit_human_action 1 (-1) None waiting_state)
  = Raise (Exc ValueError (ArgStr "action_index out of range: -1") None).
Proof. reflexivity. Qed.

Example submit_unknown_id :
  fst (submit_human_action 7 0 None waiting_state)
  = Raise (Exc KeyError (ArgStr "Unknown game_id=7") None).
Proof. reflexivity. Qed.

Example serialize_speak_entry :
  serialize_entry
    {| entry_phase := Some "meeting"; entry_player := Some demo_player;
       entry_action := Some "SPEAK:  I saw blue vent ";
       entry_round := Some 0; entry_timestep := Some 7 |}
  = Some {| msg_id := "7:0:Player 1: red:I saw blue vent";
            msg_timestep := Some 7; msg_round := Some 0;
            msg_player := "Player 1: red";
            msg_text := "I saw blue vent" |}.
Proof. reflexivity. Qed.

Example serialize_empty_speech :
  msg_text <$> serialize_entry
    {| entry_phase := Some "meeting"; entry_player := Some demo_player;
       entry_action := Some "SPEAK"; entry_round := None;
       entry_timestep := None |}
  = Some "...".
Proof. reflexivity. Qed.

Example serialize_task_phase_entry :
  serialize_entry
    {| entry_phase := Some "task"; entry_player := Some demo_player;
       entry_action := Some "SPEAK: hello"; entry_round := Some 0;
       entry_timestep := Some 7 |}
  = None.
Proof. reflexivity. Qed.

Example get_state_human_turn :
  (fun snap => (snap_status snap, snap_is_human_turn snap,
                snap_has_human snap, length (snap_available_actions snap),
                snap_human_player_name snap))
  <$> (match get_state 1 waiting_state with
       | Ok snap => Some snap
       | Raise _ => None
       end)
  = Some ("running", true, true, 2%nat, Some "Player 1: red").
Proof. reflexivity. Qed.

Example first_turn_of_gate_sleeps :
  gate_iteration 0 timeout_ms 1
    (setup_state 1 blank_game (with_lock true init_state))
  = GateSleep.
Proof. reflexivity. Qed.

Example key_error_text :
  str_exc (Exc KeyError (ArgStr "Unknown game_id=3") None)
  = "'Unknown game_id=3'".
Proof. reflexivity. Qed.

(** Whitespace beyond the ASCII range is stripped as well. *)
Example strip_wide_spaces :
  strip (nbsp ++ " key" ++ ideographic_space ++ nbsp) = "key".
Proof. vm_compute. reflexivity. Qed.

Example validate_env_no_break_space :
  validate_env (Some (nbsp ++ " "))
  = Exit 1 ("ERROR: OPENROUTER_API_KEY is not set. "
            ++ "Add it to .env or your environment.").
Proof. vm_compute. reflexivity. Qed.

Example serialize_wide_space_entry :
  msg_text <$> serialize_entry
    {| entry_phase := Some "meeting"; entry_player := Some demo_player;
       entry_action := Some ("SPEAK" ++ nbsp ++ ":" ++ ideographic_space
                             ++ "red is safe" ++ nbsp);
       entry_round := Some 1; entry_timestep := Some 9 |}
  = Some "red is safe".
Proof. vm_compute. reflexivity. Qed.

(** The deadline is tested first: a session that completed before a
    human agent was seen is set to ["error"] with the text of the
    timeout when the next turn of the gate comes after the deadline. *)
Example completed_then_timed_out :
  reachable completed_world
  ∧ _records (st completed_world) !! 1 = Some completed_record
  ∧ exec (EvPoll 0 10000) completed_world = Some overdue_world
  ∧ _records (st overdue_world) !! 1 = Some overdue_record
  ∧ calls overdue_world !! 0%nat = Some (PcRaised gate_timeout).
Proof.
  split; [exists premature_run; vm_compute; reflexivity|].
  repeat split; vm_compute; reflexivity.
Qed.

(** A task cancelled while the creating call is asleep in the gate: the
    next turn of the gate ends [create_game] in [CancelledError], and
    the record keeps the status ["running"]. *)
Example cancelled_task_in_gate :
  reachable cancelled_world
  ∧ calls cancelled_world !! 0%nat = Some (PcGate 1 10000)
  ∧ turn_task_cancelled (st cancelled_world) 1 = true
  ∧ (exec (EvPoll 0 50) cancelled_world ≫= λ w, calls w !! 0%nat)
    = Some (PcRaised cancelled_error)
  ∧ (exec (EvPoll 0 50) cancelled_world
       ≫= λ w, status <$> _records (st w) !! 1)
    = Some "running".
Proof.
  split.
  { exists (running_run ++ [EvTaskResume 1 (Raise cancelled_error)])%list.
    vm_compute. reflexivity. }
  repeat split; vm_compute; reflexivity.
Qed.

(** * Further properties of the code *)

(** ** Lookups in the simulation *)

Lemma first_human_split l h :
  first_human l = Some h ↔
  ∃ pre post, l = (pre ++ HumanAgent h :: post)%list
              ∧ Forall (fun a => ∃ p, a = LLMAgent p) pre.
Proof.
  split.
  - induction l as [|[h'|p] l IH]; simpl; [done| |].
    + intros [= ->]. exists [], l. split; [done|constructor].
    + intros Hl. destruct (IH Hl) as (pre & post & -> & Hpre).
      exists (LLMAgent p :: pre), post. split; [done|].
      constructor; eauto.
  - intros (pre & post & -> & Hpre).
    induction Hpre as [|a pre [p ->] _ IH]; simpl; done.
Qed.

Lemma first_human_none l :
  first_human l = None ↔ Forall (fun a => ∃ p, a = LLMAgent p) l.
Proof.
  split.
  - induction l as [|[h'|p] l IH]; simpl; [constructor|done|].
    intros Hl. constructor; eauto.
  - intros Hl. induction Hl as [|a l [p ->] _ IH]; simpl; done.
Qed.

Lemma find_human_split g h :
  _find_human_agent g = Some h →
  ∃ pre post, agents g = Some (pre ++ HumanAgent h :: post)%list
              ∧ Forall (fun a => ∃ p, a = LLMAgent p) pre.
Proof.
  unfold _find_human_agent. rewrite first_human_split.
  intros (pre & post & Hl & Hpre). exists pre, post. split; [|done].
  destruct (agents g) as [l|]; simpl in Hl; [by rewrite Hl|].
  by destruct pre.
Qed.

Lemma find_human_none g :
  _find_human_agent g = None → ∀ h, HumanAgent h ∉ or_nil (agents g).
Proof.
  unfold _find_human_agent. rewrite first_human_none, Forall_forall.
  intros Hall h Hin. destruct (Hall _ Hin) as [p Hp]. done.
Qed.

(** X1.  [_find_human_agent] returns the first [HumanAgent] of
    [game.agents] in list order: every agent before it is of another
    kind; it returns [None] exactly when no agent is a [HumanAgent],
    which includes a game whose [agents] attribute is missing, [None] or
    empty. *)
Theorem find_human_agent_first (g : AmongUs) :
  (∀ h, _find_human_agent g = Some h ↔
        ∃ pre post, agents g = Some (pre ++ HumanAgent h :: post)%list
                    ∧ Forall (fun a => ∃ p, a = LLMAgent p) pre)
  ∧ (_find_human_agent g = None ↔
     ∀ h, HumanAgent h ∉ or_nil (agents g)).
Proof.
  unfold _find_human_agent. split.
  - intros h. rewrite first_human_split.
    destruct (agents g) as [l|]; simpl.
    + split; intros (pre & post & Hl & Hpre); exists pre, post.
      * by rewrite Hl.
      * by injection Hl as ->.
    + split; intros (pre & post & Hl & _); [|done].
      by destruct pre.
  - rewrite first_human_none. rewrite Forall_forall. split.
    + intros Hall h Hin. destruct (Hall _ Hin) as [p Hp]. done.
    + intros Hno a Hin. destruct a as [h|p]; [|eauto].
      by destruct (Hno h).
Qed.

Lemma first_named_sound n l a :
  first_named n l = Some a →
  ∃ pre post p, l = (pre ++ a :: post)%list
    ∧ agent_player a = Some p ∧ name p = n
    ∧ Forall (fun b => ∀ q, agent_player b = Some q → name q ≠ n) pre.
Proof.
  induction l as [|b l IH]; simpl; [done|].
  destruct (agent_player b) as [q|] eqn:Hq.
  - destruct (String.eqb_spec (name q) n) as [Heq|Hne].
    + intros [= ->]. exists [], l, q. split; [done|].
      split; [done|]. split; [done|constructor].
    + intros Hl. destruct (IH Hl) as (pre & post & p & -> & Hp & Hn & Hpre).
      exists (b :: pre), post, p. split; [done|]. split; [done|].
      split; [done|]. constructor; [|done]. intros q' Hq'. congruence.
  - intros Hl. destruct (IH Hl) as (pre & post & p & -> & Hp & Hn & Hpre).
    exists (b :: pre), post, p. split; [done|]. split; [done|].
    split; [done|]. constructor; [|done]. intros q' Hq'. congruence.
Qed.

Lemma first_named_none n l :
  first_named n l = None ↔
  ∀ b q, b ∈ l → agent_player b = Some q → name q ≠ n.
Proof.
  induction l as [|b l IH]; simpl.
  - split; [|done]. intros _ b q Hin. by apply elem_of_nil in Hin.
  - destruct (agent_player b) as [q|] eqn:Hq.
    + destruct (String.eqb_spec (name q) n) as [Heq|Hne].
      * split; [done|]. intros Hall. destruct (Hall b q); [left|done|done].
      * rewrite IH. split.
        -- intros Hall b' q' Hin Hq'. apply elem_of_cons in Hin as [->|Hin].
           ++ congruence.
           ++ eauto.
        -- intros Hall b' q' Hin Hq'. apply (Hall b' q'); [by right|done].
    + rewrite IH. split.
      * intros Hall b' q' Hin Hq'. apply elem_of_cons in Hin as [->|Hin].
        -- congruence.
        -- eauto.
      * intros Hall b' q' Hin Hq'. apply (Hall b' q'); [by right|done].
Qed.

Lemma find_current_agent_some g a :
  _find_current_agent g = Some a →
  ∃ n pre post p,
    current_player g = Some n ∧ n ≠ ""
    ∧ agents g = Some (pre ++ a :: post)%list
    ∧ agent_player a = Some p ∧ name p = n
    ∧ Forall (fun b => ∀ q, agent_player b = Some q → name q ≠ n) pre.
Proof.
  unfold _find_current_agent.
  destruct (current_player g) as [[|c n]|] eqn:Hcp; [done| |done].
  intros Hf. apply first_named_sound in Hf
    as (pre & post & p & Hl & Hp & Hn & Hpre).
  exists (String c n), pre, post, p. split; [done|]. split; [done|].
  split; [|done].
  destruct (agents g) as [l|]; simpl in Hl; [by rewrite Hl|].
  by destruct pre.
Qed.

(** X2.  When [_find_current_agent] returns an agent, [current_player]
    is a non-empty name, the agent is in [game.agents], it has a player
    of exactly that name, and no agent before it has one.  It returns
    [None] exactly when [current_player] is missing or empty, or no
    agent has a player of that name. *)
Theorem find_current_agent_sound (g : AmongUs) :
  (∀ a, _find_current_agent g = Some a →
        ∃ n pre post p,
          current_player g = Some n ∧ n ≠ ""
          ∧ agents g = Some (pre ++ a :: post)%list
          ∧ agent_player a = Some p ∧ name p = n
          ∧ Forall (fun b => ∀ q, agent_player b = Some q → name q ≠ n) pre)
  ∧ (_find_current_agent g = None ↔
     current_player g = None ∨ current_player g = Some ""
     ∨ ∃ n, current_player g = Some n
            ∧ ∀ b q, b ∈ or_nil (agents g) → agent_player b = Some q →
                     name q ≠ n).
Proof.
  unfold _find_current_agent. split.
  - intros a. destruct (current_player g) as [[|c n]|] eqn:Hcp; [done| |done].
    intros Hf. apply first_named_sound in Hf
      as (pre & post & p & Hl & Hp & Hn & Hpre).
    exists (String c n), pre, post, p. split; [done|]. split; [done|].
    split; [|done].
    destruct (agents g) as [l|]; simpl in Hl; [by rewrite Hl|].
    by destruct pre.
  - destruct (current_player g) as [[|c n]|] eqn:Hcp.
    + split; [eauto|done].
    + rewrite first_named_none. split.
      * intros Hall. right. right. eauto.
      * intros [?|[?|(n' & [= <-] & Hall)]]; done.
    + split; [eauto|done].
Qed.

Lemma lookup_map {A B} (f : A → B) (l : list A) (i : nat) :
  map f l !! i = f <$> l !! i.
Proof.
  revert i. induction l as [|x l IH]; intros [|i]; simpl; done.
Qed.

(** X3.  [_serialize_player_positions] yields one entry per player, in
    the order of [game.players], each carrying the name, location, color
    and liveness of its player; a missing or [None] list of players
    gives the empty list. *)
Theorem serialize_player_positions_pointwise (g : AmongUs) :
  length (_serialize_player_positions g) = length (or_nil (players g))
  ∧ (∀ i p, or_nil (players g) !! i = Some p →
       _serialize_player_positions g !! i
       = Some {| pos_name := name p; pos_room := location p;
                 pos_color := color p; pos_is_alive := is_alive p |})
  ∧ (∀ i v, _serialize_player_positions g !! i = Some v →
       ∃ p, or_nil (players g) !! i = Some p ∧ pos_name v = name p
            ∧ pos_room v = location p ∧ pos_is_alive v = is_alive p)
  ∧ (players g = None → _serialize_player_positions g = []).
Proof.
  unfold _serialize_player_positions. split; [apply length_map|].
  split; [|split].
  - intros i p Hp. by rewrite lookup_map, Hp.
  - intros i v Hv. rewrite lookup_map in Hv.
    destruct (or_nil (players g) !! i) as [p|]; [|done].
    injection Hv as <-. exists p. done.
  - by intros ->.
Qed.

(** ** Meeting messages *)

Lemma drop_spaces_head len fuel l :
  len [] = 0%nat → (length l ≤ fuel)%nat →
  len (drop_spaces len fuel l) = 0%nat.
Proof.
  intros Hnil. revert l. induction fuel as [|fuel IH]; intros l Hl; simpl.
  - destruct l; [done|]. simpl in Hl. lia.
  - destruct (len l) as [|n] eqn:Hn; [done|].
    apply IH. rewrite length_drop.
    destruct l; [congruence|]. simpl in Hl. simpl. lia.
Qed.

Lemma drop_spaces_suffix len fuel l :
  ∃ pre, l = (pre ++ drop_spaces len fuel l)%list.
Proof.
  revert l. induction fuel as [|fuel IH]; intros l; simpl; [by exists []|].
  destruct (len l) as [|n]; [by exists []|].
  destruct (IH (drop (S n) l)) as [pre Hpre].
  exists (take (S n) l ++ pre)%list.
  rewrite <- app_assoc, <- Hpre. by rewrite take_drop.
Qed.

(** A whitespace character at the head of a text is at the head of every
    extension of the text. *)
Lemma space_len_app l more :
  space_len l ≠ 0%nat → space_len (l ++ more) = space_len l.
Proof.
  destruct l as [|a [|b [|c l]]]; simpl; try done.
  - destruct (is_space a); [done|]. done.
  - destruct (is_space a); [done|].
    destruct (two_byte_space _ _); [done|]. done.
Qed.

Lemma strip_bytes_trimmed l :
  let t := drop_spaces space_len (length l) l in
  let u := List.rev (drop_spaces space_len_rev (length t) (List.rev t)) in
  space_len u = 0%nat ∧ space_len_rev (List.rev u) = 0%nat.
Proof.
  intros t u.
  assert (Ht : space_len t = 0%nat) by (by apply drop_spaces_head).
  assert (Hm : space_len_rev (List.rev u) = 0%nat).
  { unfold u. rewrite rev_involutive. apply drop_spaces_head; [done|].
    by rewrite length_rev. }
  split; [|done].
  destruct (drop_spaces_suffix space_len_rev (length t) (List.rev t))
    as [pre Hpre].
  assert (Hu : t = (u ++ List.rev pre)%list).
  { unfold u. rewrite <- rev_app_distr, <- Hpre. by rewrite rev_involutive. }
  destruct (space_len u) as [|n] eqn:Hn; [done|].
  rewrite Hu, space_len_app, Hn in Ht; [done|]. by rewrite Hn.
Qed.

(** The result of [strip] neither starts nor ends with whitespace. *)
Lemma strip_trimmed s :
  starts_with_space (strip s) = false ∧ ends_with_space (strip s) = false.
Proof.
  unfold starts_with_space, ends_with_space, strip, rstrip, lstrip.
  rewrite !list_ascii_of_string_of_list_ascii.
  destruct (strip_bytes_trimmed (list_ascii_of_string s)) as [H1 H2].
  cbv zeta in H1, H2. by rewrite H1, H2.
Qed.

Lemma serialize_entry_Some e m :
  serialize_entry e = Some m →
  is_meeting_speech e
  ∧ (∃ p, entry_player e = Some p ∧ msg_player m = name p)
  ∧ msg_timestep m = entry_timestep e
  ∧ msg_round m = entry_round e
  ∧ msg_id m = str_opt_int (entry_timestep e) ++ ":"
               ++ str_opt_int (entry_round e) ++ ":"
               ++ msg_player m ++ ":" ++ msg_text m
  ∧ msg_text m ≠ ""
  ∧ starts_with_space (msg_text m) = false
  ∧ ends_with_space (msg_text m) = false.
Proof.
  unfold serialize_entry, is_meeting_speech.
  destruct (entry_phase e) as [ph|]; [|done].
  destruct (String.eqb_spec ph "meeting") as [->|]; [|done].
  destruct (entry_player e) as [p|]; [|done].
  destruct (entry_action e) as [a|]; [|done].
  destruct (strip_prefix _ a) as [rest|] eqn:Hpre; [|done].
  intros [= <-]. simpl.
  split; [split; [done|]; split; [by eexists|]; eauto|].
  split; [eauto|]. split; [done|]. split; [done|]. split; [done|].
  destruct (String.eqb_spec (strip (speak_group rest)) "") as [Heq|Hne].
  - done.
  - split; [done|]. apply strip_trimmed.
Qed.

Lemma serialize_entry_complete e :
  is_meeting_speech e → is_Some (serialize_entry e).
Proof.
  intros (Hph & [p Hp] & a & rest & Ha & Hpre).
  unfold serialize_entry. rewrite Hph, Hp, Ha, String.eqb_refl, Hpre. eauto.
Qed.

(** X4.  Every message of [_serialize_meeting_messages] comes from an
    entry of the activity log that is tagged ["meeting"], has a player
    and an action starting with [SPEAK]; it carries the player's name and
    the timestep and round of the entry, its id is
    [timestep:round:player:text], and its text is never empty and has no
    leading or trailing whitespace character, in the sense of
    [str.isspace()].  Conversely every such entry of the log yields a
    message. *)
Theorem meeting_messages_sound (g : AmongUs) :
  (∀ m, m ∈ _serialize_meeting_messages g →
     ∃ e, e ∈ or_nil (activity_log g)
          ∧ serialize_entry e = Some m
          ∧ is_meeting_speech e
          ∧ (∃ p, entry_player e = Some p ∧ msg_player m = name p)
          ∧ msg_timestep m = entry_timestep e
          ∧ msg_round m = entry_round e
          ∧ msg_id m = str_opt_int (entry_timestep e) ++ ":"
                       ++ str_opt_int (entry_round e) ++ ":"
                       ++ msg_player m ++ ":" ++ msg_text m
          ∧ msg_text m ≠ ""
          ∧ starts_with_space (msg_text m) = false
          ∧ ends_with_space (msg_text m) = false)
  ∧ (∀ e, e ∈ or_nil (activity_log g) → is_meeting_speech e →
          ∃ m, m ∈ _serialize_meeting_messages g ∧ serialize_entry e = Some m).
Proof.
  unfold _serialize_meeting_messages. split.
  - intros m Hm. apply list_elem_of_omap in Hm as (e & He & Hs).
    exists e. split; [done|]. split; [done|].
    by apply serialize_entry_Some.
  - intros e He Hsp. destruct (serialize_entry_complete e Hsp) as [m Hm].
    exists m. split; [|done]. apply list_elem_of_omap. eauto.
Qed.

(** X5.  The log is append-only: when entries are appended to the
    activity log, the messages of the longer log are the messages of the
    shorter one, unchanged and in the same positions, followed by the
    messages of the new entries.  A client polling twice sees the earlier
    messages again with the same ids. *)
Theorem meeting_messages_append (g g' : AmongUs) (log more : list LogEntry) :
  activity_log g = Some log →
  activity_log g' = Some (log ++ more)%list →
  _serialize_meeting_messages g'
  = (_serialize_meeting_messages g ++ omap serialize_entry more)%list
  ∧ (∀ i m, _serialize_meeting_messages g !! i = Some m →
            _serialize_meeting_messages g' !! i = Some m)
  ∧ (length (_serialize_meeting_messages g)
     ≤ length (_serialize_meeting_messages g'))%nat.
Proof.
  intros Hg Hg'. unfold _serialize_meeting_messages. rewrite Hg, Hg'. simpl.
  rewrite omap_app. split; [done|]. split.
  - intros i m Hi. by apply lookup_app_l_Some.
  - rewrite length_app. lia.
Qed.

Lemma meeting_messages_append_witness :
  _serialize_meeting_messages
    (log_game ([first_speech] ++ [move_entry; second_speech])) !! 0%nat
  = Some {| msg_id := "4:0:Player 1: red:one"; msg_timestep := Some 4;
            msg_round := Some 0; msg_player := "Player 1: red";
            msg_text := "one" |}.
Proof.
  apply (proj1 (proj2 (meeting_messages_append
           (log_game [first_speech])
           (log_game ([first_speech] ++ [move_entry; second_speech]))
           [first_speech] [move_entry; second_speech] eq_refl eq_refl))).
  reflexivity.
Defined.

(** ** Consistency of a snapshot *)

Lemma enumerate_actions_lookup l start i av :
  enumerate_actions start l !! i = Some av →
  av_index av = start + Z.of_nat i
  ∧ ∃ a, l !! i = Some a
         ∧ av_name av = default "" (action_name a)
         ∧ av_requires_message av = default false (requires_message a).
Proof.
  revert start i. induction l as [|a l IH]; intros start [|i]; simpl;
    try done.
  - intros [= <-]. simpl. split; [lia|]. eauto.
  - intros Hi. destruct (IH _ _ Hi) as (Hidx & Ha). split; [lia|done].
Qed.

Lemma enumerate_actions_length l start :
  length (enumerate_actions start l) = length l.
Proof.
  revert start. induction l as [|a l IH]; intros start; simpl; [done|].
  by rewrite IH.
Qed.

Lemma is_human_has_human g :
  is_human (_find_current_agent g) = true →
  is_Some (_find_human_agent g)
  ∧ ∃ n, current_player g = Some n ∧ n ≠ "".
Proof.
  intros Hh. destruct (_find_current_agent g) as [[h|p]|] eqn:Hc; try done.
  destruct (find_current_agent_some g _ Hc)
    as (n & pre & post & p & Hn & Hne & Hag & _).
  split; [|eauto].
  destruct (_find_human_agent g) as [h'|] eqn:Hf; [eauto|].
  pose proof (find_human_none g Hf) as Hno.
  destruct (Hno h). rewrite Hag. simpl.
  apply elem_of_app. right. left.
Qed.

(** X6.  In every snapshot returned by [get_state]: if [is_human_turn]
    holds then a human agent exists and [current_player] is a non-empty
    name; outside the human's turn the list of actions is empty and no
    current step is shown; the offered actions are numbered 0, 1, 2, ...
    in their order; [has_human] holds exactly when a human player name
    is given, and it implies [initialized]. *)
Theorem get_state_snapshot_consistent (gid : Z) (s : State) (snap : Snapshot) :
  get_state gid s = Ok snap →
  (snap_is_human_turn snap = true →
     snap_has_human snap = true
     ∧ ∃ n, snap_current_player snap = Some n ∧ n ≠ "")
  ∧ (snap_is_human_turn snap = false →
     snap_available_actions snap = [] ∧ snap_current_step snap = None)
  ∧ (∀ i av, snap_available_actions snap !! i = Some av →
             av_index av = Z.of_nat i)
  ∧ (snap_has_human snap = true ↔ is_Some (snap_human_player_name snap))
  ∧ (snap_has_human snap = true → snap_initialized snap = true).
Proof.
  unfold get_state. destruct (_records s !! gid) as [record|]; [|done].
  set (g := game record).
  destruct (turn_view _ _) as [[[aa pi] cs]|] eqn:Htv; [|done].
  destruct (human_name _) as [hname|] eqn:Hn; [|done].
  intros [= <-]. simpl.
  split; [|split; [|split; [|split]]].
  - intros Hh. destruct (is_human_has_human g Hh) as [Hs Hcp].
    split; [by apply bool_decide_eq_true_2|done].
  - intros Hh. unfold turn_view in Htv. rewrite Hh in Htv.
    destruct (_find_current_agent g) as [a|]; [|by injection Htv as <- <- <-].
    destruct (agent_player a) as [p|]; [|by injection Htv as <- <- <-].
    destruct (all_info_prompt p) as [info|e]; [by injection Htv as <- <- <-|].
    destruct (is_Exception e); [by injection Htv as <- <- <-|done].
  - intros i av Hi. unfold turn_view in Htv.
    destruct (is_human (_find_current_agent g)),
      (_find_human_agent g) as [h|];
      [destruct (get_current_state_for_web h) as [hs|]; [|done];
       injection Htv as <- <- <-;
       by destruct (enumerate_actions_lookup _ _ _ _ Hi)|..];
      (destruct (_find_current_agent g) as [a|];
       [|injection Htv as <- <- <-; done]);
      (destruct (agent_player a) as [p|];
       [|injection Htv as <- <- <-; done]);
      (destruct (all_info_prompt p) as [info|e];
       [injection Htv as <- <- <-; done|]);
      (destruct (is_Exception e); [injection Htv as <- <- <-; done|done]).
  - unfold human_name in Hn.
    destruct (_find_human_agent g) as [h|].
    + destruct (human_player h); [|done]. injection Hn as <-.
      rewrite bool_decide_eq_true_2 by eauto. split; eauto.
    + injection Hn as <-. rewrite bool_decide_eq_false_2 by (by intros [??]).
      split; [done|]. by intros [??].
  - intros Hh. apply bool_decide_eq_true_1 in Hh as [h Hh].
    destruct (find_human_split g h Hh) as (pre & post & Hag & _).
    unfold nonempty. rewrite Hag. by destruct pre.
Qed.

Lemma get_state_snapshot_consistent_witness :
  ∃ snap, get_state 1 waiting_state = Ok snap
          ∧ snap_has_human snap = true.
Proof.
  eexists. split; [reflexivity|].
  apply (proj1 (get_state_snapshot_consistent 1 waiting_state _ eq_refl)).
  reflexivity.
Defined.

(** X7.  A submission, accepted or not, changes nothing that
    [get_state] reads: the snapshot of every session right after
    [submit_human_action] is the one from before, until the engine
    moves. *)
Theorem get_state_after_submit (gid idx g : Z) (text : option string)
    (s : State) :
  get_state g (snd (submit_human_action gid idx text s)) = get_state g s
  ∧ game_state g (snd (submit_human_action gid idx text s)) = game_state g s.
Proof.
  destruct (submit_frame gid idx text s) as (Hr & _).
  unfold game_state, get_state. by rewrite Hr.
Qed.

(** ** The session task, other exits *)

(** X8.  When [run_game] returns normally in a reachable state, the
    record gets status ["completed"], its winner and winner reason are
    those of [summary_json["Game <id>"]] ([None] when the summary or a
    key is missing), its error field is untouched, the task ends without
    an exception, the entry of the session is gone from
    [human_action_futures], and the other records are as before. *)
Theorem run_game_completion (w w' : World) (gid : Z) :
  reachable w →
  exec (EvTaskResume gid (Ok tt)) w = Some w' →
  ∃ r r', _records (st w) !! gid = Some r
          ∧ _records (st w') !! gid = Some r'
          ∧ status r' = "completed"
          ∧ winner r'
            = (summary_json (game r) !! ("Game " ++ str_int gid))
                ≫= summary_winner
          ∧ winner_reason r'
            = (summary_json (game r) !! ("Game " ++ str_int gid))
                ≫= summary_winner_reason
          ∧ error r' = error r
          ∧ game r' = game r
          ∧ task r' = Some {| task_state := TaskFinished None;
                              must_cancel := false |}
          ∧ human_action_futures (st w') !! gid = None
          ∧ (∀ g, g ≠ gid → _records (st w') !! g = _records (st w) !! g).
Proof.
  intros Hreach Hex. apply exec_step in Hex.
  inversion Hex as [| | | | | | | |gid' r mc outcome Hr Ht Hmc| |]; subst.
  exists r. eexists. split; [done|]. simpl.
  rewrite alter_twice, lookup_alter_eq, Hr. simpl.
  split; [reflexivity|]. simpl. unfold game_summary. simpl.
  split; [done|].
  split; [by destruct (summary_json (game r) !! _)|].
  split; [by destruct (summary_json (game r) !! _)|].
  split; [done|]. split; [done|]. split; [done|].
  split; [apply lookup_delete_eq|].
  intros g Hg. by rewrite lookup_alter_ne.
Qed.

Lemma run_game_completion_witness :
  ∃ r', _records (st completed_world) !! 1 = Some r'
        ∧ status r' = "completed".
Proof.
  assert (Hr : reachable running_world).
  { exists running_run. vm_compute. reflexivity. }
  destruct (run_game_completion running_world completed_world 1 Hr)
    as (r & r' & _ & Hr' & Hs & _); [vm_compute; reflexivity|].
  exists r'. done.
Defined.

(** X9.  In every reachable state, as long as the task of a session has
    not ended, its record has no winner and no winner reason, and so has
    every snapshot [get_state] returns for it. *)
Theorem winner_unset_while_running (w : World) (gid : Z) (r : GameRecord)
    (t : Task) :
  reachable w →
  _records (st w) !! gid = Some r →
  task r = Some t →
  task_done t = false →
  winner r = None ∧ winner_reason r = None
  ∧ ∀ snap, get_state gid (st w) = Ok snap →
            snap_winner snap = None ∧ snap_winner_reason snap = None.
Proof.
  intros Hreach Hr Ht Hd. destruct (reachable_inv w Hreach) as [_ Hri].
  destruct (ri_ok w Hri gid r Hr) as (t' & Ht' & _ & Hw).
  rewrite Ht in Ht'. injection Ht' as <-. destruct (Hw Hd) as [H1 H2].
  split; [done|]. split; [done|].
  intros snap Hs. apply get_state_Ok in Hs
    as (r' & Hr' & _ & _ & _ & Hw1 & Hw2 & _).
  rewrite Hr in Hr'. injection Hr' as <-. by rewrite Hw1, Hw2.
Qed.

Lemma winner_unset_while_running_witness :
  winner (demo_blank_record "running" TaskSuspended) = None
  ∧ winner_reason (demo_blank_record "running" TaskSuspended) = None.
Proof.
  assert (Hr : reachable running_world).
  { exists running_run. vm_compute. reflexivity. }
  destruct (winner_unset_while_running running_world 1
              (demo_blank_record "running" TaskSuspended)
              {| task_state := TaskSuspended; must_cancel := false |} Hr)
    as (H1 & H2 & _);
    [vm_compute; reflexivity | reflexivity | reflexivity |].
  split; [exact H1|exact H2].
Defined.

(** X10.  A [CancelledError] (or any exception that is not an instance
    of [Exception]) coming out of [run_game] is not recorded: every
    record, in particular the status and the error of the session, is
    left as it was, the exception propagates out of the coroutine so
    that the task ends cancelled, and the [finally] block still removes
    the entry of the session from [human_action_futures]. *)
Theorem run_game_cancellation (gid : Z) (e : PyExc) (s : State) :
  is_Exception e = false →
  fst (_run_game_resume gid (Raise e) s) = Raise e
  ∧ task_outcome (fst (_run_game_resume gid (Raise e) s)) = TaskCancelled
  ∧ _records (snd (_run_game_resume gid (Raise e) s)) = _records s
  ∧ human_action_futures (snd (_run_game_resume gid (Raise e) s))
    = delete gid (human_action_futures s)
  ∧ _init_lock (snd (_run_game_resume gid (Raise e) s)) = _init_lock s
  ∧ _next_game_id (snd (_run_game_resume gid (Raise e) s)) = _next_game_id s.
Proof.
  intros Hex. rewrite run_game_resume_eq. simpl.
  unfold resume_update. rewrite Hex. simpl.
  split; [done|]. split.
  { unfold is_Exception in Hex. by destruct (exc_class e). }
  split; [by rewrite alter_id|]. done.
Qed.

Lemma run_game_cancellation_witness :
  _records (snd (_run_game_resume 1 (Raise cancelled_error) waiting_state))
  = _records waiting_state.
Proof.
  apply (run_game_cancellation 1 cancelled_error waiting_state). reflexivity.
Defined.

(** ** Session creation, further invariants *)

Lemma gate_inv_init : gate_inv init_world.
Proof. split; simpl; intros; simplify_map_eq. Qed.

Lemma finish_update_game_id g r : game_id (finish_update g r) = game_id r.
Proof.
  unfold finish_update. destruct g as [[]|e].
  - by destruct (is_terminal (status r)).
  - by destruct (is_Exception e).
Qed.

Lemma resume_update_game_id gid o r : game_id (resume_update gid o r) = game_id r.
Proof.
  unfold resume_update. destruct o as [[]|e]; [done|].
  by destruct (is_Exception e).
Qed.

Lemma gate_inv_step w ev w' :
  call_inv w → rec_inv w → gate_inv w → step w ev w' → gate_inv w'.
Proof.
  intros Hci Hri [Hgc Hgk] Hs.
  destruct Hs as [c key cm im H|c cm im H H0|c gid e t0 now H|c gid g t0 now H
                 |c gid deadline now H|gid r Hr Ht|gid r Hr Ht
                 |gid r mc g op Hr Ht|gid r mc outcome Hr Ht Hmc
                 |gid idx text|gid].
  - split; simpl; [|done].
    intros c' gid d r t Hc'. destruct (decide (c = c')) as [<-|Hne].
    + rewrite lookup_insert_eq in Hc'. by destruct (check_api_key key).
    + rewrite lookup_insert_ne in Hc' by done. eauto.
  - split; simpl; [|done].
    intros c' gid d r t Hc'. destruct (decide (c = c')) as [<-|Hne].
    + by rewrite lookup_insert_eq in Hc'.
    + rewrite lookup_insert_ne in Hc' by done. eauto.
  - split; simpl; [|done].
    intros c' gid' d r t Hc'. destruct (decide (c = c')) as [<-|Hne].
    + by rewrite lookup_insert_eq in Hc'.
    + rewrite lookup_insert_ne in Hc' by done. eauto.
  - unfold setup_out. set (s1 := setup_state gid g (st w)).
    destruct (after_gate_cases gid
                (gate_iteration now (t0 + timeout_ms) gid s1) s1)
      as [[Heq _]|(g0 & Hg0 & Hsnd & Hfst)].
    + rewrite Heq. split; simpl.
      * intros c' gid' d r t Hc'. destruct (decide (c = c')) as [<-|Hne].
        -- rewrite lookup_insert_eq in Hc'. injection Hc' as <- <-.
           rewrite lookup_insert_eq. intros [= <-]. simpl. by intros [= <-].
        -- rewrite lookup_insert_ne in Hc' by done.
           destruct Hne. eapply (ci_mutex w Hci); eauto.
      * intros g' r Hg. destruct (decide (gid = g')) as [<-|Hne].
        -- rewrite lookup_insert_eq in Hg. by injection Hg as <-.
        -- rewrite lookup_insert_ne in Hg by done. eauto.
    + rewrite Hsnd. split; simpl.
      * intros c' gid' d r t Hc'. destruct (decide (c = c')) as [<-|Hne].
        -- rewrite lookup_insert_eq in Hc'.
           by destruct Hfst as [Hf|[e Hf]]; rewrite Hf in Hc'.
        -- rewrite lookup_insert_ne in Hc' by done.
           destruct Hne. eapply (ci_mutex w Hci); eauto.
      * intros g' r Hg. rewrite alter_insert_eq in Hg.
        destruct (decide (gid = g')) as [<-|Hne].
        -- rewrite lookup_insert_eq in Hg. injection Hg as <-.
           by rewrite finish_update_game_id.
        -- rewrite lookup_insert_ne in Hg by done. eauto.
  - unfold poll_out.
    destruct (after_gate_cases gid
                (gate_iteration now deadline gid (st w)) (st w))
      as [[Heq _]|(g0 & Hg0 & Hsnd & Hfst)].
    + rewrite Heq. split; simpl; [|done].
      intros c' gid' d r t Hc'. destruct (decide (c = c')) as [<-|Hne].
      * rewrite lookup_insert_eq in Hc'. injection Hc' as <- <-. eauto.
      * rewrite lookup_insert_ne in Hc' by done. eauto.
    + rewrite Hsnd. split; simpl.
      * intros c' gid' d r t Hc'. destruct (decide (c = c')) as [<-|Hne].
        -- rewrite lookup_insert_eq in Hc'.
           by destruct Hfst as [Hf|[e Hf]]; rewrite Hf in Hc'.
        -- rewrite lookup_insert_ne in Hc' by done.
           destruct Hne. eapply (ci_mutex w Hci); eauto.
      * intros g' r Hg. apply lookup_alter_Some in Hg
          as [(<- & x & Hx & ->)|(_ & Hx)]; [|eauto].
        rewrite finish_update_game_id. eauto.
  - split; simpl; rewrite alter_twice.
    + intros c' gid' d r' t Hc' Hg Ht'.
      apply lookup_alter_Some in Hg as [(<- & x & Hx & ->)|(_ & Hx)]; [|eauto].
      simpl in Ht'. by injection Ht' as <-.
    + intros g' r' Hg. apply lookup_alter_Some in Hg
        as [(<- & x & Hx & ->)|(_ & Hx)]; [|eauto]. simpl. eauto.
  - split; simpl.
    + intros c' gid' d r' t Hc' Hg Ht'.
      apply lookup_alter_Some in Hg as [(<- & x & Hx & ->)|(_ & Hx)]; [|eauto].
      simpl in Ht'. by injection Ht' as <-.
    + intros g' r' Hg. apply lookup_alter_Some in Hg
        as [(<- & x & Hx & ->)|(_ & Hx)]; [|eauto]. simpl. eauto.
  - destruct (apply_fut_op_frame op gid
                (with_records (alter (set_game g) gid) (st w)))
      as (Hrecs & _).
    split; simpl; rewrite Hrecs; simpl.
    + intros c' gid' d r' t Hc' Hg Ht'.
      apply lookup_alter_Some in Hg as [(<- & x & Hx & ->)|(_ & Hx)]; eauto.
    + intros g' r' Hg. apply lookup_alter_Some in Hg
        as [(<- & x & Hx & ->)|(_ & Hx)]; [|eauto]. simpl. eauto.
  - split; simpl; rewrite alter_twice.
    + intros c' gid' d r' t Hc' Hg Ht'.
      apply lookup_alter_Some in Hg as [(<- & x & Hx & ->)|(_ & Hx)]; [|eauto].
      simpl in Ht'. by injection Ht' as <-.
    + intros g' r' Hg. apply lookup_alter_Some in Hg
        as [(<- & x & Hx & ->)|(_ & Hx)]; [|eauto]. simpl.
      rewrite resume_update_game_id. eauto.
  - destruct (submit_frame gid idx text (st w)) as (Hrecs & _).
    split; simpl; rewrite Hrecs; done.
  - done.
Qed.

Lemma run_gate_inv evs w w' :
  call_inv w ∧ rec_inv w ∧ gate_inv w → run evs w = Some w' → gate_inv w'.
Proof.
  revert w. induction evs as [|ev evs IH]; intros w (Hc & Hr & Hg); simpl.
  - by intros [= <-].
  - destruct (exec ev w) as [w1|] eqn:Hex; [|done].
    apply exec_step in Hex. apply IH. split; [|split].
    + by eapply call_inv_step.
    + by eapply rec_inv_step.
    + by eapply gate_inv_step.
Qed.

Lemma reachable_gate_inv w : reachable w → gate_inv w.
Proof.
  intros [evs Hrun]. eapply run_gate_inv; [|done].
  split; [apply call_inv_init|]. split; [apply rec_inv_init|].
  apply gate_inv_init.
Qed.

Lemma gate_return_inv now deadline gid s :
  gate_iteration now deadline gid s = GateReturn →
  now < deadline
  ∧ ∃ r, _records s !! gid = Some r
         ∧ is_Some (_find_human_agent (game r))
         ∧ ∀ t, task r = Some t → task_done t = false.
Proof.
  unfold gate_iteration.
  destruct (Z.ltb_spec now deadline) as [Hlt|]; [|done].
  destruct (_records s !! gid) as [r|]; [|done].
  intros Hg. split; [done|]. exists r. split; [done|].
  destruct (task r) as [t|].
  - destruct (task_done t) eqn:Hd.
    + destruct (task_exception t) as [[exc|]|]; done.
    + destruct (_find_human_agent (game r)); [|done].
      split; [eauto|]. by intros t' [= <-].
  - destruct (_find_human_agent (game r)); [|done]. split; [eauto|done].
Qed.

Lemma after_gate_returned gid stp s v :
  fst (after_gate gid stp s) = Ok (Some v) →
  v = gid ∧ stp = GateReturn
  ∧ snd (after_gate gid stp s)
    = with_lock false (with_records (alter (finish_update (Ok tt)) gid) s).
Proof.
  unfold after_gate. destruct stp as [| |e]; simpl; try done.
  by intros [= <-].
Qed.

(** X11.  When a [create_game] call returns an id (on a later turn of
    the gate or on the first one), it is the id allocated to the call,
    the deadline had not passed, the creation lock is free again, and the
    record of the session has status ["running"], a human agent in its
    game, and a task that is neither over nor asked to cancel.  The
    ["running"] that the endpoint [POST /create_game] puts in its answer
    is therefore the status of the record at that moment. *)
Theorem create_game_returns_running (w w' : World) (ev : Event) (c : nat)
    (pc : CreatePc) (v : Z) :
  reachable w →
  calls w !! c = Some pc →
  in_critical pc = true →
  exec ev w = Some w' →
  calls w' !! c = Some (PcReturned v) →
  pc_gid pc = Some v
  ∧ _init_lock (st w') = false
  ∧ ∃ r', _records (st w') !! v = Some r'
          ∧ status r' = "running"
          ∧ is_Some (_find_human_agent (game r'))
          ∧ (∃ t, task r' = Some t ∧ task_done t = false
                  ∧ must_cancel t = false)
          ∧ create_game_response (PcReturned v)
            = Some (Ok {| status_code := 200;
                          body := BodyCreated (game_id r') (status r') |}).
Proof.
  intros Hreach Hc Hcr Hex Hret.
  destruct (reachable_inv w Hreach) as [Hci Hri].
  pose proof (reachable_gate_inv w Hreach) as Hgi.
  apply exec_step in Hex.
  destruct (quiet ev) eqn:Hq.
  { destruct (step_quiet w ev w' Hex Hq) as (Hcalls & _).
    rewrite Hcalls, Hc in Hret. injection Hret as ->. done. }
  destruct Hex as [c0 key cm im H|c0 cm im H H0|c0 gid e t0 now H
                 |c0 gid g t0 now H|c0 gid deadline now H| | | | | |];
    try done; simpl in Hret; clear Hq.
  - destruct (decide (c0 = c)) as [->|Hne]; [congruence|].
    rewrite lookup_insert_ne in Hret by done.
      rewrite Hc in Hret. by injection Hret as ->.
  - destruct (decide (c0 = c)) as [->|Hne].
    + rewrite H in Hc. by injection Hc as <-.
    + rewrite lookup_insert_ne in Hret by done.
      rewrite Hc in Hret. by injection Hret as ->.
  - destruct (decide (c0 = c)) as [->|Hne].
    + by rewrite lookup_insert_eq in Hret.
    + rewrite lookup_insert_ne in Hret by done.
      rewrite Hc in Hret. by injection Hret as ->.
  - destruct (decide (c0 = c)) as [->|Hne];
      [|rewrite lookup_insert_ne in Hret by done; rewrite Hc in Hret;
        by injection Hret as ->].
    rewrite lookup_insert_eq in Hret. rewrite H in Hc. injection Hc as <-.
    unfold setup_out in *. set (s1 := setup_state gid g (st w)) in *.
    destruct (fst (after_gate gid
                (gate_iteration now (t0 + timeout_ms) gid s1) s1))
      as [[v'|]|e] eqn:Hfst; simpl in Hret; try done.
    injection Hret as ->.
    destruct (after_gate_returned _ _ _ _ Hfst) as (-> & Hgate & Hsnd).
    rewrite Hsnd. simpl. split; [done|]. split; [done|].
    apply gate_return_inv in Hgate as (_ & r & Hr & Hh & _).
    subst s1. simpl in Hr. rewrite lookup_insert_eq in Hr.
    injection Hr as <-. simpl in Hh.
    eexists. rewrite alter_insert_eq, lookup_insert_eq. split; [done|].
    simpl. split; [done|]. split; [done|]. split; [eauto|]. done.
  - destruct (decide (c0 = c)) as [->|Hne];
      [|rewrite lookup_insert_ne in Hret by done; rewrite Hc in Hret;
        by injection Hret as ->].
    rewrite lookup_insert_eq in Hret. rewrite H in Hc. injection Hc as <-.
    unfold poll_out in *.
    destruct (fst (after_gate gid
                (gate_iteration now deadline gid (st w)) (st w)))
      as [[v'|]|e] eqn:Hfst; simpl in Hret; try done.
    injection Hret as ->.
    destruct (after_gate_returned _ _ _ _ Hfst) as (-> & Hgate & Hsnd).
    rewrite Hsnd. simpl. split; [done|]. split; [done|].
    apply gate_return_inv in Hgate as (_ & r & Hr & Hh & Hnd).
    destruct (ri_ok w Hri gid r Hr) as (t & Ht & Hterm & _).
    pose proof (gi_cancel w Hgi c gid deadline r t H Hr Ht) as Hmc.
    pose proof (gi_key w Hgi gid r Hr) as Hkey.
    specialize (Hnd t Ht).
    assert (Hnt : is_terminal (status r) = false).
    { destruct (is_terminal (status r)); [|done].
      destruct (Hterm eq_refl); congruence. }
    eexists. rewrite lookup_alter_eq, Hr. simpl. split; [done|].
    rewrite Hnt. simpl. split; [done|]. split; [done|].
    split; [eauto|]. by rewrite Hkey.
Qed.

Lemma create_game_returns_running_witness :
  ∃ r', _records (st two_calls_world) !! 1 = Some r'
        ∧ status r' = "running"
        ∧ is_Some (_find_human_agent (game r')).
Proof.
  assert (Hr : reachable
                 (default init_world (run (take 6 two_calls_run) init_world))).
  { exists (take 6 two_calls_run). vm_compute. reflexivity. }
  destruct (create_game_returns_running _
              (default init_world (run (take 7 two_calls_run) init_world))
              (EvPoll 1 50) 1%nat (PcGate 1 10000) 1 Hr)
    as (_ & _ & r' & Hr' & Hs & Hh & _);
    [vm_compute; reflexivity | reflexivity | vm_compute; reflexivity
    | vm_compute; reflexivity |].
  exists r'. split; [|done].
  assert (Hsame : _records (st two_calls_world) !! 1
                  = _records (st (default init_world
                       (run (take 7 two_calls_run) init_world))) !! 1)
    by (vm_compute; reflexivity).
  by rewrite Hsame.
Defined.

Lemma entered_id_unique w c1 c2 gid :
  call_inv w → (c1, gid) ∈ entered w → (c2, gid) ∈ entered w → c1 = c2.
Proof.
  intros Hci H1 H2.
  apply list_elem_of_lookup_1 in H1 as [i Hi].
  apply list_elem_of_lookup_1 in H2 as [j Hj].
  pose proof (ci_ids w Hci i c1 gid Hi) as E1.
  pose proof (ci_ids w Hci j c2 gid Hj) as E2.
  assert (i = j) as -> by lia. congruence.
Qed.

Lemma id_abandoned_step w ev w' c gid :
  call_inv w → rec_inv w → id_abandoned w c gid → step w ev w' →
  id_abandoned w' c gid.
Proof.
  intros Hci Hri (Hin & [e0 Hc] & Hnone) Hs.
  destruct (quiet ev) eqn:Hq.
  { destruct (step_quiet w ev w' Hs Hq) as (Hcalls & Hent & _).
    split; [by rewrite Hent|]. split; [rewrite Hcalls; eauto|].
    destruct Hs as [| | | | |g0 r Hr Ht|g0 r Hr Ht|g0 r mc g op Hr Ht
                   |g0 r mc outcome Hr Ht Hmc|g0 idx text|g0];
      try done; simpl; rewrite ?alter_twice.
    - by rewrite lookup_alter_None.
    - by rewrite lookup_alter_None.
    - destruct (apply_fut_op_frame op g0
                  (with_records (alter (set_game g) g0) (st w))) as (-> & _).
      simpl. by rewrite lookup_alter_None.
    - by rewrite lookup_alter_None.
    - by destruct (submit_frame g0 idx text (st w)) as (-> & _). }
  destruct Hs as [c0 key cm im H|c0 cm im H H0|c0 g0 e t0 now H
                 |c0 g0 g t0 now H|c0 g0 deadline now H| | | | | |];
    try done; clear Hq;
    (assert (Hne : c0 ≠ c) by (intros ->; congruence)).
  - split; [done|]. split; [|done]. simpl. rewrite lookup_insert_ne by done.
    eauto.
  - split; [apply elem_of_app; by left|]. split; [|done]. simpl.
    rewrite lookup_insert_ne by done. eauto.
  - split; [done|]. split; [|done]. simpl. rewrite lookup_insert_ne by done.
    eauto.
  - assert (Hg : g0 ≠ gid).
    { intros ->. apply Hne. eapply (entered_id_unique w); [done| |done].
      by eapply (ci_pc w Hci c0). }
    split; [done|]. split; [simpl; rewrite lookup_insert_ne by done; eauto|].
    simpl. unfold setup_out. set (s1 := setup_state g0 g (st w)).
    destruct (after_gate_cases g0
                (gate_iteration now (t0 + timeout_ms) g0 s1) s1)
      as [[Heq _]|(x & _ & Hsnd & _)].
    + rewrite Heq. simpl. by rewrite lookup_insert_ne.
    + rewrite Hsnd. simpl. rewrite lookup_alter_None.
      by rewrite lookup_insert_ne.
  - split; [done|]. split; [simpl; rewrite lookup_insert_ne by done; eauto|].
    simpl. unfold poll_out.
    destruct (after_gate_cases g0
                (gate_iteration now deadline g0 (st w)) (st w))
      as [[Heq _]|(x & _ & Hsnd & _)].
    + by rewrite Heq.
    + rewrite Hsnd. simpl. by rewrite lookup_alter_None.
Qed.

Lemma id_abandoned_run evs w w' c gid :
  call_inv w ∧ rec_inv w → id_abandoned w c gid → run evs w = Some w' →
  call_inv w' ∧ id_abandoned w' c gid.
Proof.
  revert w. induction evs as [|ev evs IH]; intros w [Hc Hr] Hab; simpl.
  - by intros [= <-].
  - destruct (exec ev w) as [w1|] eqn:Hex; [|done].
    apply exec_step in Hex. apply IH.
    + split; [by eapply call_inv_step|by eapply rec_inv_step].
    + by eapply id_abandoned_step.
Qed.

(** X12.  When [setup_experiment] or the [AmongUs] constructor raises
    inside [create_game], the exception reaches the caller, the creation
    lock is released, and the identifier already allocated is consumed:
    it is below the counter, and in every later state no record is ever
    registered under it ([get_state] answers [KeyError]) and no call
    ever returns it. *)
Theorem failed_construction_skips_id (w w1 : World) (c : nat) (gid : Z)
    (e : PyExc) (t0 now : Z) :
  reachable w →
  calls w !! c = Some (PcAllocated gid) →
  exec (EvSetup c (Raise e) t0 now) w = Some w1 →
  calls w1 !! c = Some (PcRaised e)
  ∧ _init_lock (st w1) = false
  ∧ gid < _next_game_id (st w1)
  ∧ ∀ evs w2, run evs w1 = Some w2 →
      _records (st w2) !! gid = None
      ∧ get_state gid (st w2)
        = Raise (Exc KeyError (ArgStr ("Unknown game_id=" ++ str_int gid)) None)
      ∧ ∀ c' , calls w2 !! c' ≠ Some (PcReturned gid).
Proof.
  intros Hreach Hc Hex.
  destruct (reachable_inv w Hreach) as [Hci Hri].
  assert (Hreach1 : reachable w1).
  { apply (reachable_run [EvSetup c (Raise e) t0 now] w w1 Hreach).
    unfold run. by rewrite Hex. }
  destruct (reachable_inv w1 Hreach1) as [Hci1 Hri1].
  assert (Hin : (c, gid) ∈ entered w) by (by eapply (ci_pc w Hci c)).
  pose proof (entered_bound w c gid Hci Hin) as Hb.
  pose proof (ri_fresh w Hri c gid Hc) as Hnone.
  simpl in Hex. rewrite Hc in Hex. simpl in Hex. injection Hex as <-.
  simpl. split; [by rewrite lookup_insert_eq|]. split; [done|].
  split; [lia|].
  intros evs w2 Hrun.
  destruct (id_abandoned_run evs _ w2 c gid (conj Hci1 Hri1)) as
    (Hci2 & Hin2 & [e2 Hc2] & Hnone2); [|done|].
  { split; [done|]. split; [|done]. simpl. rewrite lookup_insert_eq. eauto. }
  split; [done|]. split; [by apply get_state_unknown|].
  intros c' Hc'.
  assert (c' = c) as ->.
  { eapply (entered_id_unique w2); [done| |done].
    by eapply (ci_pc w2 Hci2 c'). }
  congruence.
Qed.

Lemma failed_construction_skips_id_witness :
  _records (st (default init_world
     (run [ EvCall 0 (Some "sk-or-key") None None; EvEnter 0;
            EvSetup 0 (Raise engine_failure) 0 0;
            EvCall 1 (Some "sk-or-key") None None; EvEnter 1;
            EvSetup 1 (Ok blank_game) 5 5 ] init_world))) !! 1 = None.
Proof.
  assert (Hr : reachable (default init_world
             (run (take 2 running_run) init_world))).
  { exists (take 2 running_run). vm_compute. reflexivity. }
  destruct (failed_construction_skips_id _
              (default init_world
                 (exec (EvSetup 0 (Raise engine_failure) 0 0)
                    (default init_world
                       (run (take 2 running_run) init_world))))
              0%nat 1 engine_failure 0 0 Hr)
    as (_ & _ & _ & Hlater);
    [vm_compute; reflexivity | vm_compute; reflexivity |].
  destruct (Hlater [EvCall 1 (Some "sk-or-key") None None; EvEnter 1;
                    EvSetup 1 (Ok blank_game) 5 5]
              (default init_world
                 (run [ EvCall 0 (Some "sk-or-key") None None; EvEnter 0;
                        EvSetup 0 (Raise engine_failure) 0 0;
                        EvCall 1 (Some "sk-or-key") None None; EvEnter 1;
                        EvSetup 1 (Ok blank_game) 5 5 ] init_world)))
    as (Hnone & _); [vm_compute; reflexivity|].
  exact Hnone.
Defined.

(** X13.  In every reachable state a record is registered under its own
    [game_id], which lies between 1 and the identifier counter, and no
    operation ever removes or re-keys it: in every later state a record
    with that [game_id] is still registered under the same key. *)
Theorem records_keyed_and_kept (w : World) (gid : Z) (r : GameRecord) :
  reachable w →
  _records (st w) !! gid = Some r →
  game_id r = gid
  ∧ 1 ≤ gid < _next_game_id (st w)
  ∧ ∀ evs w2, run evs w = Some w2 →
      ∃ r2, _records (st w2) !! gid = Some r2
            ∧ game_id r2 = gid
            ∧ _next_game_id (st w) ≤ _next_game_id (st w2).
Proof.
  intros Hreach Hr.
  destruct (reachable_inv w Hreach) as [Hci Hri].
  pose proof (reachable_gate_inv w Hreach) as Hgi.
  split; [by eapply gi_key|]. split; [by eapply ri_dom|].
  intros evs w2 Hrun.
  destruct (status_stable_run evs w w2 gid r (conj Hci Hri) Hrun Hr)
    as (r2 & Hr2 & _).
  pose proof (reachable_run evs w w2 Hreach Hrun) as Hreach2.
  exists r2. split; [done|].
  split; [by eapply (gi_key w2 (reachable_gate_inv w2 Hreach2))|].
  destruct (reachable_inv w2 Hreach2) as [Hci2 _].
  rewrite (ci_next w Hci), (ci_next w2 Hci2).
  assert (Hlen : (length (entered w) ≤ length (entered w2))%nat); [|lia].
  clear -Hrun. revert w Hrun. induction evs as [|ev evs IH]; intros w; simpl.
  - by intros [= <-].
  - destruct (exec ev w) as [w1|] eqn:Hex; [|done]. intros Hrun.
    specialize (IH w1 Hrun). apply exec_step in Hex.
    assert (length (entered w) ≤ length (entered w1))%nat; [|lia].
    destruct Hex; simpl; try lia. rewrite length_app. simpl. lia.
Qed.

Lemma records_keyed_and_kept_witness :
  game_id (demo_blank_record "running" TaskSuspended) = 1
  ∧ 1 ≤ 1 < _next_game_id (st running_world).
Proof.
  assert (Hr : reachable running_world).
  { exists running_run. vm_compute. reflexivity. }
  destruct (records_keyed_and_kept running_world 1
              (demo_blank_record "running" TaskSuspended) Hr)
    as (H1 & H2 & _); [vm_compute; reflexivity|].
  split; [exact H1|exact H2].
Defined.

(** ** The endpoints of [server/app.py] *)

(** X14.  [POST /human_action] never raises and answers by the outcome
    of the submission: 422 without touching the manager when the index
    is negative; 200 when the submission is accepted; 404 for an unknown
    id, with [str] of the [KeyError] (the message in quotes) as detail;
    422 for an index beyond the offered actions; 400 with the message as
    detail for a finished session, a session without human agent, and a
    session that is not waiting.  Only a 200 changes the state. *)
Theorem human_action_status_codes (request : HumanActionRequest) (s : State) :
  human_action request s =
  (if valid_human_action_request request then
     match spec_submit_check s (req_game_id request)
             (req_action_index request) with
     | None =>
         (Ok {| status_code := 200; body := BodyAccepted |},
          fulfilled s (req_game_id request) (req_action_index request)
            (req_speech_text request))
     | Some err =>
         (Ok {| status_code := match err with
                               | NotFound => 404
                               | OutOfRange => 422
                               | _ => 400
                               end;
                body := BodyDetail
                          (str_exc (submit_error_exc err s
                                      (req_game_id request)
                                      (req_action_index request))) |},
          s)
     end
   else (Ok {| status_code := 422; body := BodyValidation |}, s))
  ∧ (∃ resp, fst (human_action request s) = Ok resp
       ∧ (status_code resp ≠ 200 → snd (human_action request s) = s)
       ∧ (status_code resp = 404 ↔
          0 ≤ req_action_index request
          ∧ _records s !! req_game_id request = None)
       ∧ (status_code resp = 404 →
          body resp = BodyDetail
                        ("'Unknown game_id=" ++ str_int (req_game_id request)
                         ++ "'")))
  ∧ (req_action_index request < 0 →
     human_action request s
     = (Ok {| status_code := 422; body := BodyValidation |}, s)).
Proof.
  assert (Heq : human_action request s =
    (if valid_human_action_request request then
       match spec_submit_check s (req_game_id request)
               (req_action_index request) with
       | None =>
           (Ok {| status_code := 200; body := BodyAccepted |},
            fulfilled s (req_game_id request) (req_action_index request)
              (req_speech_text request))
       | Some err =>
           (Ok {| status_code := match err with
                                 | NotFound => 404
                                 | OutOfRange => 422
                                 | _ => 400
                                 end;
                  body := BodyDetail
                            (str_exc (submit_error_exc err s
                                        (req_game_id request)
                                        (req_action_index request))) |},
            s)
       end
     else (Ok {| status_code := 422; body := BodyValidation |}, s))).
  { unfold human_action. rewrite submit_refines_spec.
    destruct (valid_human_action_request request); [|done].
    destruct (spec_submit_check _ _ _) as [[]|]; done. }
  split; [exact Heq|]. split.
  - rewrite Heq. unfold valid_human_action_request.
    destruct (Z.leb_spec 0 (req_action_index request)) as [Hv|Hv].
    + unfold spec_submit_check.
      destruct (_records s !! req_game_id request) as [record|] eqn:Hrec.
      * destruct (is_terminal (status record)).
        { eexists. split; [reflexivity|]. simpl.
          split; [done|]. split; [|done]. split; [done|]. by intros [_ ?]. }
        destruct (_find_human_agent (game record)) as [h|].
        2:{ eexists. split; [reflexivity|]. simpl.
            split; [done|]. split; [|done]. split; [done|]. by intros [_ ?]. }
        destruct (negb (pending_request s (req_game_id request))).
        { eexists. split; [reflexivity|]. simpl.
          split; [done|]. split; [|done]. split; [done|]. by intros [_ ?]. }
        destruct (negb (index_in_range h (req_action_index request))).
        { eexists. split; [reflexivity|]. simpl.
          split; [done|]. split; [|done]. split; [done|]. by intros [_ ?]. }
        eexists. split; [reflexivity|]. simpl.
        split; [done|]. split; [|done]. split; [done|]. by intros [_ ?].
      * eexists. split; [reflexivity|]. simpl.
        split; [done|]. split; [done|]. intros _. done.
    + eexists. split; [reflexivity|]. simpl.
      split; [done|]. split; [|done]. split; [done|]. intros [? _]. lia.
  - intros Hneg. unfold human_action, valid_human_action_request.
    destruct (Z.leb_spec 0 (req_action_index request)); [lia|done].
Qed.

(** X15.  [GET /game_state] answers 422 when the query parameter
    [game_id] is missing or is not an integer, and only then.  With an
    integer it answers 404 with the quoted message for an unknown id; for
    a known id whose human-facing reads go through it answers 200 with a
    snapshot that carries the id, status, error and result of the record;
    and when [get_state] raises for a known id the answer is 400 with the
    text of the exception, except that a [KeyError] raised by the engine
    is answered 404 as well.  A response of the endpoint has status 200,
    404, 400 or 422. *)
Theorem game_state_status_codes (game_id : QueryParam) (s : State) :
  ((∀ gid, game_id ≠ ParamInt gid) →
   game_state_endpoint game_id s
   = Ok {| status_code := 422; body := BodyValidation |})
  ∧ (∀ gid, game_id = ParamInt gid →
       (_records s !! gid = None →
        game_state_endpoint game_id s
        = Ok {| status_code := 404;
                body := BodyDetail
                          ("'Unknown game_id=" ++ str_int gid ++ "'") |})
       ∧ (∀ r, _records s !! gid = Some r → view_readable (game r) →
            ∃ snap, game_state_endpoint game_id s
                    = Ok {| status_code := 200; body := BodySnapshot snap |}
                    ∧ snap_game_id snap = gid
                    ∧ snap_status snap = status r
                    ∧ snap_error snap = error r
                    ∧ snap_winner snap = winner r
                    ∧ snap_winner_reason snap = winner_reason r)
       ∧ (∀ e, get_state gid s = Raise e → is_Exception e = true →
            game_state_endpoint game_id s
            = Ok {| status_code := match exc_class e with
                                   | KeyError => 404
                                   | _ => 400
                                   end;
                    body := BodyDetail (str_exc e) |})
       ∧ (∀ e, get_state gid s = Raise e → is_Exception e = false →
            game_state_endpoint game_id s = Raise e))
  ∧ (∀ resp, game_state_endpoint game_id s = Ok resp →
       (status_code resp = 200 ∨ status_code resp = 404
        ∨ status_code resp = 400 ∨ status_code resp = 422)
       ∧ (status_code resp = 422 ↔ ∀ gid, game_id ≠ ParamInt gid)).
Proof.
  split; [|split].
  - intros Hn. destruct game_id as [|raw|gid]; [done|done|].
    by destruct (Hn gid).
  - intros gid ->. simpl. split; [|split; [|split]].
    + intros Hn. unfold game_state. by rewrite (get_state_unknown gid s Hn).
    + intros r Hr Hv.
      destruct (get_state_readable gid s r Hr Hv) as (snap & Hs & _).
      exists snap. unfold game_state. rewrite Hs. split; [done|].
      apply get_state_Ok in Hs as (r' & Hr' & H1 & H2 & H3 & H4 & H5 & _).
      rewrite Hr in Hr'. injection Hr' as <-. done.
    + intros e He Hex. unfold game_state, game_state_except. rewrite He.
      unfold http_exception. rewrite Hex. by destruct (exc_class e).
    + intros e He Hex. unfold game_state, game_state_except. rewrite He.
      rewrite Hex. unfold is_Exception in Hex. by destruct (exc_class e).
  - intros resp. destruct game_id as [|raw|gid]; simpl.
    + intros [= <-]. simpl. split; [auto|]. split; [done|done].
    + intros [= <-]. simpl. split; [auto|]. split; [done|done].
    + unfold game_state, game_state_except, http_exception.
      assert (Hno : ¬ ∀ gid0, ParamInt gid ≠ ParamInt gid0).
      { intros H. by apply (H gid). }
      destruct (get_state gid s) as [snap|e].
      * intros [= <-]. simpl. split; [auto|]. split; [done|done].
      * destruct (exc_class e); destruct (is_Exception e);
          intros [= <-]; simpl; (split; [auto|]); split; done.
Qed.

(** ** The command-line runner and the key check *)

Lemma validate_openrouter_done outcome :
  validate_openrouter outcome = Done tt ↔
  ∃ code, outcome = Responded code ∧ code < 400.
Proof.
  unfold validate_openrouter, die. destruct outcome as [code|text].
  - destruct (Z.eqb_spec code 401), (Z.eqb_spec code 403); simpl;
      try (split; [done|intros (c' & [= <-] & ?); lia]).
    destruct (Z.geb_spec code 500);
      [split; [done|intros (c' & [= <-] & ?); lia]|].
    destruct (Z.geb_spec code 400);
      [split; [done|intros (c' & [= <-] & ?); lia]|].
    split; [|done]. intros _. exists code. split; [done|lia].
  - split; [done|]. by intros (c' & ? & _).
Qed.

Lemma validate_openrouter_exit outcome c m :
  validate_openrouter outcome = Exit c m → c = 1.
Proof.
  unfold validate_openrouter, die.
  destruct outcome as [code|text]; [|by intros [= <- _]].
  destruct ((code =? 401) || (code =? 403)); [by intros [= <- _]|].
  destruct (code >=? 500); [by intros [= <- _]|].
  destruct (code >=? 400); [by intros [= <- _]|done].
Qed.

(** X16.  [validate_openrouter] returns normally exactly when a response
    arrived with a status below 400.  In every other case the script
    exits with code 1: statuses 401 and 403 are reported as a rejected
    key, statuses from 500 on as a server error, the remaining statuses
    from 400 on as a failed request, and a request that raised as an
    unreachable service. *)
Theorem validate_openrouter_classes (outcome : HttpOutcome) :
  (validate_openrouter outcome = Done tt ↔
   ∃ code, outcome = Responded code ∧ code < 400)
  ∧ (∀ c m, validate_openrouter outcome = Exit c m → c = 1)
  ∧ (∀ code, outcome = Responded code →
       (code = 401 ∨ code = 403 →
        validate_openrouter outcome
        = Exit 1 ("ERROR: OpenRouter rejected the API key (status "
                  ++ str_int code ++ ")."))
       ∧ (500 ≤ code →
          validate_openrouter outcome
          = Exit 1 ("ERROR: OpenRouter server error (status "
                    ++ str_int code ++ ")."))
       ∧ (400 ≤ code < 500 → code ≠ 401 → code ≠ 403 →
          validate_openrouter outcome
          = Exit 1 ("ERROR: OpenRouter request failed (status "
                    ++ str_int code ++ ").")))
  ∧ (∀ text, outcome = RequestFailed text →
       validate_openrouter outcome
       = Exit 1 ("ERROR: OpenRouter unreachable: " ++ text)).
Proof.
  unfold validate_openrouter, die.
  split; [|split; [|split]].
  - destruct outcome as [code|text].
    + destruct (Z.eqb_spec code 401), (Z.eqb_spec code 403); simpl;
        try (split; [done|intros (c' & [= <-] & ?); lia]).
      destruct (Z.geb_spec code 500);
        [split; [done|intros (c' & [= <-] & ?); lia]|].
      destruct (Z.geb_spec code 400);
        [split; [done|intros (c' & [= <-] & ?); lia]|].
      split; [|done]. intros _. exists code. split; [done|lia].
    + split; [done|]. by intros (c' & ? & _).
  - intros c m. destruct outcome as [code|text]; [|by intros [= <- _]].
    destruct ((code =? 401) || (code =? 403)); [by intros [= <- _]|].
    destruct (code >=? 500); [by intros [= <- _]|].
    destruct (code >=? 400); [by intros [= <- _]|done].
  - intros code ->. split; [|split].
    + intros [-> | ->]; done.
    + intros Hc. destruct (Z.eqb_spec code 401); [lia|].
      destruct (Z.eqb_spec code 403); [lia|]. simpl.
      destruct (Z.geb_spec code 500); [done|lia].
    + intros Hc H1 H3. destruct (Z.eqb_spec code 401); [done|].
      destruct (Z.eqb_spec code 403); [done|]. simpl.
      destruct (Z.geb_spec code 500); [lia|].
      destruct (Z.geb_spec code 400); [done|lia].
  - by intros text ->.
Qed.

Lemma strip_nonempty_arg s : strip s ≠ "" → s ≠ "".
Proof. intros H ->. by apply H. Qed.

(** X17.  [validate_env] of the runner returns the key with surrounding
    whitespace (the characters of [str.isspace()]) removed, and only
    when that is not empty; otherwise it exits with code 1.  The check at the head of [GameManager.create_game]
    rejects only a missing or empty key: every key the runner accepts
    passes it too, and it does not trim. *)
Theorem api_key_checks (key : option string) :
  (∀ k, validate_env key = Done k →
        k = strip (default "" key) ∧ k ≠ ""
        ∧ starts_with_space k = false ∧ ends_with_space k = false
        ∧ check_api_key key = Ok tt)
  ∧ (∀ c m, validate_env key = Exit c m →
        c = 1 ∧ strip (default "" key) = "")
  ∧ (check_api_key key = Ok tt ↔ ∃ k, key = Some k ∧ k ≠ "")
  ∧ (∀ e, check_api_key key = Raise e →
        e = Exc RuntimeError (ArgStr "OPENROUTER_API_KEY is required.") None
        ∧ (key = None ∨ key = Some "")).
Proof.
  unfold validate_env, die. split; [|split; [|split]].
  - intros k. destruct (String.eqb_spec (strip (default "" key)) "")
      as [Heq|Hne]; [done|].
    intros [= <-]. split; [done|]. split; [done|].
    destruct (strip_trimmed (default "" key)) as [H1 H2].
    split; [done|]. split; [done|].
    apply strip_nonempty_arg in Hne. by destruct key as [[|c k]|].
  - intros c m. destruct (String.eqb_spec (strip (default "" key)) "")
      as [Heq|Hne]; [|done].
    by intros [= <- _].
  - destruct key as [[|c k]|]; simpl.
    + split; [done|]. by intros (k & [= <-] & ?).
    + split; [|done]. intros _. by eexists.
    + split; [done|]. by intros (k & ? & _).
  - intros e. destruct key as [[|c k]|]; simpl; [|done|];
      intros [= <-]; auto.
Qed.

(** X18.  The checks of the runner before it builds the game succeed
    exactly when the key is not blank, OpenRouter answered with a status
    below 400 and neither model variable is blank; the values it goes
    on with are the trimmed ones, an unset model variable standing for
    ["openrouter/free"].  A blank key ends the script before the answer
    of OpenRouter or the models are looked at. *)
Theorem script_preflight_success (key : option string) (outcome : HttpOutcome)
    (crewmate impostor : option string) :
  (∀ k cm im,
     script_preflight key outcome crewmate impostor = Done (k, cm, im) ↔
     k = strip (default "" key) ∧ k ≠ ""
     ∧ (∃ code, outcome = Responded code ∧ code < 400)
     ∧ cm = strip (default "openrouter/free" crewmate) ∧ cm ≠ ""
     ∧ im = strip (default "openrouter/free" impostor) ∧ im ≠ "")
  ∧ (strip (default "" key) = "" →
     script_preflight key outcome crewmate impostor
     = Exit 1 ("ERROR: OPENROUTER_API_KEY is not set. "
               ++ "Add it to .env or your environment."))
  ∧ (∀ c m, script_preflight key outcome crewmate impostor = Exit c m →
            c = 1)
  ∧ (crewmate = None → impostor = None →
     ∀ k cm im,
       script_preflight key outcome crewmate impostor = Done (k, cm, im) →
       cm = "openrouter/free" ∧ im = "openrouter/free").
Proof.
  assert (Hmodel : ∀ var v m, script_model var v = Done m ↔
            m = strip (default "openrouter/free" v) ∧ m ≠ "").
  { intros var v m. unfold script_model, die.
    destruct (String.eqb_spec (strip (default "openrouter/free" v)) "")
      as [Heq|Hne].
    - split; [done|]. intros [-> ?]. done.
    - split; [by intros [= <-]|]. by intros [-> _]. }
  assert (Hmain : ∀ k cm im,
     script_preflight key outcome crewmate impostor = Done (k, cm, im) ↔
     k = strip (default "" key) ∧ k ≠ ""
     ∧ (∃ code, outcome = Responded code ∧ code < 400)
     ∧ cm = strip (default "openrouter/free" crewmate) ∧ cm ≠ ""
     ∧ im = strip (default "openrouter/free" impostor) ∧ im ≠ "").
  { intros k cm im. unfold script_preflight.
    pose proof (validate_openrouter_done outcome) as Hor.
    unfold validate_env, die.
    destruct (String.eqb_spec (strip (default "" key)) "") as [Heq|Hne].
    { split; [done|]. intros (-> & ? & _). done. }
    destruct (validate_openrouter outcome) as [[]|c m] eqn:Hv.
    2:{ split; [done|]. intros (_ & _ & Hc & _). apply Hor in Hc. done. }
    destruct (script_model "OPENROUTER_CREWMATE_MODEL" crewmate)
      as [cm'|c m] eqn:Hcm.
    2:{ split; [done|]. intros (_ & _ & _ & H1 & H2 & _).
        assert (Hd : script_model "OPENROUTER_CREWMATE_MODEL" crewmate
                     = Done cm) by (by apply Hmodel).
        congruence. }
    destruct (script_model "OPENROUTER_IMPOSTOR_MODEL" impostor)
      as [im'|c m] eqn:Him.
    2:{ split; [done|]. intros (_ & _ & _ & _ & _ & H1 & H2).
        assert (Hd : script_model "OPENROUTER_IMPOSTOR_MODEL" impostor
                     = Done im) by (by apply Hmodel).
        congruence. }
    apply Hmodel in Hcm as [-> Hcm]. apply Hmodel in Him as [-> Him].
    split.
    - intros [= <- <- <-]. split; [done|]. split; [done|].
      split; [by apply Hor|]. done.
    - intros (-> & _ & _ & -> & _ & -> & _). done. }
  split; [exact Hmain|]. split; [|split].
  - intros Hb. unfold script_preflight, validate_env, die. by rewrite Hb.
  - intros c m. unfold script_preflight, validate_env, script_model, die.
    destruct (String.eqb (strip (default "" key)) ""); [by intros [= <- _]|].
    destruct (validate_openrouter outcome) as [[]|c' m'] eqn:Hv.
    2:{ intros [= <- _].
        by apply (validate_openrouter_exit outcome c' m'). }
    destruct (String.eqb (strip (default "openrouter/free" crewmate)) "");
      [by intros [= <- _]|].
    destruct (String.eqb (strip (default "openrouter/free" impostor)) "");
      [by intros [= <- _]|done].
  - intros -> -> k cm im Hd. apply Hmain in Hd
      as (_ & _ & _ & -> & _ & -> & _). done.
Qed.

(** ** The creation lock, statuses and futures over time *)



Lemma status_inv_init : status_inv init_world.
Proof. split; simpl; intros; simplify_map_eq. Qed.

Lemma finish_update_status g r :
  (status (finish_update g r) = status r ∧ task (finish_update g r) = task r)
  ∨ status (finish_update g r) = "running"
  ∨ status (finish_update g r) = "error".
Proof.
  unfold finish_update. destruct g as [[]|e].
  - destruct (is_terminal (status r)); simpl; auto.
  - destruct (is_Exception e); simpl; auto.
Qed.

Lemma status_inv_record_update (P : GameRecord → Prop) r r' :
  (known_status (status r)
   ∧ ∀ t, task r = Some t → status r = "initializing" →
          task_state t = TaskPending ∧ must_cancel t = false) →
  (status r' = status r ∧ task r' = task r)
  ∨ status r' = "running" ∨ status r' = "completed" ∨ status r' = "error" →
  known_status (status r')
  ∧ ∀ t, task r' = Some t → status r' = "initializing" →
         task_state t = TaskPending ∧ must_cancel t = false.
Proof.
  intros [Hk Hi] [[Hs Ht]|[Hs|[Hs|Hs]]].
  - rewrite Hs, Ht. done.
  - rewrite Hs. split; [right; by left|done].
  - rewrite Hs. split; [right; right; by left|done].
  - rewrite Hs. split; [right; right; by right|done].
Qed.

Lemma status_inv_step w ev w' :
  call_inv w → rec_inv w → status_inv w → step w ev w' → status_inv w'.
Proof.
  intros Hci Hri [Hv Hin] Hs.
  assert (Hold : ∀ g r, _records (st w) !! g = Some r →
            known_status (status r)
            ∧ ∀ t, task r = Some t → status r = "initializing" →
                   task_state t = TaskPending ∧ must_cancel t = false).
  { intros g r Hr. split; [eauto|]. intros t. eauto. }
  assert (Hgoal : (∀ g r', _records (st w') !! g = Some r' →
            known_status (status r')
            ∧ ∀ t, task r' = Some t → status r' = "initializing" →
                   task_state t = TaskPending ∧ must_cancel t = false) →
          status_inv w').
  { intros H. split.
    - intros g r Hr. by destruct (H g r Hr).
    - intros g r t Hr. destruct (H g r Hr) as [_ H2]. eauto. }
  apply Hgoal. clear Hgoal.
  destruct Hs as [c key cm im H|c cm im H H0|c gid e t0 now H|c gid g t0 now H
                 |c gid deadline now H|gid r Hr Ht|gid r Hr Ht
                 |gid r mc g op Hr Ht|gid r mc outcome Hr Ht Hmc
                 |gid idx text|gid]; simpl; try done.
  - unfold setup_out. set (s1 := setup_state gid g (st w)).
    assert (Hnew : known_status (status (new_record gid g))
      ∧ ∀ t, task (new_record gid g) = Some t →
             status (new_record gid g) = "initializing" →
             task_state t = TaskPending ∧ must_cancel t = false).
    { split; [by left|]. simpl. by intros t [= <-]. }
    destruct (after_gate_cases gid
                (gate_iteration now (t0 + timeout_ms) gid s1) s1)
      as [[Heq _]|(g0 & _ & Hsnd & _)].
    + rewrite Heq. simpl. intros g' r' Hg.
      destruct (decide (gid = g')) as [<-|Hne].
      * rewrite lookup_insert_eq in Hg. by injection Hg as <-.
      * rewrite lookup_insert_ne in Hg by done. eauto.
    + rewrite Hsnd. simpl. intros g' r' Hg. rewrite alter_insert_eq in Hg.
      destruct (decide (gid = g')) as [<-|Hne].
      * rewrite lookup_insert_eq in Hg. injection Hg as <-.
        apply (status_inv_record_update (fun _ => True) (new_record gid g));
          [done|].
        destruct (finish_update_status g0 (new_record gid g))
          as [?|[?|?]]; auto.
      * rewrite lookup_insert_ne in Hg by done. eauto.
  - unfold poll_out.
    destruct (after_gate_cases gid
                (gate_iteration now deadline gid (st w)) (st w))
      as [[Heq _]|(g0 & _ & Hsnd & _)].
    + rewrite Heq. eauto.
    + rewrite Hsnd. simpl. intros g' r' Hg.
      apply lookup_alter_Some in Hg as [(<- & x & Hx & ->)|(_ & Hx)]; [|eauto].
      apply (status_inv_record_update (fun _ => True) x); [eauto|].
      destruct (finish_update_status g0 x) as [?|[?|?]]; auto.
  - rewrite alter_twice. intros g' r' Hg.
    apply lookup_alter_Some in Hg as [(<- & x & Hx & ->)|(_ & Hx)]; [|eauto].
    simpl. split; [right; by left|done].
  - intros g' r' Hg.
    apply lookup_alter_Some in Hg as [(<- & x & Hx & ->)|(_ & Hx)]; [|eauto].
    simpl. rewrite Hr in Hx. injection Hx as <-.
    destruct (Hold gid r Hr) as [Hk Hi]. split; [done|].
    intros t _ Hst. destruct (Hi _ Ht Hst) as [_ Hmc]. done.
  - destruct (apply_fut_op_frame op gid
                (with_records (alter (set_game g) gid) (st w))) as (-> & _).
    simpl. intros g' r' Hg.
    apply lookup_alter_Some in Hg as [(<- & x & Hx & ->)|(_ & Hx)]; [|eauto].
    simpl. eauto.
  - rewrite alter_twice. intros g' r' Hg.
    apply lookup_alter_Some in Hg as [(<- & x & Hx & ->)|(_ & Hx)]; [|eauto].
    simpl. rewrite Hr in Hx. injection Hx as <-.
    destruct (Hold gid r Hr) as [Hk Hi].
    unfold resume_update. destruct outcome as [[]|e]; simpl.
    + split; [right; right; by left|done].
    + destruct (is_Exception e); simpl.
      * split; [right; right; by right|done].
      * split; [done|]. intros t _ Hst. by destruct (Hi _ Ht Hst).
  - destruct (submit_frame gid idx text (st w)) as (-> & _). eauto.
Qed.

Lemma reachable_status_inv w : reachable w → status_inv w.
Proof.
  intros [evs Hrun].
  assert (Hall : call_inv w ∧ rec_inv w ∧ status_inv w); [|by destruct Hall as (_ & _ & ?)].
  revert Hrun.
  assert (Hgen : ∀ w0, call_inv w0 ∧ rec_inv w0 ∧ status_inv w0 →
            run evs w0 = Some w → call_inv w ∧ rec_inv w ∧ status_inv w).
  { clear. induction evs as [|ev evs IH]; intros w0 (Hc & Hr & Hs); simpl.
    - by intros [= <-].
    - destruct (exec ev w0) as [w1|] eqn:Hex; [|done].
      apply exec_step in Hex. apply IH. split; [|split].
      + by eapply call_inv_step.
      + by eapply rec_inv_step.
      + by eapply status_inv_step. }
  apply Hgen. split; [apply call_inv_init|].
  split; [apply rec_inv_init|apply status_inv_init].
Qed.

(** X20.  In every reachable state the status of a record is one of
    ["initializing"], ["running"], ["completed"], ["error"], and so is
    the status in every snapshot; a record is ["initializing"] only
    while its task has not taken its first step and has not been asked
    to cancel. *)
Theorem status_values (w : World) (gid : Z) (r : GameRecord) :
  reachable w →
  _records (st w) !! gid = Some r →
  known_status (status r)
  ∧ (status r = "initializing" →
     task r = Some {| task_state := TaskPending; must_cancel := false |})
  ∧ ∀ snap, get_state gid (st w) = Ok snap → known_status (snap_status snap).
Proof.
  intros Hreach Hr. pose proof (reachable_status_inv w Hreach) as Hsi.
  destruct (reachable_inv w Hreach) as [_ Hri].
  split; [by eapply si_values|]. split.
  - intros Hs. destruct (ri_ok w Hri gid r Hr) as (t & Ht & _).
    destruct (si_init w Hsi gid r t Hr Ht Hs) as [H1 H2].
    rewrite Ht. destruct t. simpl in *. by subst.
  - intros snap Hsn. apply get_state_Ok in Hsn as (r' & Hr' & _ & -> & _).
    by eapply si_values.
Qed.

Lemma status_values_witness :
  known_status (status (demo_blank_record "running" TaskSuspended)).
Proof.
  assert (Hr : reachable running_world).
  { exists running_run. vm_compute. reflexivity. }
  apply (status_values running_world 1
           (demo_blank_record "running" TaskSuspended) Hr).
  vm_compute. reflexivity.
Defined.

Lemma step_heap w ev w' addr fs :
  step w ev w' →
  future_heap (st w) !! addr = Some fs → fs ≠ FutPending →
  future_heap (st w') !! addr = Some fs.
Proof.
  intros Hs Hh Hfs.
  destruct Hs as [c key cm im H|c cm im H H0|c gid e t0 now H|c gid g t0 now H
                 |c gid deadline now H|gid r Hr Ht|gid r Hr Ht
                 |gid r mc g op Hr Ht|gid r mc outcome Hr Ht Hmc
                 |gid idx text|gid]; simpl; try done.
  - unfold setup_out, after_gate.
    by destruct (gate_result _).
  - unfold poll_out, after_gate.
    by destruct (gate_result _).
  - destruct op; simpl; try done. by apply lookup_app_l_Some.
  - rewrite (cleanup_state_keeps gid
               (with_records (alter (resume_update gid outcome) gid) (st w))
               addr); [done|].
    simpl. intros [_ Hp]. congruence.
  - rewrite submit_refines_spec.
    destruct (spec_submit_check (st w) gid idx) eqn:Hc; [done|]. simpl.
    unfold fulfilled.
    destruct (human_action_futures (st w) !! gid) as [a|] eqn:Ha; [|done].
    simpl. destruct (decide (a = addr)) as [->|Hne];
      [|by rewrite list_lookup_insert_ne].
    unfold spec_submit_check in Hc.
    destruct (_records (st w) !! gid) as [rec|]; [|done].
    destruct (is_terminal (status rec)); [done|].
    destruct (_find_human_agent (game rec)); [|done].
    unfold pending_request in Hc. rewrite Ha, Hh in Hc.
    by destruct fs.
Qed.

(** X21.  A future is resolved at most once: in every run of the
    system, once the future object at an address holds a payload or is
    cancelled, it keeps exactly that state; no later submission, task
    exit or step of the engine overwrites the payload handed to the
    waiting human agent. *)
Theorem future_resolved_once (evs : list Event) (w w' : World) (addr : nat)
    (fs : FutureState) :
  run evs w = Some w' →
  future_heap (st w) !! addr = Some fs →
  fs ≠ FutPending →
  future_heap (st w') !! addr = Some fs.
Proof.
  revert w. induction evs as [|ev evs IH]; intros w; simpl.
  - by intros [= <-].
  - destruct (exec ev w) as [w1|] eqn:Hex; [|done].
    intros Hrun Hh Hfs. apply exec_step in Hex.
    apply (IH w1 Hrun); [|done]. by eapply step_heap.
Qed.

Lemma future_resolved_once_witness :
  future_heap (st (default init_world
    (run (take 7 two_calls_run
          ++ [EvSubmit 1 0 (Some "first"); EvSubmit 1 1 (Some "second");
              EvTaskResume 1 (Ok tt)]) init_world))) !! 0%nat
  = Some (FutResult {| action_index := 0; message := "first" |}).
Proof.
  apply (future_resolved_once
           [EvSubmit 1 1 (Some "second"); EvTaskResume 1 (Ok tt)]
           (default init_world
              (run (take 7 two_calls_run ++ [EvSubmit 1 0 (Some "first")])
                 init_world)));
    [vm_compute; reflexivity | vm_compute; reflexivity | discriminate].
Defined.
